(** * The expression graph of Marian: construction, forward and backward pass

    A shallow embedding of [src/graph/expression_graph.h], [src/graph/node.h],
    [src/graph/chainable.h] and of the operator nodes of
    [src/graph/node_operators_unary.h] whose backward operations are written
    with the [Add] kernel, followed by the properties of the graph runtime:
    insertion order, common-subexpression elimination, edge counting, the
    single-root backward pass, gradient accumulation, storage release,
    parameters and the save/load shape convention. *)

From Stdlib Require Import ZArith List String Bool Lia.
From stdpp Require Import base gmap strings list fin_maps sorting.

#[local] Set Warnings "-register-all".

Local Open Scope string_scope.
Local Open Scope Z_scope.
Local Open Scope list_scope.

(** ** Machine integers *)

(** [size_t] counters ([count_], [edges_], [id_], tape levels) are 64-bit
    unsigned integers: every arithmetic result is reduced modulo [2^64]. *)
Definition wrap (z : Z) : Z := z mod 2 ^ 64.

(** ** Shapes and tensors *)

(** Modelled from the spec: [common/shape.h] is not part of the sources at hand;
    a shape is a "fixed-rank (4-dimensional) integer extent descriptor", a
    default-constructed shape is [{1, 1, 1, 1}] (as in the member initialiser
    [Shape shape_{1, 1, 1, 1}] of [Node]). *)
Record Shape := mkShape { dim0 : Z; dim1 : Z; dim2 : Z; dim3 : Z }.

Definition Shape_default : Shape := mkShape 1 1 1 1.

(** [shape[i]] *)
Definition shape_at (s : Shape) (i : Z) : Z :=
  match i with
  | 0 => dim0 s
  | 1 => dim1 s
  | 2 => dim2 s
  | 3 => dim3 s
  | _ => 1
  end.

(** [shape.set(i, v)] *)
Definition shape_set (i : Z) (v : Z) (s : Shape) : Shape :=
  match i with
  | 0 => mkShape v (dim1 s) (dim2 s) (dim3 s)
  | 1 => mkShape (dim0 s) v (dim2 s) (dim3 s)
  | 2 => mkShape (dim0 s) (dim1 s) v (dim3 s)
  | 3 => mkShape (dim0 s) (dim1 s) (dim2 s) v
  | _ => s
  end.

(** [shape.elements()] *)
Definition elements_of (s : Shape) : Z := dim0 s * dim1 s * dim2 s * dim3 s.

(** [TensorBase] of [tensors/tensor.h]: a device buffer and its shape.  The
    element type is a parameter: no property below computes with floats. *)
Record TensorBase (F : Type) := mkTensor { data_ : list F; tshape_ : Shape }.
Arguments mkTensor {F} _ _.
Arguments data_ {F} _.
Arguments tshape_ {F} _.

(** ** Device operations *)

(** The placeholder expressions handed to the element-wise kernels, such as
    [_1 * (1.0f - (_2 * _2))]. *)
Inductive Functor :=
| Arg (i : nat)
| Lit (c : Z)
| Assign (a b : Functor)
| PlusAssign (a b : Functor)
| Plus (a b : Functor)
| Minus (a b : Functor)
| Mult (a b : Functor)
| Div (a b : Functor)
| Negate (a : Functor)
| Tanh (a : Functor)
| Sigma (a : Functor)
| ReLU (a : Functor)
| ReLUback (a : Functor)
| Log (a : Functor)
| Exp (a : Functor).

(** The kernels of [kernels/tensor_operators.h] called by the modelled nodes. *)
Inductive Kernel :=
| Element (f : Functor)
| Add (f : Functor)
| Softmax
| SoftmaxGrad
| LogSoftmax
| LogSoftmaxGrad.

(** What lies outside the graph runtime: the float type, the device kernels,
    the contents of freshly allocated arena memory and the boost hash
    functions.  A kernel maps the old contents of its output handle and the
    contents of its input handles to the new contents of the output; a handle
    is [None] when it is a null [Tensor]. *)
Class Backend := {
  float : Type;
  fzero : float;
  fone : float;
  arena : Shape -> list float;
  kernel : Kernel -> option (TensorBase float) -> list (option (TensorBase float))
           -> option (TensorBase float);
  hash_string : string -> Z;
  hash_value : Z -> Z;
  hash_mix : Z -> Z -> Z;
  leaf_hash : nat -> Z }.

(** ** Node handles *)

Inductive LeafType := ParamNode | InputNode | ConstantNode.

Inductive OpType :=
| LogitNodeOp
| TanhNodeOp
| ReLUNodeOp
| SoftmaxNodeOp
| LogSoftmaxNodeOp
| LogNodeOp
| ExpNodeOp
| SquareNodeOp
| NegNodeOp.

Inductive NodeType := Leaf (l : LeafType) | Op (o : OpType).

(** An [Expr] is a shared pointer to a node.  The class of a node and its
    [children_] are fixed by the constructor ("children are immutable after
    construction"), so a handle carries them next to the address [ptr];
    everything a node can change is kept in the store under [ptr]. *)
Inductive Expr := mkExpr (ptr : nat) (ty : NodeType) (children_ : list Expr).

Definition ptr (e : Expr) : nat := match e with mkExpr p _ _ => p end.
Definition node_type (e : Expr) : NodeType := match e with mkExpr _ t _ => t end.
Definition children (e : Expr) : list Expr := match e with mkExpr _ _ c => c end.

(** [type()] *)
Definition type (o : OpType) : string :=
  match o with
  | LogitNodeOp => "logit"
  | TanhNodeOp => "tanh"
  | ReLUNodeOp => "ReLU"
  | SoftmaxNodeOp => "softmax"
  | LogSoftmaxNodeOp => "logsoftmax"
  | LogNodeOp => "log"
  | ExpNodeOp => "exp"
  | SquareNodeOp => "square"
  | NegNodeOp => "-"
  end.

(** [mask_] of [SoftmaxNodeOp]: the second child when there is one. *)
Definition mask_ (ch : list Expr) : option Expr :=
  match ch with
  | [_; m] => Some m
  | _ => None
  end.

(** A tensor named by an operation: [e->val()], [e->grad()] or [nullptr]. *)
Inductive TRef := Val (p : nat) | Grad (p : nat) | Null.

(** One kernel call; a [NodeOp] is a closure running some calls in order. *)
Record Call := mkCall { call_kernel : Kernel; call_out : TRef; call_ins : list TRef }.
Definition NodeOp := list Call.
Definition NodeOps := list NodeOp.

(** [forwardOps()] *)
Definition forwardOps (e : Expr) : NodeOps :=
  match e with
  | mkExpr _ (Leaf _) _ => []
  | mkExpr p (Op o) ch =>
    let c (i : nat) := Val (ptr (nth i ch e)) in
    match o with
    | LogitNodeOp =>
      [[mkCall (Element (Assign (Arg 1) (Sigma (Arg 2)))) (Val p) [c 0%nat]]]
    | TanhNodeOp =>
      match length ch with
      | 1%nat => [[mkCall (Element (Assign (Arg 1) (Tanh (Arg 2)))) (Val p) [c 0%nat]]]
      | 2%nat => [[mkCall (Element (Assign (Arg 1) (Tanh (Plus (Arg 2) (Arg 3)))))
                          (Val p) [c 0%nat; c 1%nat]]]
      | 3%nat => [[mkCall (Element (Assign (Arg 1) (Tanh (Plus (Plus (Arg 2) (Arg 3)) (Arg 4)))))
                          (Val p) [c 0%nat; c 1%nat; c 2%nat]]]
      | _ =>
        [ mkCall (Element (Assign (Arg 1) (Plus (Plus (Arg 2) (Arg 3)) (Arg 4))))
                 (Val p) [c 0%nat; c 1%nat; c 2%nat]
          :: map (fun child => mkCall (Element (PlusAssign (Arg 1) (Arg 2))) (Val p)
                                      [Val (ptr child)]) (drop 3 ch)
          ++ [mkCall (Element (Assign (Arg 1) (Tanh (Arg 1)))) (Val p) []] ]
      end
    | ReLUNodeOp =>
      [[mkCall (Element (Assign (Arg 1) (ReLU (Arg 2)))) (Val p) [c 0%nat]]]
    | SoftmaxNodeOp =>
      [[mkCall Softmax (Val p)
               [c 0%nat; match mask_ ch with Some m => Val (ptr m) | None => Null end]]]
    | LogSoftmaxNodeOp => [[mkCall LogSoftmax (Val p) [c 0%nat]]]
    | LogNodeOp =>
      [[mkCall (Element (Assign (Arg 1) (Log (Arg 2)))) (Val p) [c 0%nat]]]
    | ExpNodeOp =>
      [[mkCall (Element (Assign (Arg 1) (Exp (Arg 2)))) (Val p) [c 0%nat]]]
    | SquareNodeOp =>
      [[mkCall (Element (Assign (Arg 1) (Mult (Arg 2) (Arg 2)))) (Val p) [c 0%nat]]]
    | NegNodeOp =>
      [[mkCall (Element (Assign (Arg 1) (Negate (Arg 2)))) (Val p) [c 0%nat]]]
    end
  end.

(** The single backward operation of a unary node: it writes [children_[0]->grad()]. *)
Definition unary_backward (k : Kernel) (ch : list Expr) (ins : list TRef) : NodeOps :=
  match ch with
  | c0 :: _ => [[mkCall k (Grad (ptr c0)) ins]]
  | [] => []
  end.

(** [backwardOps()] *)
Definition backwardOps (e : Expr) : NodeOps :=
  match e with
  | mkExpr _ (Leaf _) _ => []
  | mkExpr p (Op o) ch =>
    let c0 := Val (ptr (nth 0 ch e)) in
    match o with
    | LogitNodeOp =>
      unary_backward (Add (Mult (Mult (Arg 1) (Arg 2)) (Minus (Lit 1) (Arg 2))))
                     ch [Grad p; Val p]
    | TanhNodeOp =>
      map (fun child =>
             [mkCall (Add (Mult (Arg 1) (Minus (Lit 1) (Mult (Arg 2) (Arg 2)))))
                     (Grad (ptr child)) [Grad p; Val p]]) ch
    | ReLUNodeOp =>
      unary_backward (Add (Mult (Arg 1) (ReLUback (Arg 2)))) ch [Grad p; c0]
    | SoftmaxNodeOp => unary_backward SoftmaxGrad ch [Grad p; Val p]
    | LogSoftmaxNodeOp => unary_backward LogSoftmaxGrad ch [Grad p; Val p]
    | LogNodeOp =>
      unary_backward (Add (Mult (Arg 1) (Div (Lit 1) (Arg 2)))) ch [Grad p; c0]
    | ExpNodeOp =>
      unary_backward (Add (Mult (Arg 1) (Exp (Arg 2)))) ch [Grad p; c0]
    | SquareNodeOp =>
      unary_backward (Add (Mult (Mult (Lit 2) (Arg 1)) (Arg 2))) ch [c0; Grad p]
    | NegNodeOp => unary_backward (Add (Negate (Arg 1))) ch [Grad p]
    end
  end.

(** ** Nodes and the graph *)

Section model.
Context `{!Backend}.

(** [Tensor] is a shared pointer to a [TensorBase]; [None] is the null handle. *)
Definition Tensor : Type := option (TensorBase float).

(** The mutable members of [Node] ([markedForDebug_] and [debugMessage_] only
    drive printing to [std::cerr] and are left out).  [hash_] is the memo of
    [NaryNodeOp]; [init_] is the [keywords::init] initialiser of a source node,
    kept as the values it copies (as [inits::from_numpy] does). *)
Record Node := mkNode {
  id_ : Z;
  edges_ : Z;
  trainable_ : bool;
  shape_ : Shape;
  name_ : string;
  val_ : Tensor;
  adj_ : Tensor;
  hash_ : Z;
  init_ : option (list float) }.

(** The member initialisers of [Node] and [NaryNodeOp]. *)
Definition Node_new (shape : Shape) (trainable : bool) (init : option (list float)) : Node :=
  {| id_ := 0; edges_ := 0; trainable_ := trainable; shape_ := shape; name_ := "none";
     val_ := None; adj_ := None; hash_ := 0; init_ := init |}.

Definition set_id (v : Z) (n : Node) : Node :=
  mkNode v (edges_ n) (trainable_ n) (shape_ n) (name_ n) (val_ n) (adj_ n) (hash_ n) (init_ n).
Definition set_edges (v : Z) (n : Node) : Node :=
  mkNode (id_ n) v (trainable_ n) (shape_ n) (name_ n) (val_ n) (adj_ n) (hash_ n) (init_ n).
Definition set_node_name (v : string) (n : Node) : Node :=
  mkNode (id_ n) (edges_ n) (trainable_ n) (shape_ n) v (val_ n) (adj_ n) (hash_ n) (init_ n).
Definition set_val (v : Tensor) (n : Node) : Node :=
  mkNode (id_ n) (edges_ n) (trainable_ n) (shape_ n) (name_ n) v (adj_ n) (hash_ n) (init_ n).
Definition set_adj (v : Tensor) (n : Node) : Node :=
  mkNode (id_ n) (edges_ n) (trainable_ n) (shape_ n) (name_ n) (val_ n) v (hash_ n) (init_ n).
Definition set_hash (v : Z) (n : Node) : Node :=
  mkNode (id_ n) (edges_ n) (trainable_ n) (shape_ n) (name_ n) (val_ n) (adj_ n) v (init_ n).

(** The objects behind the handles: address to node. *)
Definition Store : Type := nat -> Node.

Definition upd (p : nat) (f : Node -> Node) (st : Store) : Store :=
  fun q => if decide (q = p) then f (st q) else st q.

(** [ExpressionGraph]: the members of the class, the node objects [store_], the
    next free address [next_], and the handles given back to the tensor
    allocator [released_] (in the order of the calls of [Node::free]). *)
Record ExpressionGraph := mkGraph {
  count_ : Z;
  nodes_ : list Expr;
  tapes_ : list (list Expr);
  tapeMap_ : gmap nat Z;
  named_ : gmap string Expr;
  inputs_ : list Expr;
  topNodes_ : gset nat;
  params_ : gmap string Expr;
  hashMap_ : gmap Z Expr;
  store_ : Store;
  next_ : nat;
  released_ : list nat }.

Definition set_count (v : Z) (g : ExpressionGraph) : ExpressionGraph :=
  mkGraph v (nodes_ g) (tapes_ g) (tapeMap_ g) (named_ g) (inputs_ g) (topNodes_ g)
          (params_ g) (hashMap_ g) (store_ g) (next_ g) (released_ g).
Definition set_nodes (v : list Expr) (g : ExpressionGraph) : ExpressionGraph :=
  mkGraph (count_ g) v (tapes_ g) (tapeMap_ g) (named_ g) (inputs_ g) (topNodes_ g)
          (params_ g) (hashMap_ g) (store_ g) (next_ g) (released_ g).
Definition set_tapes (v : list (list Expr)) (g : ExpressionGraph) : ExpressionGraph :=
  mkGraph (count_ g) (nodes_ g) v (tapeMap_ g) (named_ g) (inputs_ g) (topNodes_ g)
          (params_ g) (hashMap_ g) (store_ g) (next_ g) (released_ g).
Definition set_tapeMap (v : gmap nat Z) (g : ExpressionGraph) : ExpressionGraph :=
  mkGraph (count_ g) (nodes_ g) (tapes_ g) v (named_ g) (inputs_ g) (topNodes_ g)
          (params_ g) (hashMap_ g) (store_ g) (next_ g) (released_ g).
Definition set_named (v : gmap string Expr) (g : ExpressionGraph) : ExpressionGraph :=
  mkGraph (count_ g) (nodes_ g) (tapes_ g) (tapeMap_ g) v (inputs_ g) (topNodes_ g)
          (params_ g) (hashMap_ g) (store_ g) (next_ g) (released_ g).
Definition set_inputs (v : list Expr) (g : ExpressionGraph) : ExpressionGraph :=
  mkGraph (count_ g) (nodes_ g) (tapes_ g) (tapeMap_ g) (named_ g) v (topNodes_ g)
          (params_ g) (hashMap_ g) (store_ g) (next_ g) (released_ g).
Definition set_topNodes (v : gset nat) (g : ExpressionGraph) : ExpressionGraph :=
  mkGraph (count_ g) (nodes_ g) (tapes_ g) (tapeMap_ g) (named_ g) (inputs_ g) v
          (params_ g) (hashMap_ g) (store_ g) (next_ g) (released_ g).
Definition set_params (v : gmap string Expr) (g : ExpressionGraph) : ExpressionGraph :=
  mkGraph (count_ g) (nodes_ g) (tapes_ g) (tapeMap_ g) (named_ g) (inputs_ g) (topNodes_ g)
          v (hashMap_ g) (store_ g) (next_ g) (released_ g).
Definition set_hashMap (v : gmap Z Expr) (g : ExpressionGraph) : ExpressionGraph :=
  mkGraph (count_ g) (nodes_ g) (tapes_ g) (tapeMap_ g) (named_ g) (inputs_ g) (topNodes_ g)
          (params_ g) v (store_ g) (next_ g) (released_ g).
Definition set_store (v : Store) (g : ExpressionGraph) : ExpressionGraph :=
  mkGraph (count_ g) (nodes_ g) (tapes_ g) (tapeMap_ g) (named_ g) (inputs_ g) (topNodes_ g)
          (params_ g) (hashMap_ g) v (next_ g) (released_ g).
Definition set_next (v : nat) (g : ExpressionGraph) : ExpressionGraph :=
  mkGraph (count_ g) (nodes_ g) (tapes_ g) (tapeMap_ g) (named_ g) (inputs_ g) (topNodes_ g)
          (params_ g) (hashMap_ g) (store_ g) v (released_ g).
Definition set_released (v : list nat) (g : ExpressionGraph) : ExpressionGraph :=
  mkGraph (count_ g) (nodes_ g) (tapes_ g) (tapeMap_ g) (named_ g) (inputs_ g) (topNodes_ g)
          (params_ g) (hashMap_ g) (store_ g) (next_ g) v.

(** A graph as its constructor leaves it. *)
Definition ExpressionGraph_new : ExpressionGraph :=
  mkGraph 0 [] [] ∅ ∅ [] ∅ ∅ ∅ (fun _ => Node_new Shape_default true None) 0%nat [].

(** Updates one node object. *)
Definition on_node (p : nat) (f : Node -> Node) (g : ExpressionGraph) : ExpressionGraph :=
  set_store (upd p f (store_ g)) g.

(** Reads a member of the node behind a handle. *)
Definition node (g : ExpressionGraph) (e : Expr) : Node := store_ g (ptr e).

(** What [UTIL_THROW_IF2] raises. *)
Inductive Exception :=
| TopNodesException
| NonParameterExists (name : string)
| NamesNotUnique
| ShapesNotBroadcastable.

(** A call either returns or throws; a throw carries the graph as the throw
    left it. *)
Inductive Result (A : Type) :=
| Ok (a : A)
| Throw (ex : Exception) (g : ExpressionGraph).
Arguments Ok {A} _.
Arguments Throw {A} _ _.

(** *** Members of [Node] *)

(** [setId], [increaseEdges], [decreaseEdges], [set_name]. *)
Definition setId (e : Expr) (id : Z) (g : ExpressionGraph) : ExpressionGraph :=
  on_node (ptr e) (set_id id) g.

Definition increaseEdges (e : Expr) (edges : Z) (g : ExpressionGraph) : ExpressionGraph :=
  on_node (ptr e) (fun n => set_edges (wrap (edges_ n + edges)) n) g.

Definition decreaseEdges (e : Expr) (edges : Z) (g : ExpressionGraph) : ExpressionGraph :=
  on_node (ptr e) (fun n => set_edges (wrap (edges_ n - edges)) n) g.

Definition set_name (e : Expr) (name : string) (g : ExpressionGraph) : ExpressionGraph :=
  on_node (ptr e) (set_node_name name) g.

(** A tensor of the given shape as the arena hands it out, and filled by
    [set(v)]. *)
Definition tensor_fresh (s : Shape) : TensorBase float := mkTensor (arena s) s.
Definition tensor_filled (v : float) (s : Shape) : TensorBase float :=
  mkTensor (repeat v (Z.to_nat (elements_of s))) s.

(** Modelled from the spec: [Node::allocate] is defined in [graph/node.cu], which is
    not part of the sources at hand; the forward pass must "allocate its value
    buffer", "allocated lazily". *)
Definition allocate (fake : bool) (e : Expr) (g : ExpressionGraph) : ExpressionGraph :=
  on_node (ptr e) (fun n => match val_ n with
                            | Some _ => n
                            | None => set_val (Some (tensor_fresh (shape_ n))) n
                            end) g.

(** Modelled from the spec: [Node::free] is defined in [graph/node.cu]; the node's
    "value/gradient memory is returned to the arena". *)
Definition free (fake : bool) (e : Expr) (g : ExpressionGraph) : ExpressionGraph :=
  set_released (released_ g ++ [ptr e])
               (on_node (ptr e) (fun n => set_adj None (set_val None n)) g).

(** [Node::init] is empty; the source nodes override it in
    [graph/node_operators.h], which is not part of the sources at hand.
    Modelled from the spec: a source node copies its initialiser into its value
    ("zero or seed buffers before use"), nothing in a dry run. *)
Definition init (fake : bool) (e : Expr) (g : ExpressionGraph) : ExpressionGraph :=
  match node_type e with
  | Leaf _ =>
    on_node (ptr e) (fun n => match init_ n, fake with
                              | Some d, false => set_val (Some (mkTensor d (shape_ n))) n
                              | _, _ => n
                              end) g
  | Op _ => g
  end.

(** Modelled from the spec: [Node::init_dependent] is defined in [graph/node.cu]; it
    seeds the top node's gradient, "conventionally: gradient = 1". *)
Definition init_dependent (fake : bool) (p : nat) (g : ExpressionGraph) : ExpressionGraph :=
  on_node p (fun n => match adj_ n, fake with
                      | _, false => set_adj (Some (tensor_filled fone (shape_ n))) n
                      | None, true => set_adj (Some (tensor_fresh (shape_ n))) n
                      | Some _, true => n
                      end) g.

(** Modelled from the spec: [Node::set_zero_adjoint] is defined in [graph/node.cu];
    the pass must "zero the gradient buffer of every trainable child that has
    not yet been touched this pass": a gradient that is already there is left
    alone. *)
Definition set_zero_adjoint (fake : bool) (e : Expr) (g : ExpressionGraph) : ExpressionGraph :=
  on_node (ptr e) (fun n => match adj_ n with
                            | Some _ => n
                            | None => set_adj (Some (if fake then tensor_fresh (shape_ n)
                                                     else tensor_filled fzero (shape_ n))) n
                            end) g.

(** Reading and writing the tensor an operation names. *)
Definition read (st : Store) (r : TRef) : Tensor :=
  match r with
  | Val p => val_ (st p)
  | Grad p => adj_ (st p)
  | Null => None
  end.

Definition write (r : TRef) (t : Tensor) (st : Store) : Store :=
  match r with
  | Val p => upd p (set_val t) st
  | Grad p => upd p (set_adj t) st
  | Null => st
  end.

Definition run_call (c : Call) (st : Store) : Store :=
  write (call_out c) (kernel (call_kernel c) (read st (call_out c)) (map (read st) (call_ins c))) st.

Definition run_op (op : NodeOp) (st : Store) : Store :=
  fold_left (fun st c => run_call c st) op st.

(** [runForward]: every operation, in order. *)
Definition runForward (ops : NodeOps) (st : Store) : Store :=
  fold_left (fun st op => run_op op st) ops st.

(** [runBackward]: the [i]-th operation runs if [children()[i]] is trainable. *)
Definition runBackward (e : Expr) (ops : NodeOps) (st : Store) : Store :=
  snd (fold_left (fun acc op =>
                    let '(i, st) := acc in
                    (S i, match children e !! i with
                          | Some child => if trainable_ (st (ptr child)) then run_op op st else st
                          | None => st
                          end)) ops (0%nat, st)).

(** [Node::forward] and [Node::backward]. *)
Definition node_forward (fake : bool) (e : Expr) (g : ExpressionGraph) : ExpressionGraph :=
  if fake then g else set_store (runForward (forwardOps e) (store_ g)) g.

Definition node_backward (fake : bool) (e : Expr) (g : ExpressionGraph) : ExpressionGraph :=
  if fake then g else set_store (runBackward e (backwardOps e) (store_ g)) g.

(** [boost::hash_combine(seed, v)] with [v] already hashed. *)
Definition hash_combine (seed : Z) (v : Z) : Z := hash_mix seed v.

(** [hash()].  A source node hashes its address ([graph/node_operators.h] is not
    part of the sources at hand; the parameter [leaf_hash] stands for it).
    [NaryNodeOp::hash] is memoised in [hash_]; [SoftmaxNodeOp] mixes the hash
    of its mask into the result. *)
Fixpoint hash (e : Expr) (st : Store) : Z * Store :=
  match e with
  | mkExpr p (Leaf _) _ => (leaf_hash p, st)
  | mkExpr p (Op o) ch =>
    if Z.eqb (hash_ (st p)) 0 then
      let seed := hash_string (name_ (st p)) in
      let seed := hash_combine seed (hash_string (type o)) in
      let '(seed, st) :=
        fold_left (fun acc child =>
                     let '(seed, st) := acc in
                     let '(h, st) := hash child st in
                     (hash_combine seed (hash_value h), st)) ch (seed, st) in
      let st := upd p (set_hash seed) st in
      match o with
      | SoftmaxNodeOp =>
        match ch with
        | [_; m] =>
          let '(hm, st) := hash m st in
          let h := hash_combine seed (hash_value hm) in
          (h, upd p (set_hash h) st)
        | _ => (seed, st)
        end
      | _ => (seed, st)
      end
    else (hash_ (st p), st)
  end.

(** *** Members of [ExpressionGraph] *)

(** [tapeMap_[child]]: [operator[]] of [std::map] enters a zero for a key that
    is not there. *)
Definition tapeMap_at (e : Expr) (g : ExpressionGraph) : Z * ExpressionGraph :=
  match tapeMap_ g !! ptr e with
  | Some l => (l, g)
  | None => (0, set_tapeMap (<[ptr e := 0]> (tapeMap_ g)) g)
  end.

(** [tapes_.resize(n)] when it grows the vector. *)
Definition tapes_resize (n : nat) (t : list (list Expr)) : list (list Expr) :=
  t ++ replicate (n - length t) [].

(** The body of the loop over the children in [add]. *)
Definition add_child (node_ : Expr) (acc : Z * ExpressionGraph) (child : Expr)
  : Z * ExpressionGraph :=
  let '(group, g) := acc in
  let '(level, g) := tapeMap_at child g in
  (Z.max group (wrap (level + 1)), increaseEdges node_ 2 (increaseEdges child 2 g)).

(** What [add] does with a node whose hash [h] is not in [hashMap_]. *)
Definition add_new (h : Z) (node_ : Expr) (g : ExpressionGraph) : ExpressionGraph :=
  let g := set_hashMap (<[h := node_]> (hashMap_ g)) g in
  let g := set_count (wrap (count_ g + 1)) (setId node_ (count_ g) g) in
  let '(group, g) := fold_left (add_child node_) (children node_) (0, g) in
  let g := set_tapeMap (<[ptr node_ := group]> (tapeMap_ g)) g in
  let g := if Z.leb (Z.of_nat (length (tapes_ g))) group
           then set_tapes (tapes_resize (Z.to_nat (wrap (group + 1))) (tapes_ g)) g
           else g in
  let g := set_tapes (alter (fun t => t ++ [node_]) (Z.to_nat group) (tapes_ g)) g in
  let g := set_nodes (nodes_ g ++ [node_]) g in
  set_topNodes ({[ptr node_]} ∪ topNodes_ g) g.

(** [add] *)
Definition add (node_ : Expr) (g : ExpressionGraph) : Expr * ExpressionGraph :=
  let '(h, st) := hash node_ (store_ g) in
  let g := set_store st g in
  match hashMap_ g !! h with
  | Some e => (e, g)
  | None => (node_, add_new h node_ g)
  end.

(** [remove_top_node] *)
Definition remove_top_node (e : Expr) (g : ExpressionGraph) : ExpressionGraph :=
  set_topNodes (topNodes_ g ∖ {[ptr e]}) g.

(** Modelled from the spec: [NaryNodeOp::remove_children_from_top_nodes] is defined
    in [graph/node.cu]; "constructing a node as a child of a later node removes
    it from the top-node set". *)
Definition remove_children_from_top_nodes (ch : list Expr) (g : ExpressionGraph)
  : ExpressionGraph :=
  fold_left (fun g child => remove_top_node child g) ch g.

(** [clear]: everything apart from the parameters; the tensor allocator is
    emptied, which takes the value and gradient of no node object away. *)
Definition clear (g : ExpressionGraph) : ExpressionGraph :=
  mkGraph 0 [] [] ∅ ∅ [] ∅ (params_ g) ∅ (store_ g) (next_ g) (released_ g).

(** [get] *)
Definition get (name : string) (g : ExpressionGraph) : option Expr :=
  match params_ g !! name with
  | Some e => Some e
  | None => named_ g !! name
  end.

(** [add_named_node] *)
Definition add_named_node (e : Expr) (name : string) (g : ExpressionGraph)
  : Result ExpressionGraph :=
  if bool_decide (is_Some (params_ g !! name) \/ is_Some (get name g))
  then Throw NamesNotUnique g
  else Ok (set_named (<[name := e]> (named_ g)) g).

(** *** Constructing nodes *)

(** The constructor calls [new T(args...)] of the modelled classes.  The
    source nodes are constructed in [graph/node_operators.h], which is not part
    of the sources at hand: their shape, initialiser and [setTrainable] flag
    are the arguments here.  [TanhNodeOp] takes a vector whose [front()] is
    read, hence a first operand and the others. *)
Inductive Ctor :=
| NewParam (shape : Shape) (trainable : bool) (init : option (list float))
| NewInput (shape : Shape) (trainable : bool) (init : option (list float))
| NewConstant (shape : Shape) (trainable : bool) (init : option (list float))
| NewLogit (a : Expr)
| NewTanh (a : Expr) (rest : list Expr)
| NewReLU (a : Expr)
| NewSoftmax (a : Expr) (mask : option Expr)
| NewLogSoftmax (a : Expr)
| NewLog (a : Expr)
| NewExp (a : Expr)
| NewSquare (a : Expr)
| NewNeg (a : Expr).

Definition ctor_type (c : Ctor) : NodeType :=
  match c with
  | NewParam _ _ _ => Leaf ParamNode
  | NewInput _ _ _ => Leaf InputNode
  | NewConstant _ _ _ => Leaf ConstantNode
  | NewLogit _ => Op LogitNodeOp
  | NewTanh _ _ => Op TanhNodeOp
  | NewReLU _ => Op ReLUNodeOp
  | NewSoftmax _ _ => Op SoftmaxNodeOp
  | NewLogSoftmax _ => Op LogSoftmaxNodeOp
  | NewLog _ => Op LogNodeOp
  | NewExp _ => Op ExpNodeOp
  | NewSquare _ => Op SquareNodeOp
  | NewNeg _ => Op NegNodeOp
  end.

Definition ctor_children (c : Ctor) : list Expr :=
  match c with
  | NewParam _ _ _ | NewInput _ _ _ | NewConstant _ _ _ => []
  | NewTanh a rest => a :: rest
  | NewSoftmax a (Some mask) => [a; mask]
  | NewSoftmax a None => [a]
  | NewLogit a | NewReLU a | NewLogSoftmax a | NewLog a | NewExp a | NewSquare a | NewNeg a =>
    [a]
  end.

(** One step of the inner loop of [TanhNodeOp::newShape]. *)
Definition broadcast_dim (sn : Shape) (acc : option Shape) (i : Z) : option Shape :=
  match acc with
  | None => None
  | Some s =>
    if negb (Z.eqb (shape_at s i) (shape_at sn i))
       && negb (Z.eqb (shape_at s i) 1) && negb (Z.eqb (shape_at sn i) 1)
    then None
    else Some (shape_set i (Z.max (shape_at s i) (shape_at sn i)) s)
  end.

(** [TanhNodeOp::newShape]; [None] when "Shapes cannot be broadcasted". *)
Definition Tanh_newShape (g : ExpressionGraph) (a : Expr) (rest : list Expr) : option Shape :=
  fold_left (fun acc n => fold_left (broadcast_dim (shape_ (node g n))) [0; 1; 2; 3] acc)
            rest (Some (shape_ (node g a))).

(** The shape given to [Node]: the keyword of a source node, the broadcast of
    the operands for [TanhNodeOp], the shape of the first operand otherwise. *)
Definition ctor_shape (c : Ctor) (g : ExpressionGraph) : option Shape :=
  match c with
  | NewParam s _ _ | NewInput s _ _ | NewConstant s _ _ => Some s
  | NewTanh a rest => Tanh_newShape g a rest
  | NewSoftmax a _ => Some (shape_ (node g a))
  | NewLogit a | NewReLU a | NewLogSoftmax a | NewLog a | NewExp a | NewSquare a | NewNeg a =>
    Some (shape_ (node g a))
  end.

(** [setTrainable(std::any_of(...))] in the constructor of [NaryNodeOp]. *)
Definition ctor_trainable (c : Ctor) (g : ExpressionGraph) : bool :=
  match c with
  | NewParam _ t _ | NewInput _ t _ | NewConstant _ t _ => t
  | _ => existsb (fun a => trainable_ (node g a)) (ctor_children c)
  end.

Definition ctor_init (c : Ctor) : option (list float) :=
  match c with
  | NewParam _ _ i | NewInput _ _ i | NewConstant _ _ i => i
  | _ => None
  end.

(** [Expression<T>(args...)]: the node is constructed at the next free
    address (the constructor of [NaryNodeOp] removes the operands from the top
    nodes), then handed to [add], whose result is returned. *)
Definition Expression (c : Ctor) (g : ExpressionGraph) : Result (Expr * ExpressionGraph) :=
  match ctor_shape c g with
  | None => Throw ShapesNotBroadcastable g
  | Some shape =>
    let e := mkExpr (next_ g) (ctor_type c) (ctor_children c) in
    let n := Node_new shape (ctor_trainable c g) (ctor_init c) in
    let g := set_next (S (next_ g)) (on_node (next_ g) (fun _ => n) g) in
    let g := match ctor_type c with
             | Op _ => remove_children_from_top_nodes (ctor_children c) g
             | Leaf _ => g
             end in
    Ok (add e g)
  end.

(** [input] *)
Definition input (shape : Shape) (trainable : bool) (init : option (list float))
  (g : ExpressionGraph) : Result (Expr * ExpressionGraph) :=
  match Expression (NewInput shape trainable init) g with
  | Ok (e, g) => Ok (e, set_inputs (inputs_ g ++ [e]) g)
  | Throw ex g => Throw ex g
  end.

(** [constant] *)
Definition constant (shape : Shape) (trainable : bool) (init : option (list float))
  (g : ExpressionGraph) : Result (Expr * ExpressionGraph) :=
  Expression (NewConstant shape trainable init) g.

(** *** Parameters *)

(** Modelled from the spec: the class [Parameters] ([graph/parameters.h]) is not
    part of the sources at hand; it is the "parameter table: name → persistent
    node" with [get], [add] and [getMap], it allocates the values and
    gradients of the parameters, and [set_zero_adjoint] must "zero all
    parameter gradients". *)
Definition Parameters_get (name : string) (g : ExpressionGraph) : option Expr :=
  params_ g !! name.

Definition Parameters_add (p : Expr) (name : string) (g : ExpressionGraph) : ExpressionGraph :=
  set_params (<[name := p]> (params_ g)) g.

Definition Parameters_list (g : ExpressionGraph) : list Expr :=
  map snd (map_to_list (params_ g)).

Definition Parameters_allocateForward (fake : bool) (g : ExpressionGraph) : ExpressionGraph :=
  fold_left (fun g p => allocate fake p g) (Parameters_list g) g.

Definition Parameters_allocateBackward (fake : bool) (g : ExpressionGraph) : ExpressionGraph :=
  fold_left (fun g p =>
               on_node (ptr p) (fun n => match adj_ n with
                                         | Some _ => n
                                         | None => set_adj (Some (tensor_fresh (shape_ n))) n
                                         end) g) (Parameters_list g) g.

Definition Parameters_set_zero_adjoint (fake : bool) (g : ExpressionGraph) : ExpressionGraph :=
  fold_left (fun g p =>
               on_node (ptr p) (fun n => match adj_ n, fake with
                                         | Some t, false =>
                                           set_adj (Some (tensor_filled fzero (tshape_ t))) n
                                         | _, _ => n
                                         end) g) (Parameters_list g) g.

(** [param] *)
Definition param (name : string) (shape : Shape) (trainable : bool)
  (init : option (list float)) (g : ExpressionGraph) : Result (Expr * ExpressionGraph) :=
  match Parameters_get name g with
  | Some p => Ok (p, snd (add p g))
  | None =>
    match get name g with
    | Some _ => Throw (NonParameterExists name) g
    | None =>
      match Expression (NewParam shape trainable init) g with
      | Ok (p, g) => Ok (p, Parameters_add p name (set_name p name g))
      | Throw ex g => Throw ex g
      end
    end
  end.

(** *** The forward pass *)

(** The inner loop of both passes: one unit off [v] and off the child, for
    every child. *)
Definition release_edges (v : Expr) (g : ExpressionGraph) : ExpressionGraph :=
  fold_left (fun g child => decreaseEdges child 1 (decreaseEdges v 1 g)) (children v) g.

(** The body of the loop of [forward(pos, fake)]. *)
Definition forward_step (fake : bool) (g : ExpressionGraph) (v : Expr) : ExpressionGraph :=
  let g := allocate fake v g in
  let g := init fake v g in
  let g := node_forward fake v g in
  release_edges v g.

(** [forward(pos, fake)]; the result is the position reached. *)
Definition forward_from (pos : nat) (fake : bool) (g : ExpressionGraph)
  : nat * ExpressionGraph :=
  (length (nodes_ g), fold_left (forward_step fake) (drop pos (nodes_ g)) g).

(** [forward(fake)] *)
Definition forward (fake : bool) (g : ExpressionGraph) : nat * ExpressionGraph :=
  forward_from 0 fake (Parameters_allocateForward fake g).

(** *** The backward pass *)

(** The first loop of the body of the loop of [backward(fake)]. *)
Definition zero_children (fake : bool) (ch : list Expr) (g : ExpressionGraph)
  : ExpressionGraph :=
  fold_left (fun g child =>
               if trainable_ (node g child) then set_zero_adjoint fake child g else g) ch g.

(** The body of the loop of [backward(fake)] up to the test that releases
    the node. *)
Definition backward_visit (fake : bool) (g : ExpressionGraph) (v : Expr) : ExpressionGraph :=
  let g := zero_children fake (children v) g in
  let g := if trainable_ (node g v) then node_backward fake v g else g in
  release_edges v g.

(** The test [v->edges() == 0 && v->name() == "none"]. *)
Definition releasable (g : ExpressionGraph) (v : Expr) : bool :=
  Z.eqb (edges_ (node g v)) 0 && String.eqb (name_ (node g v)) "none".

(** The body of the loop of [backward(fake)]. *)
Definition backward_step (fake : bool) (g : ExpressionGraph) (v : Expr) : ExpressionGraph :=
  let g := backward_visit fake g v in
  if releasable g v then free fake v g else g.

(** The loop of [backward(fake)] over [nodes_.rbegin() .. nodes_.rend()]. *)
Definition backward_loop (fake : bool) (l : list Expr) (g : ExpressionGraph) : ExpressionGraph :=
  fold_left (backward_step fake) (rev l) g.

(** What [backward(fake)] does before the loop. *)
Definition backward_seed (fake : bool) (g : ExpressionGraph) : ExpressionGraph :=
  let g := Parameters_allocateBackward fake g in
  let g := Parameters_set_zero_adjoint fake g in
  fold_left (fun g v => init_dependent fake v g) (elements (topNodes_ g)) g.

(** [backward(fake)] *)
Definition backward (fake : bool) (g : ExpressionGraph) : Result ExpressionGraph :=
  if bool_decide (1 < size (topNodes_ g))%nat
  then Throw TopNodesException g
  else let g := backward_seed fake g in
       Ok (backward_loop fake (nodes_ g) g).

(** [backprop] *)
Definition backprop (g : ExpressionGraph) : Result ExpressionGraph :=
  backward false (snd (forward false g)).

(** *** Saving and loading the parameters *)

(** An array of an [.npz] archive: its dimensions and its elements. *)
Record NpyArray := mkNpy { npy_shape : list Z; npy_data : list float }.

(** The conversions between the [int] extents of a shape and the [unsigned]
    dimensions of an array. *)
Definition to_unsigned (z : Z) : Z := z mod 2 ^ 32.
Definition to_int (z : Z) : Z := if Z.ltb (z mod 2 ^ 32) (2 ^ 31) then z mod 2 ^ 32
                                 else z mod 2 ^ 32 - 2 ^ 32.

(** Modelled from the spec: [cnpy::npz_save] ([3rd_party/cnpy]) is not part of the
    sources at hand; it stores "one named ... float array per parameter": the
    dimensions and as many elements as they span. *)
Definition npz_save (data : list float) (shape : list Z) : NpyArray :=
  mkNpy shape (take (Z.to_nat (fold_right Z.mul 1 shape)) data).

(** [p.second->val() >> v] *)
Definition tensor_values (t : Tensor) : list float :=
  match t with
  | Some b => data_ b
  | None => []
  end.

(** The body of the loop of [save]. *)
Definition save_param (g : ExpressionGraph) (p : Expr) : NpyArray :=
  let v := tensor_values (val_ (node g p)) in
  let s := shape_ (node g p) in
  if Z.eqb (shape_at s 0) 1
  then npz_save v [to_unsigned (shape_at s 1)]
  else npz_save v [to_unsigned (shape_at s 0); to_unsigned (shape_at s 1)].

(** [save]: the archive written, one array per parameter name. *)
Definition save (g : ExpressionGraph) : gmap string NpyArray :=
  save_param g <$> params_ g.

(** The shape [load] makes of the dimensions of an array. *)
Definition load_shape (dims : list Z) : Shape :=
  match dims with
  | [r; c] => shape_set 1 (to_int c) (shape_set 0 (to_int r) Shape_default)
  | [n] => shape_set 1 (to_int n) (shape_set 0 1 Shape_default)
  | _ => Shape_default
  end.

(** The archive that [cnpy::npz_load] returns is a [std::map] from names to
    arrays: a loop over it goes through the arrays in the order of their
    names. *)
Definition npz_arrays (archive : gmap string NpyArray) : list (string * NpyArray) :=
  @merge_sort _ (fun a b => String.leb (fst a) (fst b) = true)
     (fun a b => decide (String.leb (fst a) (fst b) = true)) (map_to_list archive).

(** [load]: [param(name, shape, init=inits::from_numpy(array))] for every
    array of the archive, in the order of the names. *)
Definition load (archive : gmap string NpyArray) (g : ExpressionGraph)
  : Result ExpressionGraph :=
  fold_left (fun r '(name, a) =>
               match r with
               | Ok g =>
                 match param name (load_shape (npy_shape a)) true (Some (npy_data a)) g with
                 | Ok (_, g) => Ok g
                 | Throw ex g => Throw ex g
                 end
               | Throw ex g => Throw ex g
               end) (npz_arrays archive) (Ok g).
End model.

Arguments Ok {_ A} _.
Arguments Throw {_ A} _ _.

(** ** Graphs built by the constructors *)

(** One generation of a graph: starting from a new graph, nodes are
    constructed over operands that are in the graph, and parameters are created
    under names that are not parameters yet. *)
Inductive Built `{!Backend} : ExpressionGraph -> Prop :=
| Built_new : Built ExpressionGraph_new
| Built_Expression c g e g' :
    Built g ->
    Forall (fun a => In a (nodes_ g)) (ctor_children c) ->
    Expression c g = Ok (e, g') ->
    Built g'
| Built_param name shape trainable init g p g' :
    Built g ->
    Parameters_get name g = None ->
    param name shape trainable init g = Ok (p, g') ->
    Built g'.

(** The number of edge slots that visiting [v] takes from the node at address
    [q]: one per child of [v] if [v] is that node, and one per occurrence of
    that node among the children of [v]. *)
Definition slots (v : Expr) (q : nat) : Z :=
  (if decide (ptr v = q) then Z.of_nat (length (children v)) else 0)
  + Z.of_nat (length (filter (fun c => ptr c = q) (children v))).

(** The slots the nodes of a list take from the node at [q]. *)
Definition degree (l : list Expr) (q : nat) : Z :=
  fold_right (fun v acc => slots v q + acc) 0 l.

(** The operations of [ops] that [runBackward] runs when it starts counting
    at [i]: those whose position is that of a trainable child. *)
Fixpoint paired_from `{!Backend} (e : Expr) (st : Store) (i : nat) (ops : NodeOps) : NodeOps :=
  match ops with
  | [] => []
  | op :: ops =>
    match children e !! i with
    | Some child => if trainable_ (st (ptr child)) then [op] else []
    | None => []
    end ++ paired_from e st (S i) ops
  end.

Definition paired_ops `{!Backend} (e : Expr) (st : Store) (ops : NodeOps) : NodeOps :=
  paired_from e st 0 ops.

(** ** A backend to compute with *)

(** Integer "floats", kernels that add their first input to the output
    ([Add]) or copy it ([Element] and the others), and small hash functions. *)
Definition demo_accumulate (t u : TensorBase Z) : TensorBase Z :=
  mkTensor (zip_with Z.add (data_ t) (data_ u)) (tshape_ t).

Definition demo_term (f : Functor) (ins : list (option (TensorBase Z))) : TensorBase Z :=
  match ins with
  | Some t :: _ => t
  | _ => mkTensor [] Shape_default
  end.

Definition demo_kernel (k : Kernel) (out : option (TensorBase Z))
  (ins : list (option (TensorBase Z))) : option (TensorBase Z) :=
  match k, out with
  | Add f, Some t => Some (demo_accumulate t (demo_term f ins))
  | Add _, None => None
  | _, Some t => Some (mkTensor (data_ (demo_term (Arg 1) ins)) (tshape_ t))
  | _, None => None
  end.

Definition demo_hash_string (s : string) : Z := Z.of_nat (String.length s) + 1.

Definition demo : Backend :=
  {| float := Z;
     fzero := 0;
     fone := 1;
     arena := fun s => repeat 0 (Z.to_nat (elements_of s));
     kernel := demo_kernel;
     hash_string := demo_hash_string;
     hash_value := fun z => z;
     hash_mix := fun seed v => wrap (seed * 31 + v + 1);
     leaf_hash := fun p => Z.of_nat p + 1000 |}.

(** The result of a call that returns. *)
Definition returned `{!Backend} {A : Type} (r : Result A) (d : A) : A :=
  match r with
  | Ok a => a
  | Throw _ _ => d
  end.

(** Handles of the example graphs, in the order of construction. *)
Definition ex_w : Expr := mkExpr 0 (Leaf ParamNode) [].
Definition ex_f : Expr := mkExpr 1 (Op TanhNodeOp) [ex_w].
Definition ex_g : Expr := mkExpr 2 (Op ExpNodeOp) [ex_w].
Definition ex_y : Expr := mkExpr 3 (Op TanhNodeOp) [ex_f; ex_g].

Definition ex_shape : Shape := mkShape 1 2 1 1.

(** [y = tanh(tanh(w) + exp(w))] over the parameter ["w"]: the node of [w] is
    consumed by the two parents [ex_f] and [ex_g]. *)
Definition ex_graph0 : @ExpressionGraph demo := ExpressionGraph_new (H := demo).
Definition ex_graph1 : @ExpressionGraph demo :=
  snd (returned (param (H := demo) "w" ex_shape true (Some [3; 4]) ex_graph0) (ex_w, ex_graph0)).
Definition ex_graph2 : @ExpressionGraph demo :=
  snd (returned (Expression (H := demo) (NewTanh ex_w []) ex_graph1) (ex_w, ex_graph1)).
Definition ex_graph3 : @ExpressionGraph demo :=
  snd (returned (Expression (H := demo) (NewExp ex_w) ex_graph2) (ex_w, ex_graph2)).
Definition ex_graph : @ExpressionGraph demo :=
  snd (returned (Expression (H := demo) (NewTanh ex_f [ex_g]) ex_graph3) (ex_w, ex_graph3)).


(** The example graph after its forward pass. *)
Definition ex_forwarded : @ExpressionGraph demo := snd (forward (H := demo) false ex_graph).

(** A call that returns. *)
Definition is_Ok `{!Backend} {A : Type} (r : Result A) : bool :=
  match r with
  | Ok _ => true
  | Throw _ _ => false
  end.

(** The example graph with the node of [ex_f] registered under a name that is
    no parameter. *)
Definition ex_named : @ExpressionGraph demo :=
  returned (add_named_node (H := demo) ex_f "f" ex_graph) ex_graph.

(** [y = tanh(exp(x) + (-x))] over an input [x] that has no name. *)
Definition ex_x : Expr := mkExpr 0 (Leaf InputNode) [].
Definition ex_p : Expr := mkExpr 1 (Op ExpNodeOp) [ex_x].
Definition ex_q : Expr := mkExpr 2 (Op NegNodeOp) [ex_x].
Definition ex_z : Expr := mkExpr 3 (Op TanhNodeOp) [ex_p; ex_q].

Definition ex_unnamed1 : @ExpressionGraph demo :=
  snd (returned (input (H := demo) ex_shape true (Some [3; 4]) ex_graph0) (ex_x, ex_graph0)).
Definition ex_unnamed2 : @ExpressionGraph demo :=
  snd (returned (Expression (H := demo) (NewExp ex_x) ex_unnamed1) (ex_x, ex_unnamed1)).
Definition ex_unnamed3 : @ExpressionGraph demo :=
  snd (returned (Expression (H := demo) (NewNeg ex_x) ex_unnamed2) (ex_x, ex_unnamed2)).
Definition ex_unnamed : @ExpressionGraph demo :=
  snd (returned (Expression (H := demo) (NewTanh ex_p [ex_q]) ex_unnamed3) (ex_x, ex_unnamed3)).

(** A parameter of shape [(2, 3, 4, 1)], after the forward pass. *)
Definition ex_cube_shape : Shape := mkShape 2 3 4 1.
Definition ex_cube_values : list Z := map Z.of_nat (seq 1 24).
Definition ex_cube : @ExpressionGraph demo :=
  snd (forward (H := demo) false
         (snd (returned (param (H := demo) "t" ex_cube_shape true (Some ex_cube_values)
                           ex_graph0) (ex_w, ex_graph0)))).

(** A parameter that is not trainable, alone in its graph, after the forward
    pass. *)
Definition ex_frozen : @ExpressionGraph demo :=
  snd (forward (H := demo) false
         (snd (returned (param (H := demo) "c" ex_shape false (Some [3; 4]) ex_graph0)
                        (ex_w, ex_graph0)))).

(** [y = tanh(w + c)] over the parameter ["w"] and a constant [c], after the
    forward pass. *)
Definition ex_c : Expr := mkExpr 1 (Leaf ConstantNode) [].
Definition ex_s : Expr := mkExpr 2 (Op TanhNodeOp) [ex_w; ex_c].
Definition ex_mixed : @ExpressionGraph demo :=
  let g := snd (returned (constant (H := demo) ex_shape false (Some [5; 6]) ex_graph1)
                         (ex_w, ex_graph1)) in
  snd (forward (H := demo) false
         (snd (returned (Expression (H := demo) (NewTanh ex_w [ex_c]) g) (ex_w, g)))).

(** The second generation of the example graph: after a forward pass and no
    backward pass the graph is cleared, the parameter ["w"] is attached again
    and [-w] is constructed over it. *)
Definition ex_cleared : @ExpressionGraph demo := clear (H := demo) ex_forwarded.
Definition ex_v : Expr := mkExpr 4 (Op NegNodeOp) [ex_w].
Definition ex_second1 : @ExpressionGraph demo :=
  snd (returned (param (H := demo) "w" ex_shape true None ex_cleared) (ex_w, ex_cleared)).
Definition ex_second : @ExpressionGraph demo :=
  snd (returned (Expression (H := demo) (NewNeg ex_w) ex_second1) (ex_w, ex_second1)).

(** [-f] constructed after [clear] over the handle [ex_f] of the generation
    before, which is not attached again. *)
Definition ex_u : Expr := mkExpr 4 (Op NegNodeOp) [ex_f].
Definition ex_kept : @ExpressionGraph demo :=
  snd (returned (Expression (H := demo) (NewNeg ex_f) ex_cleared) (ex_w, ex_cleared)).

(** The example graph after its forward pass, with [ex_y] taken out of the
    top nodes by [remove_top_node]. *)
Definition ex_no_top : @ExpressionGraph demo := remove_top_node (H := demo) ex_y ex_forwarded.

(** [tanh(n)] over a parameter created under the name ["none"], and
    registered under the name ["out"] by [add_named_node]. *)
Definition ex_sentinel1 : @ExpressionGraph demo :=
  snd (returned (param (H := demo) "none" ex_shape true (Some [3; 4]) ex_graph0)
                (ex_w, ex_graph0)).
Definition ex_sentinel2 : @ExpressionGraph demo :=
  snd (returned (Expression (H := demo) (NewTanh ex_w []) ex_sentinel1) (ex_w, ex_sentinel1)).
Definition ex_sentinel : @ExpressionGraph demo :=
  returned (add_named_node (H := demo) ex_f "out" ex_sentinel2) ex_sentinel2.

(** [y = tanh(tanh(x + x) + (-x))] over an input [x] that has no name, after
    the forward pass: [x] stands twice among the children of [ex_t]. *)
Definition ex_t : Expr := mkExpr 1 (Op TanhNodeOp) [ex_x; ex_x].
Definition ex_r : Expr := mkExpr 3 (Op TanhNodeOp) [ex_t; ex_q].
Definition ex_twice2 : @ExpressionGraph demo :=
  snd (returned (Expression (H := demo) (NewTanh ex_x [ex_x]) ex_unnamed1) (ex_x, ex_unnamed1)).
Definition ex_twice3 : @ExpressionGraph demo :=
  snd (returned (Expression (H := demo) (NewNeg ex_x) ex_twice2) (ex_x, ex_twice2)).
Definition ex_twice : @ExpressionGraph demo :=
  snd (forward (H := demo) false
         (snd (returned (Expression (H := demo) (NewTanh ex_t [ex_q]) ex_twice3)
                        (ex_x, ex_twice3)))).


(** ** Frames *)

(** A node with the members the passes write ([edges_], [val_], [adj_])
    blanked: two nodes that agree on it differ in those members only. *)
Definition blank `{!Backend} (n : Node) : Node := set_edges 0 (set_val None (set_adj None n)).

Definition store_frame `{!Backend} (st st' : Store) : Prop :=
  forall q, blank (st' q) = blank (st q).

Definition pass_frame `{!Backend} (g g' : ExpressionGraph) : Prop :=
  store_frame (store_ g) (store_ g').

(** The step of the loop over the children in [NaryNodeOp::hash]. *)
Definition hash_child `{!Backend} (acc : Z * Store) (child : Expr) : Z * Store :=
  let '(seed, st) := acc in
  let '(h, st) := hash child st in
  (hash_combine seed (hash_value h), st).

(** What [SoftmaxNodeOp::hash] adds to [NaryNodeOp::hash]. *)
Definition hash_own `{!Backend} (o : OpType) (p : nat) (ch : list Expr) (seed : Z) (st : Store)
  : Z * Store :=
  match o with
  | SoftmaxNodeOp =>
    match ch with
    | [_; m] =>
      let '(hm, st) := hash m st in
      let h := hash_combine seed (hash_value hm) in
      (h, upd p (set_hash h) st)
    | _ => (seed, st)
    end
  | _ => (seed, st)
  end.

(** A node with its tensors blanked: two nodes that agree on it differ in
    [val_] and [adj_] only. *)
Definition vblank `{!Backend} (n : Node) : Node := set_val None (set_adj None n).

Definition value_frame `{!Backend} (st st' : Store) : Prop :=
  forall q, vblank (st' q) = vblank (st q).

(** The occurrences of the address [q] among the handles of a list. *)
Definition hits (ch : list Expr) (q : nat) : Z :=
  Z.of_nat (length (filter (fun c => ptr c = q) ch)).

(** [slots] over a part [ch] of the children of [v]. *)
Definition occ (v : Expr) (ch : list Expr) (q : nat) : Z :=
  (if decide (ptr v = q) then Z.of_nat (length ch) else 0) + hits ch q.

(** What holds of every graph built by the constructors: [count_] is the
    length of the node list, the node at position [i] has id [i], addresses in
    the graph are below the next free one, the children of a node stand before
    it in the node list, no node stands twice in it, and the edge count of a
    node is twice the number of its slots. *)
Record built_inv `{!Backend} (g : ExpressionGraph) : Prop := mk_built_inv {
  inv_count : count_ g = wrap (Z.of_nat (length (nodes_ g)));
  inv_ids : forall i v, nodes_ g !! i = Some v -> id_ (node g v) = wrap (Z.of_nat i);
  inv_fresh : forall v, In v (nodes_ g) -> (ptr v < next_ g)%nat;
  inv_children : forall i v c, nodes_ g !! i = Some v -> In c (children v) ->
                               exists j, (j < i)%nat /\ nodes_ g !! j = Some c;
  inv_nodup : NoDup (map ptr (nodes_ g));
  inv_edges : forall q, edges_ (store_ g q) = wrap (2 * degree (nodes_ g) q) }.

(** What [set_zero_adjoint] makes of a node. *)
Definition zeroed `{!Backend} (fake : bool) (n : Node) : Node :=
  match adj_ n with
  | Some _ => n
  | None => set_adj (Some (if fake then tensor_fresh (shape_ n)
                           else tensor_filled fzero (shape_ n))) n
  end.

(** The handles reachable from a handle, itself included. *)
Fixpoint subterms (e : Expr) : list Expr :=
  match e with
  | mkExpr _ _ ch => e :: flat_map subterms ch
  end.

Fixpoint size_of (e : Expr) : nat :=
  match e with
  | mkExpr _ _ ch => S (fold_right (fun c n => (size_of c + n)%nat) 0%nat ch)
  end.

(** An address stands for one node: two handles of [U] with the same address
    are the same handle. *)
Definition coherent (U : Expr -> Prop) : Prop :=
  forall t1 t2, U t1 -> U t2 -> ptr t1 = ptr t2 -> t1 = t2.

(** [st'] is [st] with more memos filled in: on the nodes of [U] the names
    are those of [st], a memo of [st] is kept, and an empty memo of [st] is
    empty or holds the hash computed in [st]. *)
Definition memo_ext `{!Backend} (U : Expr -> Prop) (st st' : Store) : Prop :=
  forall t, U t ->
    name_ (st' (ptr t)) = name_ (st (ptr t)) /\
    (hash_ (st (ptr t)) <> 0 -> hash_ (st' (ptr t)) = hash_ (st (ptr t))) /\
    (hash_ (st (ptr t)) = 0 ->
     hash_ (st' (ptr t)) = 0 \/ hash_ (st' (ptr t)) = fst (hash t st)).

(** The hash of a node with an empty memo, named [nm], of class [o] and with
    children [ch], as a function of the hashes of the children in [st]. *)
Definition hash_of_children `{!Backend} (nm : string) (o : OpType) (ch : list Expr) (st : Store)
  : Z :=
  let seed := fold_left (fun s c => hash_combine s (hash_value (fst (hash c st)))) ch
                        (hash_combine (hash_string nm) (hash_string (type o))) in
  match o, ch with
  | SoftmaxNodeOp, [_; m] => hash_combine seed (hash_value (fst (hash m st)))
  | _, _ => seed
  end.

(** A node with [id_] and [edges_] blanked: what [add] does not write. *)
Definition iblank `{!Backend} (n : Node) : Node := set_id 0 (set_edges 0 n).

(** The handles reachable from the operands of a constructor call. *)
Definition operands `{!Backend} (c : Ctor) (u : Expr) : Prop :=
  exists a, In a (ctor_children c) /\ In u (subterms a).

(** ** Notions the properties are stated with *)

Section notions.
Context `{!Backend}.

(** Every member of the graph but the node objects and the released handles. *)
Definition same_tables (g g' : ExpressionGraph) : Prop :=
  count_ g' = count_ g /\ nodes_ g' = nodes_ g /\ tapes_ g' = tapes_ g /\
  tapeMap_ g' = tapeMap_ g /\ named_ g' = named_ g /\ inputs_ g' = inputs_ g /\
  topNodes_ g' = topNodes_ g /\ params_ g' = params_ g /\ hashMap_ g' = hashMap_ g /\
  next_ g' = next_ g.

(** Two stores that differ in the memos of the hashes only. *)
Definition hash_frame (st st' : Store) : Prop :=
  forall q, set_hash 0 (st' q) = set_hash 0 (st q).

(** The members that the loop over the children in [add] leaves alone. *)
Definition same_but_levels (g g' : ExpressionGraph) : Prop :=
  count_ g' = count_ g /\ nodes_ g' = nodes_ g /\ tapes_ g' = tapes_ g /\
  named_ g' = named_ g /\ inputs_ g' = inputs_ g /\ topNodes_ g' = topNodes_ g /\
  params_ g' = params_ g /\ hashMap_ g' = hashMap_ g /\ next_ g' = next_ g /\
  released_ g' = released_ g.

(** The graph handed to [add] by [Expression]. *)
Definition constructed (c : Ctor) (shape : Shape) (g : ExpressionGraph) : ExpressionGraph :=
  let g := set_next (S (next_ g))
             (on_node (next_ g)
                (fun _ => Node_new shape (ctor_trainable c g) (ctor_init c)) g) in
  match ctor_type c with
  | Op _ => remove_children_from_top_nodes (ctor_children c) g
  | Leaf _ => g
  end.

(** The loop of [runBackward] started at position [i]. *)
Definition runBackward_from (e : Expr) (ops : NodeOps) (i : nat) (st : Store) : Store :=
  snd (fold_left (fun acc op =>
                    let '(i, st) := acc in
                    (S i, match children e !! i with
                          | Some child =>
                            if trainable_ (st (ptr child)) then run_op op st else st
                          | None => st
                          end)) ops (i, st)).

(** No call of the operation writes the tensor [r]. *)
Definition op_spares (r : TRef) (op : NodeOp) : Prop :=
  forall c, In c op -> call_out c <> r.

(** The gradient a parent finds when it reaches the child: the one that is
    there, or zeros. *)
Definition gradient_before (g : ExpressionGraph) (x : Expr) : TensorBase float :=
  match adj_ (node g x) with
  | Some t => t
  | None => tensor_filled fzero (shape_ (node g x))
  end.

(** A two-dimensional parameter shape: [(row, col, 1, 1)] with extents that
    are valid [int] sizes. *)
Definition matrix_shape (s : Shape) : Prop :=
  dim2 s = 1 /\ dim3 s = 1 /\ 0 <= dim0 s < 2 ^ 31 /\ 0 <= dim1 s < 2 ^ 31.

(** While [load] fills a new graph: no node is named, the hash table holds
    hashes of addresses in use, and the parameters are at addresses in use. *)
Definition loading (g : ExpressionGraph) : Prop :=
  named_ g = ∅ /\
  (forall h e, hashMap_ g !! h = Some e -> exists q, (q < next_ g)%nat /\ h = leaf_hash q) /\
  (forall n e, params_ g !! n = Some e -> (ptr e < next_ g)%nat).

(** The loop of [load] over the arrays of an archive. *)
Definition load_arrays (l : list (string * NpyArray)) (r : Result ExpressionGraph)
  : Result ExpressionGraph :=
  fold_left (fun r '(name, a) =>
               match r with
               | Ok g =>
                 match param name (load_shape (npy_shape a)) true (Some (npy_data a)) g with
                 | Ok (_, g) => Ok g
                 | Throw ex g => Throw ex g
                 end
               | Throw ex g => Throw ex g
               end) l r.

(** On the nodes of [U] the stores agree on names and memos. *)
Definition same_memos (U : Expr -> Prop) (st1 st2 : Store) : Prop :=
  forall t, U t -> name_ (st2 (ptr t)) = name_ (st1 (ptr t)) /\
                   hash_ (st2 (ptr t)) = hash_ (st1 (ptr t)).

(** What is to be shown of every handle: in a store that extends [st], the
    hash is the one computed in [st], and the store it leaves extends [st]. *)
Definition hash_stable (c : Expr) : Prop :=
  forall U st st', coherent U -> (forall u, In u (subterms c) -> U u) ->
    memo_ext U st st' ->
    fst (hash c st') = fst (hash c st) /\ memo_ext U st (snd (hash c st')).

End notions.


(** ** Shapes that broadcast *)

(** Every extent is at least one. *)
Definition positive_shape (s : Shape) : Prop :=
  1 <= dim0 s /\ 1 <= dim1 s /\ 1 <= dim2 s /\ 1 <= dim3 s.

(** [sn] broadcasts to [s]: every extent of [sn] is that of [s], or is one. *)
Definition broadcasts_to (sn s : Shape) : Prop :=
  (dim0 sn = dim0 s \/ dim0 sn = 1) /\ (dim1 sn = dim1 s \/ dim1 sn = 1) /\
  (dim2 sn = dim2 s \/ dim2 sn = 1) /\ (dim3 sn = dim3 s \/ dim3 sn = 1).

(** The test and the new extent of one step of the inner loop of
    [TanhNodeOp::newShape]. *)
Definition broadcast_extent (a n : Z) : option Z :=
  if negb (Z.eqb a n) && negb (Z.eqb a 1) && negb (Z.eqb n 1) then None else Some (Z.max a n).

(** The inner loop of [TanhNodeOp::newShape]. *)
Definition broadcast (acc : option Shape) (sn : Shape) : option Shape :=
  fold_left (broadcast_dim sn) [0; 1; 2; 3] acc.


(** ** Graphs reached through the interface *)

(** The graphs a user of [ExpressionGraph] can reach: from a new graph by
    constructing nodes, inputs and parameters, naming nodes, running the
    passes and clearing. *)
Inductive Reachable `{!Backend} : ExpressionGraph -> Prop :=
| Reachable_new : Reachable ExpressionGraph_new
| Reachable_Expression c g e g' :
    Reachable g -> Expression c g = Ok (e, g') -> Reachable g'
| Reachable_input shape trainable init g e g' :
    Reachable g -> input shape trainable init g = Ok (e, g') -> Reachable g'
| Reachable_param name shape trainable init g p g' :
    Reachable g -> param name shape trainable init g = Ok (p, g') -> Reachable g'
| Reachable_named e name g g' :
    Reachable g -> add_named_node e name g = Ok g' -> Reachable g'
| Reachable_clear g :
    Reachable g -> Reachable (clear g)
| Reachable_forward fake g :
    Reachable g -> Reachable (snd (forward fake g))
| Reachable_backward fake g g' :
    Reachable g -> backward fake g = Ok g' -> Reachable g'.


(** ** Tapes *)

(** The tapes sort the nodes of the list by level: every node of the list has
    a level in [tapeMap_], smaller than the number of nodes, and stands in the
    tape of that level; the level of every child is below that of the node;
    the level is zero, or one more than the level of a child; and the members
    of the tape at position [i] are nodes of the list of level [i]. *)
Definition levelled `{!Backend} (g : ExpressionGraph) : Prop :=
  (forall v, In v (nodes_ g) ->
     exists l t,
       tapeMap_ g !! ptr v = Some l /\ 0 <= l < Z.of_nat (length (nodes_ g)) /\
       tapes_ g !! Z.to_nat l = Some t /\ In v t /\
       (forall c, In c (children v) -> exists lc, tapeMap_ g !! ptr c = Some lc /\ lc < l) /\
       (l = 0 \/
        exists c lc, In c (children v) /\ tapeMap_ g !! ptr c = Some lc /\ l = lc + 1)) /\
  (forall i t u, tapes_ g !! i = Some t -> In u t ->
     In u (nodes_ g) /\ tapeMap_ g !! ptr u = Some (Z.of_nat i)).


(** ** The workspace *)

(** [reserveWorkspaceMB(num)]: the number of elements it asks the allocator
    to reserve, [num * 1024 * 1024 / 4 - 1] in [size_t] arithmetic. *)
Definition reserveWorkspaceMB (num : Z) : Z :=
  wrap (wrap (wrap (num * 1024) * 1024) / 4 - 1).

(** [reservedWorkspaceMB()]: [(peak * 4) / (1024 * 1024)] for the peak number
    of elements that the allocator reports. *)
Definition reservedWorkspaceMB (peak : Z) : Z := wrap (peak * 4) / (1024 * 1024).

(** ** What a node takes from its children *)

(** The members that the constructor of a node of one of the operator
    classes modelled here computes from its children: [trainable_] is the
    disjunction of the children's flags, and [shape_] is the shape of the
    first child, or for [TanhNodeOp] the broadcast of the children's
    shapes. *)
Definition inherits `{!Backend} (g : ExpressionGraph) (v : Expr) : Prop :=
  exists a rest,
    children v = a :: rest /\
    trainable_ (node g v) = existsb (fun c => trainable_ (node g c)) (children v) /\
    match node_type v with
    | Op TanhNodeOp => Tanh_newShape g a rest = Some (shape_ (node g v))
    | _ => shape_ (node g v) = shape_ (node g a)
    end.

(** ** Places of a node among the children of another *)

(** The number of times the node at address [q] stands among the handles of
    a list. *)
Definition occurrences (ch : list Expr) (q : nat) : nat :=
  length (filter (fun c => ptr c = q) ch).

(** ** Graphs grown over the node list *)

(** A source node: a handle of a class without operands. *)
Definition is_source (e : Expr) : Prop :=
  exists l, node_type e = Leaf l /\ children e = [].

(** The graphs reached from a new graph through the interface (the node
    constructors, [input], [param], [add_named_node], [remove_top_node],
    [clear] and the two passes), over any number of generations, when every
    node is constructed over operands that are in the node list at the time,
    and a parameter that [param] attaches again is a source node. *)
Inductive Grown `{!Backend} : ExpressionGraph -> Prop :=
| Grown_new : Grown ExpressionGraph_new
| Grown_Expression c g e g' :
    Grown g ->
    Forall (fun a => In a (nodes_ g)) (ctor_children c) ->
    Expression c g = Ok (e, g') ->
    Grown g'
| Grown_input shape trainable init g e g' :
    Grown g -> input shape trainable init g = Ok (e, g') -> Grown g'
| Grown_param name shape trainable init g p g' :
    Grown g ->
    (forall p0, Parameters_get name g = Some p0 -> is_source p0) ->
    param name shape trainable init g = Ok (p, g') ->
    Grown g'
| Grown_named e name g g' :
    Grown g -> add_named_node e name g = Ok g' -> Grown g'
| Grown_remove_top e g :
    Grown g -> Grown (remove_top_node e g)
| Grown_clear g :
    Grown g -> Grown (clear g)
| Grown_forward fake g :
    Grown g -> Grown (snd (forward fake g))
| Grown_backward fake g g' :
    Grown g -> backward fake g = Ok g' -> Grown g'.

(** The handles a graph holds: the nodes of the list, the parameters and the
    entries of the hash table. *)
Definition known `{!Backend} (g : ExpressionGraph) (e : Expr) : Prop :=
  In e (nodes_ g) \/ (exists n, params_ g !! n = Some e) \/ (exists h, hashMap_ g !! h = Some e).

(** What holds of every grown graph: [count_] is the length of the node
    list, the node at position [i] has id [i], the children of a node stand
    before it in the node list, the handles the graph holds are at addresses in
    use, one handle per address, and the source nodes of the list are in the
    hash table. *)
Record grown_inv `{!Backend} (g : ExpressionGraph) : Prop := mk_grown_inv {
  g_count : count_ g = wrap (Z.of_nat (length (nodes_ g)));
  g_ids : forall i v, nodes_ g !! i = Some v -> id_ (node g v) = wrap (Z.of_nat i);
  g_children : forall i v c, nodes_ g !! i = Some v -> In c (children v) ->
                             exists j, (j < i)%nat /\ nodes_ g !! j = Some c;
  g_known : forall e, known g e -> (ptr e < next_ g)%nat;
  g_coherent : coherent (known g);
  g_leaves : forall v l, In v (nodes_ g) -> node_type v = Leaf l ->
                         is_Some (hashMap_ g !! leaf_hash (ptr v)) }.

(** ** Graphs whose generations were run to the end *)


(** ** Properties *)

Section proofs.
Context `{!Backend}.

(** *** The store and the tables *)

Lemma upd_same (p : nat) (f : Node -> Node) (st : Store) : upd p f st p = f (st p).
Proof. unfold upd. destruct (decide (p = p)); congruence. Qed.

Lemma upd_other (p q : nat) (f : Node -> Node) (st : Store) : q <> p -> upd p f st q = st q.
Proof. intros Hne. unfold upd. destruct (decide (q = p)); congruence. Qed.

Lemma store_on_node (p q : nat) (f : Node -> Node) (g : ExpressionGraph) :
  store_ (on_node p f g) q = if decide (q = p) then f (store_ g q) else store_ g q.
Proof. reflexivity. Qed.

Lemma same_tables_refl (g : ExpressionGraph) : same_tables g g.
Proof. repeat split. Qed.

Lemma same_tables_trans (g1 g2 g3 : ExpressionGraph) :
  same_tables g1 g2 -> same_tables g2 g3 -> same_tables g1 g3.
Proof. unfold same_tables. intuition congruence. Qed.

Lemma same_tables_on_node (p : nat) (f : Node -> Node) (g : ExpressionGraph) :
  same_tables g (on_node p f g).
Proof. repeat split. Qed.

Lemma same_tables_set_store (st : Store) (g : ExpressionGraph) : same_tables g (set_store st g).
Proof. repeat split. Qed.

Lemma same_tables_free (fake : bool) (e : Expr) (g : ExpressionGraph) :
  same_tables g (free fake e g).
Proof. repeat split. Qed.

Lemma same_tables_fold {A : Type} (f : ExpressionGraph -> A -> ExpressionGraph) (l : list A) :
  (forall g a, same_tables g (f g a)) ->
  forall g, same_tables g (fold_left f l g).
Proof.
  intros Hf. induction l as [|a l IH]; intros g; simpl.
  - apply same_tables_refl.
  - eapply same_tables_trans; [apply Hf | apply IH].
Qed.

Lemma same_tables_allocateBackward (fake : bool) (g : ExpressionGraph) :
  same_tables g (Parameters_allocateBackward fake g).
Proof.
  unfold Parameters_allocateBackward.
  generalize (Parameters_list g). intros l.
  apply same_tables_fold. intros; apply same_tables_on_node.
Qed.

Lemma same_tables_params_zero (fake : bool) (g : ExpressionGraph) :
  same_tables g (Parameters_set_zero_adjoint fake g).
Proof.
  unfold Parameters_set_zero_adjoint.
  generalize (Parameters_list g). intros l.
  apply same_tables_fold. intros; apply same_tables_on_node.
Qed.

Lemma same_tables_release_edges (v : Expr) (g : ExpressionGraph) :
  same_tables g (release_edges v g).
Proof.
  unfold release_edges. apply same_tables_fold. intros g0 a.
  eapply same_tables_trans; apply same_tables_on_node.
Qed.

Lemma same_tables_node_backward (fake : bool) (v : Expr) (g : ExpressionGraph) :
  same_tables g (node_backward fake v g).
Proof.
  unfold node_backward. destruct fake; [apply same_tables_refl | apply same_tables_set_store].
Qed.

Lemma same_tables_backward_visit (fake : bool) (g : ExpressionGraph) (v : Expr) :
  same_tables g (backward_visit fake g v).
Proof.
  unfold backward_visit.
  set (g1 := zero_children fake (children v) g).
  assert (H1 : same_tables g g1).
  { apply same_tables_fold. intros g0 a.
    destruct (trainable_ (node g0 a)); [apply same_tables_on_node | apply same_tables_refl]. }
  set (g2 := if trainable_ (node g1 v) then _ else _).
  assert (H2 : same_tables g1 g2).
  { subst g2. destruct (trainable_ (node g1 v));
      [apply same_tables_node_backward | apply same_tables_refl]. }
  eapply same_tables_trans; [exact H1|]. eapply same_tables_trans; [exact H2|].
  apply same_tables_release_edges.
Qed.

Lemma same_tables_backward_step (fake : bool) (g : ExpressionGraph) (v : Expr) :
  same_tables g (backward_step fake g v).
Proof.
  unfold backward_step. destruct (releasable _ _).
  - eapply same_tables_trans; [apply same_tables_backward_visit | apply same_tables_free].
  - apply same_tables_backward_visit.
Qed.

Lemma same_tables_backward_loop (fake : bool) (l : list Expr) (g : ExpressionGraph) :
  same_tables g (backward_loop fake l g).
Proof. unfold backward_loop. apply same_tables_fold. apply same_tables_backward_step. Qed.

Lemma same_tables_backward_seed (fake : bool) (g : ExpressionGraph) :
  same_tables g (backward_seed fake g).
Proof.
  unfold backward_seed.
  eapply same_tables_trans; [apply same_tables_allocateBackward|].
  eapply same_tables_trans; [apply same_tables_params_zero|].
  apply same_tables_fold. intros; apply same_tables_on_node.
Qed.

(** *** The single-root check of the backward pass *)


(** *** Induction on handles *)

Lemma Expr_ind' (P : Expr -> Prop) :
  (forall p ty ch, Forall P ch -> P (mkExpr p ty ch)) -> forall e, P e.
Proof.
  intros HP. fix IH 1. intros [p ty ch]. apply HP.
  induction ch as [|c ch IHch]; constructor; [apply IH | exact IHch].
Qed.

(** *** Hashing writes the memo only *)

Lemma hash_eq (p : nat) (o : OpType) (ch : list Expr) (st : Store) :
  hash (mkExpr p (Op o) ch) st =
  if Z.eqb (hash_ (st p)) 0
  then let '(seed, st1) :=
         fold_left hash_child ch
                   (hash_combine (hash_string (name_ (st p))) (hash_string (type o)), st) in
       hash_own o p ch seed (upd p (set_hash seed) st1)
  else (hash_ (st p), st).
Proof.
  destruct o; reflexivity.
Qed.

Lemma hash_frame_refl (st : Store) : hash_frame st st.
Proof. intros q. reflexivity. Qed.

Lemma hash_frame_trans (st1 st2 st3 : Store) :
  hash_frame st1 st2 -> hash_frame st2 st3 -> hash_frame st1 st3.
Proof. intros H1 H2 q. rewrite H2. apply H1. Qed.

Lemma hash_frame_upd (p : nat) (h : Z) (st : Store) : hash_frame st (upd p (set_hash h) st).
Proof. intros q. unfold upd. destruct (decide (q = p)); reflexivity. Qed.

Lemma hash_frame_children (ch : list Expr) :
  Forall (fun c => forall st, hash_frame st (snd (hash c st))) ch ->
  forall seed st, hash_frame st (snd (fold_left hash_child ch (seed, st))).
Proof.
  induction 1 as [|c ch Hc _ IH]; intros seed st; simpl.
  - apply hash_frame_refl.
  - specialize (Hc st). destruct (hash c st) as [h st1]. simpl in Hc.
    eapply hash_frame_trans; [exact Hc | apply IH].
Qed.

Lemma hash_writes_memo_only (e : Expr) (st : Store) : hash_frame st (snd (hash e st)).
Proof.
  revert st. induction e as [p ty ch IH] using Expr_ind'. intros st.
  destruct ty as [l|o]; [apply hash_frame_refl|].
  rewrite hash_eq. destruct (Z.eqb (hash_ (st p)) 0); [|apply hash_frame_refl].
  pose proof (hash_frame_children ch IH
                (hash_combine (hash_string (name_ (st p))) (hash_string (type o))) st) as Hch.
  destruct (fold_left hash_child ch _) as [seed st1]. simpl in Hch.
  assert (Hupd : hash_frame st (upd p (set_hash seed) st1)).
  { eapply hash_frame_trans; [exact Hch | apply hash_frame_upd]. }
  unfold hash_own. destruct o; try exact Hupd.
  destruct ch as [|c0 [|m [|c2 ch]]]; try exact Hupd.
  inversion IH as [|? ? _ IH1]; subst. inversion IH1 as [|? ? Hm _]; subst.
  specialize (Hm (upd p (set_hash seed) st1)).
  destruct (hash m _) as [hm st2]. simpl in *.
  eapply hash_frame_trans; [exact Hupd|].
  eapply hash_frame_trans; [exact Hm | apply hash_frame_upd].
Qed.

Lemma hash_frame_edges (st st' : Store) (q : nat) :
  hash_frame st st' -> edges_ (st' q) = edges_ (st q).
Proof. intros Hf. exact (f_equal edges_ (Hf q)). Qed.

Lemma hash_frame_id (st st' : Store) (q : nat) :
  hash_frame st st' -> id_ (st' q) = id_ (st q).
Proof. intros Hf. exact (f_equal id_ (Hf q)). Qed.

Lemma hash_frame_name (st st' : Store) (q : nat) :
  hash_frame st st' -> name_ (st' q) = name_ (st q).
Proof. intros Hf. exact (f_equal name_ (Hf q)). Qed.

(** *** What [add] changes *)

Lemma add_hit (n e : Expr) (g : ExpressionGraph) :
  hashMap_ g !! fst (hash n (store_ g)) = Some e ->
  add n g = (e, set_store (snd (hash n (store_ g))) g).
Proof.
  intros Hhit. unfold add. destruct (hash n (store_ g)) as [h st]. simpl in *.
  rewrite Hhit. reflexivity.
Qed.

Lemma add_miss (n : Expr) (g : ExpressionGraph) :
  hashMap_ g !! fst (hash n (store_ g)) = None ->
  add n g = (n, add_new (fst (hash n (store_ g))) n (set_store (snd (hash n (store_ g))) g)).
Proof.
  intros Hmiss. unfold add. destruct (hash n (store_ g)) as [h st]. simpl in *.
  rewrite Hmiss. reflexivity.
Qed.

Lemma add_children_tables (n : Expr) (ch : list Expr) (group : Z) (g : ExpressionGraph) :
  same_but_levels g (snd (fold_left (add_child n) ch (group, g))).
Proof.
  revert group g. induction ch as [|c ch IH]; intros group g; simpl.
  - repeat split.
  - unfold tapeMap_at.
    destruct (tapeMap_ g !! ptr c) as [l|]; simpl;
      (match goal with |- same_but_levels _ (snd (fold_left _ _ (?grp, ?g1))) =>
         specialize (IH grp g1); unfold same_but_levels in *; simpl in IH; intuition congruence
       end).
Qed.

Lemma add_new_tables (h : Z) (n : Expr) (g : ExpressionGraph) :
  count_ (add_new h n g) = wrap (count_ g + 1) /\
  nodes_ (add_new h n g) = nodes_ g ++ [n] /\
  topNodes_ (add_new h n g) = {[ptr n]} ∪ topNodes_ g /\
  hashMap_ (add_new h n g) = <[h := n]> (hashMap_ g) /\
  named_ (add_new h n g) = named_ g /\ inputs_ (add_new h n g) = inputs_ g /\
  params_ (add_new h n g) = params_ g /\ next_ (add_new h n g) = next_ g /\
  released_ (add_new h n g) = released_ g.
Proof.
  unfold add_new.
  pose proof (add_children_tables n (children n) 0
                (set_count (wrap (count_ (set_hashMap (<[h:=n]> (hashMap_ g)) g) + 1))
                   (setId n (count_ (set_hashMap (<[h:=n]> (hashMap_ g)) g))
                      (set_hashMap (<[h:=n]> (hashMap_ g)) g)))) as Hch.
  destruct (fold_left (add_child n) (children n) _) as [group g1]. simpl in Hch.
  unfold same_but_levels in Hch. simpl in Hch.
  destruct Hch as (Hc & Hn & Ht & Hnm & Hi & Htop & Hp & Hh & Hnx & Hr).
  destruct (Z.leb _ group); simpl; rewrite ?Hc, ?Hn, ?Htop, ?Hh, ?Hnm, ?Hi, ?Hp, ?Hnx, ?Hr;
    repeat split.
Qed.


(** *** Parameters requested by name *)

(** C8: [param] on a name bound to a node that is not a parameter throws and
    leaves the graph as it was (no node is constructed, none is registered);
    on a name bound to a parameter it returns that parameter, handed to [add]
    once more: no node object is constructed, the parameter table is
    unchanged, and the parameter enters the node list if its hash is not in
    the hash table of this generation. *)
Theorem param_collision_and_reuse (name : string) (shape : Shape) (trainable : bool)
  (init : option (list float)) (g : ExpressionGraph) :
  (forall e, Parameters_get name g = None -> named_ g !! name = Some e ->
     param name shape trainable init g = Throw (NonParameterExists name) g) /\
  (forall p, Parameters_get name g = Some p ->
     param name shape trainable init g = Ok (p, snd (add p g)) /\
     next_ (snd (add p g)) = next_ g /\
     params_ (snd (add p g)) = params_ g /\
     (hashMap_ g !! fst (hash p (store_ g)) = None ->
      nodes_ (snd (add p g)) = nodes_ g ++ [p]) /\
     (is_Some (hashMap_ g !! fst (hash p (store_ g))) ->
      nodes_ (snd (add p g)) = nodes_ g)).
Proof.
  split.
  - intros e Hpar Hnamed. unfold param. rewrite Hpar.
    unfold get. unfold Parameters_get in Hpar. rewrite Hpar, Hnamed. reflexivity.
  - intros p Hpar. unfold param. rewrite Hpar. split; [reflexivity|].
    destruct (hashMap_ g !! fst (hash p (store_ g))) as [e|] eqn:Hlook.
    + rewrite (add_hit p e g Hlook). simpl.
      split; [reflexivity|]. split; [reflexivity|].
      split; [discriminate | reflexivity].
    + rewrite (add_miss p g Hlook). simpl.
      destruct (add_new_tables (fst (hash p (store_ g))) p
                  (set_store (snd (hash p (store_ g))) g))
        as (_ & Hn & _ & _ & _ & _ & Hp & Hnx & _).
      rewrite Hn, Hp, Hnx. simpl.
      split; [reflexivity|]. split; [reflexivity|].
      split; [reflexivity|]. intros [e He]. discriminate.
Qed.

(** *** What the backward pass leaves alone *)

Lemma blank_set_adj (t : Tensor) (n : Node) : blank (set_adj t n) = blank n.
Proof. reflexivity. Qed.

Lemma blank_set_val (t : Tensor) (n : Node) : blank (set_val t n) = blank n.
Proof. reflexivity. Qed.

Lemma blank_set_edges (z : Z) (n : Node) : blank (set_edges z n) = blank n.
Proof. reflexivity. Qed.

Lemma store_frame_refl (st : Store) : store_frame st st.
Proof. intros q. reflexivity. Qed.

Lemma store_frame_trans (st1 st2 st3 : Store) :
  store_frame st1 st2 -> store_frame st2 st3 -> store_frame st1 st3.
Proof. intros H1 H2 q. rewrite H2. apply H1. Qed.

Lemma store_frame_upd (p : nat) (f : Node -> Node) (st : Store) :
  (forall n, blank (f n) = blank n) -> store_frame st (upd p f st).
Proof. intros Hf q. unfold upd. destruct (decide (q = p)); [apply Hf | reflexivity]. Qed.

Lemma store_frame_write (r : TRef) (t : Tensor) (st : Store) : store_frame st (write r t st).
Proof.
  destruct r; simpl; try apply store_frame_refl;
    apply store_frame_upd; intros n; reflexivity.
Qed.

Lemma store_frame_run_op (op : NodeOp) (st : Store) : store_frame st (run_op op st).
Proof.
  unfold run_op. revert st. induction op as [|c op IH]; intros st; simpl.
  - apply store_frame_refl.
  - eapply store_frame_trans; [apply store_frame_write | apply IH].
Qed.

Lemma store_frame_runBackward_from (e : Expr) (ops : NodeOps) (i : nat) (st : Store) :
  store_frame st
    (snd (fold_left (fun acc op =>
                       let '(i, st) := acc in
                       (S i, match children e !! i with
                             | Some child =>
                               if trainable_ (st (ptr child)) then run_op op st else st
                             | None => st
                             end)) ops (i, st))).
Proof.
  revert i st. induction ops as [|op ops IH]; intros i st; simpl.
  - apply store_frame_refl.
  - eapply store_frame_trans; [|apply IH].
    destruct (children e !! i) as [c|]; [|apply store_frame_refl].
    destruct (trainable_ (st (ptr c))); [apply store_frame_run_op | apply store_frame_refl].
Qed.

Lemma store_frame_runBackward (e : Expr) (ops : NodeOps) (st : Store) :
  store_frame st (runBackward e ops st).
Proof. apply store_frame_runBackward_from. Qed.

Lemma pass_frame_refl (g : ExpressionGraph) : pass_frame g g.
Proof. apply store_frame_refl. Qed.

Lemma pass_frame_trans (g1 g2 g3 : ExpressionGraph) :
  pass_frame g1 g2 -> pass_frame g2 g3 -> pass_frame g1 g3.
Proof. apply store_frame_trans. Qed.

Lemma pass_frame_on_node (p : nat) (f : Node -> Node) (g : ExpressionGraph) :
  (forall n, blank (f n) = blank n) -> pass_frame g (on_node p f g).
Proof. intros Hf. apply store_frame_upd, Hf. Qed.

Lemma pass_frame_fold {A : Type} (f : ExpressionGraph -> A -> ExpressionGraph) (l : list A) :
  (forall g a, pass_frame g (f g a)) ->
  forall g, pass_frame g (fold_left f l g).
Proof.
  intros Hf. induction l as [|a l IH]; intros g; simpl.
  - apply pass_frame_refl.
  - eapply pass_frame_trans; [apply Hf | apply IH].
Qed.

Lemma pass_frame_set_zero_adjoint (fake : bool) (e : Expr) (g : ExpressionGraph) :
  pass_frame g (set_zero_adjoint fake e g).
Proof. apply pass_frame_on_node. intros n. destruct (adj_ n); reflexivity. Qed.

Lemma pass_frame_init_dependent (fake : bool) (p : nat) (g : ExpressionGraph) :
  pass_frame g (init_dependent fake p g).
Proof. apply pass_frame_on_node. intros n. destruct (adj_ n), fake; reflexivity. Qed.

Lemma pass_frame_release_edges (v : Expr) (g : ExpressionGraph) :
  pass_frame g (release_edges v g).
Proof.
  unfold release_edges. apply pass_frame_fold. intros g0 a.
  eapply pass_frame_trans; apply pass_frame_on_node; intros n; reflexivity.
Qed.

Lemma pass_frame_free (fake : bool) (e : Expr) (g : ExpressionGraph) :
  pass_frame g (free fake e g).
Proof.
  unfold free, pass_frame. simpl. apply store_frame_upd. intros n. reflexivity.
Qed.

Lemma pass_frame_node_backward (fake : bool) (v : Expr) (g : ExpressionGraph) :
  pass_frame g (node_backward fake v g).
Proof.
  unfold node_backward. destruct fake; [apply pass_frame_refl|].
  unfold pass_frame. simpl. apply store_frame_runBackward.
Qed.

Lemma pass_frame_backward_visit (fake : bool) (g : ExpressionGraph) (v : Expr) :
  pass_frame g (backward_visit fake g v).
Proof.
  unfold backward_visit.
  set (g1 := zero_children fake (children v) g).
  assert (H1 : pass_frame g g1).
  { apply pass_frame_fold. intros g0 a.
    destruct (trainable_ (node g0 a));
      [apply pass_frame_set_zero_adjoint | apply pass_frame_refl]. }
  eapply pass_frame_trans; [|apply pass_frame_release_edges].
  eapply pass_frame_trans; [exact H1|].
  destruct (trainable_ (node g1 v));
    [apply pass_frame_node_backward | apply pass_frame_refl].
Qed.

Lemma pass_frame_backward_step (fake : bool) (g : ExpressionGraph) (v : Expr) :
  pass_frame g (backward_step fake g v).
Proof.
  unfold backward_step. destruct (releasable _ _).
  - eapply pass_frame_trans; [apply pass_frame_backward_visit | apply pass_frame_free].
  - apply pass_frame_backward_visit.
Qed.

Lemma pass_frame_steps (fake : bool) (l : list Expr) (g : ExpressionGraph) :
  pass_frame g (fold_left (backward_step fake) l g).
Proof. apply pass_frame_fold. apply pass_frame_backward_step. Qed.

Lemma pass_frame_name (g g' : ExpressionGraph) (q : nat) :
  pass_frame g g' -> name_ (store_ g' q) = name_ (store_ g q).
Proof. intros Hf. exact (f_equal name_ (Hf q)). Qed.

Lemma pass_frame_trainable (g g' : ExpressionGraph) (q : nat) :
  pass_frame g g' -> trainable_ (store_ g' q) = trainable_ (store_ g q).
Proof. intros Hf. exact (f_equal trainable_ (Hf q)). Qed.

Lemma pass_frame_shape (g g' : ExpressionGraph) (q : nat) :
  pass_frame g g' -> shape_ (store_ g' q) = shape_ (store_ g q).
Proof. intros Hf. exact (f_equal shape_ (Hf q)). Qed.

(** *** Releasing storage *)

Lemma released_fold {A : Type} (f : ExpressionGraph -> A -> ExpressionGraph) (l : list A) :
  (forall g a, released_ (f g a) = released_ g) ->
  forall g, released_ (fold_left f l g) = released_ g.
Proof.
  intros Hf. induction l as [|a l IH]; intros g; simpl; [reflexivity|].
  rewrite IH. apply Hf.
Qed.

Lemma released_backward_visit (fake : bool) (g : ExpressionGraph) (v : Expr) :
  released_ (backward_visit fake g v) = released_ g.
Proof.
  unfold backward_visit, release_edges.
  rewrite released_fold by (intros; reflexivity).
  assert (Hz : released_ (zero_children fake (children v) g) = released_ g).
  { unfold zero_children. apply released_fold.
    intros g0 a; destruct (trainable_ (node g0 a)); reflexivity. }
  destruct (trainable_ (node (zero_children fake (children v) g) v)); [|exact Hz].
  unfold node_backward. destruct fake; simpl; exact Hz.
Qed.

Lemma released_backward_step (fake : bool) (g : ExpressionGraph) (v : Expr) :
  released_ (backward_step fake g v)
  = released_ g ++ (if releasable (backward_visit fake g v) v then [ptr v] else []).
Proof.
  unfold backward_step. destruct (releasable _ _); simpl.
  - rewrite released_backward_visit. reflexivity.
  - rewrite released_backward_visit, app_nil_r. reflexivity.
Qed.

Lemma releasable_spec (g : ExpressionGraph) (v : Expr) :
  releasable g v = true <-> edges_ (node g v) = 0 /\ name_ (node g v) = "none".
Proof.
  unfold releasable. rewrite andb_true_iff, Z.eqb_eq, String.eqb_eq. reflexivity.
Qed.

Lemma released_steps (fake : bool) (l : list Expr) (g : ExpressionGraph) (q : nat) :
  In q (released_ (fold_left (backward_step fake) l g)) <->
  In q (released_ g) \/
  exists l1 v l2, l = l1 ++ v :: l2 /\ ptr v = q /\
    releasable (backward_visit fake (fold_left (backward_step fake) l1 g) v) v = true.
Proof.
  revert g. induction l as [|a l IH] using rev_ind; intros g.
  - simpl. split; [auto|]. intros [Hin|(l1 & v & l2 & Hl & _)]; [exact Hin|].
    destruct l1; discriminate.
  - rewrite fold_left_app. simpl. rewrite released_backward_step, in_app_iff, IH.
    split.
    + intros [[Hin|(l1 & v & l2 & Hl & Hp & Hr)]|Hin].
      * left; exact Hin.
      * right. exists l1, v, (l2 ++ [a]). subst l. rewrite <- app_assoc. simpl. auto.
      * destruct (releasable _ a) eqn:Hr; simpl in Hin; [|contradiction].
        destruct Hin as [Hin|[]]. right. exists l, a, []. auto.
    + intros [Hin|(l1 & v & l2 & Hl & Hp & Hr)].
      * left; left; exact Hin.
      * destruct l2 as [|b l2 _] using rev_ind.
        -- apply app_inj_tail in Hl. destruct Hl as [-> ->].
           right. rewrite Hr. simpl. auto.
        -- change (l1 ++ v :: l2 ++ [b]) with (l1 ++ (v :: l2) ++ [b]) in Hl.
           rewrite app_assoc in Hl. apply app_inj_tail in Hl. destruct Hl as [-> ->].
           left. right. exists l1, v, l2. auto.
Qed.

Lemma param_sets_name (name : string) (shape : Shape) (trainable : bool)
  (init : option (list float)) (g g' : ExpressionGraph) (p : Expr) :
  Parameters_get name g = None ->
  param name shape trainable init g = Ok (p, g') ->
  name_ (node g' p) = name.
Proof.
  intros Hget Hpar. unfold param in Hpar. rewrite Hget in Hpar.
  destruct (get name g); [discriminate|].
  destruct (Expression _ g) as [[p0 g0]|]; [|discriminate].
  inversion Hpar; subst. unfold node. simpl. rewrite upd_same. reflexivity.
Qed.

(** *** Arithmetic modulo [2^64] *)

Lemma wrap_wrap (z : Z) : wrap (wrap z) = wrap z.
Proof. unfold wrap. apply Z.mod_mod. lia. Qed.

Lemma wrap_add_l (a b : Z) : wrap (wrap a + b) = wrap (a + b).
Proof. unfold wrap. apply Z.add_mod_idemp_l. lia. Qed.

Lemma wrap_sub_l (a b : Z) : wrap (wrap a - b) = wrap (a - b).
Proof. unfold wrap. apply Zminus_mod_idemp_l. Qed.

Lemma wrap_small (z : Z) : 0 <= z < 2 ^ 64 -> wrap z = z.
Proof. intros Hz. unfold wrap. apply Z.mod_small. exact Hz. Qed.

Lemma wrap_range (z : Z) : 0 <= wrap z < 2 ^ 64.
Proof. unfold wrap. apply Z.mod_pos_bound. lia. Qed.

(** *** Slots *)

Lemma hits_nil (q : nat) : hits [] q = 0.
Proof. reflexivity. Qed.

Lemma hits_cons (c : Expr) (ch : list Expr) (q : nat) :
  hits (c :: ch) q = (if decide (ptr c = q) then 1 else 0) + hits ch q.
Proof.
  unfold hits. rewrite filter_cons. destruct (decide (ptr c = q)); simpl length; lia.
Qed.

Lemma hits_nonneg (ch : list Expr) (q : nat) : 0 <= hits ch q.
Proof. unfold hits. lia. Qed.

Lemma hits_zero (ch : list Expr) (q : nat) :
  (forall c, In c ch -> ptr c <> q) -> hits ch q = 0.
Proof.
  induction ch as [|c ch IH]; intros Hne; [reflexivity|].
  rewrite hits_cons. destruct (decide (ptr c = q)) as [Heq|_].
  - exfalso. apply (Hne c); [left; reflexivity | exact Heq].
  - rewrite IH; [reflexivity|]. intros c' Hc'. apply Hne. right. exact Hc'.
Qed.

Lemma occ_cons (v c : Expr) (ch : list Expr) (q : nat) :
  occ v (c :: ch) q
  = (if decide (ptr v = q) then 1 else 0) + (if decide (ptr c = q) then 1 else 0) + occ v ch q.
Proof.
  unfold occ. rewrite hits_cons. simpl length.
  destruct (decide (ptr v = q)); destruct (decide (ptr c = q)); lia.
Qed.

Lemma slots_occ (v : Expr) (q : nat) : slots v q = occ v (children v) q.
Proof. reflexivity. Qed.

Lemma degree_app (l1 l2 : list Expr) (q : nat) :
  degree (l1 ++ l2) q = degree l1 q + degree l2 q.
Proof.
  induction l1 as [|v l1 IH]; simpl; [reflexivity|]. rewrite IH. lia.
Qed.

Lemma degree_rev (l : list Expr) (q : nat) : degree (rev l) q = degree l q.
Proof.
  induction l as [|v l IH]; simpl; [reflexivity|].
  rewrite degree_app, IH. simpl. lia.
Qed.

Lemma degree_fresh (l : list Expr) (q : nat) :
  (forall v, In v l -> ptr v <> q /\ forall c, In c (children v) -> ptr c <> q) ->
  degree l q = 0.
Proof.
  induction l as [|v l IH]; intros Hne; simpl; [reflexivity|].
  rewrite IH by (intros v' Hv'; apply Hne; right; exact Hv').
  destruct (Hne v (or_introl eq_refl)) as [Hv Hc].
  unfold slots. rewrite (decide_False (P := ptr v = q)) by exact Hv.
  replace (Z.of_nat (length (filter (fun c => ptr c = q) (children v))))
    with (hits (children v) q) by reflexivity.
  rewrite hits_zero by exact Hc. reflexivity.
Qed.

(** *** What writes tensors only *)

Lemma value_frame_refl (st : Store) : value_frame st st.
Proof. intros q. reflexivity. Qed.

Lemma value_frame_trans (st1 st2 st3 : Store) :
  value_frame st1 st2 -> value_frame st2 st3 -> value_frame st1 st3.
Proof. intros H1 H2 q. rewrite H2. apply H1. Qed.

Lemma value_frame_upd (p : nat) (f : Node -> Node) (st : Store) :
  (forall n, vblank (f n) = vblank n) -> value_frame st (upd p f st).
Proof. intros Hf q. unfold upd. destruct (decide (q = p)); [apply Hf | reflexivity]. Qed.

Lemma value_frame_write (r : TRef) (t : Tensor) (st : Store) : value_frame st (write r t st).
Proof.
  destruct r; simpl; try apply value_frame_refl;
    apply value_frame_upd; intros n; reflexivity.
Qed.

Lemma value_frame_run_op (op : NodeOp) (st : Store) : value_frame st (run_op op st).
Proof.
  unfold run_op. revert st. induction op as [|c op IH]; intros st; simpl.
  - apply value_frame_refl.
  - eapply value_frame_trans; [apply value_frame_write | apply IH].
Qed.

Lemma value_frame_runForward (ops : NodeOps) (st : Store) :
  value_frame st (runForward ops st).
Proof.
  unfold runForward. revert st. induction ops as [|op ops IH]; intros st; simpl.
  - apply value_frame_refl.
  - eapply value_frame_trans; [apply value_frame_run_op | apply IH].
Qed.

Lemma value_frame_runBackward_from (e : Expr) (ops : NodeOps) (i : nat) (st : Store) :
  value_frame st
    (snd (fold_left (fun acc op =>
                       let '(i, st) := acc in
                       (S i, match children e !! i with
                             | Some child =>
                               if trainable_ (st (ptr child)) then run_op op st else st
                             | None => st
                             end)) ops (i, st))).
Proof.
  revert i st. induction ops as [|op ops IH]; intros i st; simpl.
  - apply value_frame_refl.
  - eapply value_frame_trans; [|apply IH].
    destruct (children e !! i) as [c|]; [|apply value_frame_refl].
    destruct (trainable_ (st (ptr c))); [apply value_frame_run_op | apply value_frame_refl].
Qed.

Lemma value_frame_runBackward (e : Expr) (ops : NodeOps) (st : Store) :
  value_frame st (runBackward e ops st).
Proof. apply value_frame_runBackward_from. Qed.

Lemma value_frame_fold {A : Type} (f : ExpressionGraph -> A -> ExpressionGraph) (l : list A) :
  (forall g a, value_frame (store_ g) (store_ (f g a))) ->
  forall g, value_frame (store_ g) (store_ (fold_left f l g)).
Proof.
  intros Hf. induction l as [|a l IH]; intros g; simpl.
  - apply value_frame_refl.
  - eapply value_frame_trans; [apply Hf | apply IH].
Qed.

Lemma value_frame_allocate (fake : bool) (e : Expr) (g : ExpressionGraph) :
  value_frame (store_ g) (store_ (allocate fake e g)).
Proof. apply value_frame_upd. intros n. destruct (val_ n); reflexivity. Qed.

Lemma value_frame_init (fake : bool) (e : Expr) (g : ExpressionGraph) :
  value_frame (store_ g) (store_ (init fake e g)).
Proof.
  unfold init. destruct (node_type e); [|apply value_frame_refl].
  apply value_frame_upd. intros n. destruct (init_ n), fake; reflexivity.
Qed.

Lemma value_frame_node_forward (fake : bool) (e : Expr) (g : ExpressionGraph) :
  value_frame (store_ g) (store_ (node_forward fake e g)).
Proof.
  unfold node_forward. destruct fake; [apply value_frame_refl|].
  simpl. apply value_frame_runForward.
Qed.

Lemma value_frame_node_backward (fake : bool) (e : Expr) (g : ExpressionGraph) :
  value_frame (store_ g) (store_ (node_backward fake e g)).
Proof.
  unfold node_backward. destruct fake; [apply value_frame_refl|].
  simpl. apply value_frame_runBackward.
Qed.

Lemma value_frame_set_zero_adjoint (fake : bool) (e : Expr) (g : ExpressionGraph) :
  value_frame (store_ g) (store_ (set_zero_adjoint fake e g)).
Proof. apply value_frame_upd. intros n. destruct (adj_ n); reflexivity. Qed.

Lemma value_frame_zero_children (fake : bool) (ch : list Expr) (g : ExpressionGraph) :
  value_frame (store_ g) (store_ (zero_children fake ch g)).
Proof.
  unfold zero_children. apply value_frame_fold. intros g0 a.
  destruct (trainable_ (node g0 a));
    [apply value_frame_set_zero_adjoint | apply value_frame_refl].
Qed.

Lemma value_frame_free (fake : bool) (e : Expr) (g : ExpressionGraph) :
  value_frame (store_ g) (store_ (free fake e g)).
Proof. unfold free. simpl. apply value_frame_upd. intros n. reflexivity. Qed.

Lemma value_frame_init_dependent (fake : bool) (p : nat) (g : ExpressionGraph) :
  value_frame (store_ g) (store_ (init_dependent fake p g)).
Proof. apply value_frame_upd. intros n. destruct (adj_ n), fake; reflexivity. Qed.

Lemma value_frame_allocateForward (fake : bool) (g : ExpressionGraph) :
  value_frame (store_ g) (store_ (Parameters_allocateForward fake g)).
Proof.
  unfold Parameters_allocateForward. apply value_frame_fold.
  intros; apply value_frame_allocate.
Qed.

Lemma value_frame_backward_seed (fake : bool) (g : ExpressionGraph) :
  value_frame (store_ g) (store_ (backward_seed fake g)).
Proof.
  unfold backward_seed.
  assert (H1 : value_frame (store_ g) (store_ (Parameters_allocateBackward fake g))).
  { unfold Parameters_allocateBackward. apply value_frame_fold.
    intros g0 a. apply value_frame_upd. intros n. destruct (adj_ n); reflexivity. }
  assert (H2 : forall g0, value_frame (store_ g0) (store_ (Parameters_set_zero_adjoint fake g0))).
  { intros g0. unfold Parameters_set_zero_adjoint. apply value_frame_fold.
    intros g1 a. apply value_frame_upd. intros n. destruct (adj_ n), fake; reflexivity. }
  eapply value_frame_trans; [exact H1|].
  eapply value_frame_trans; [apply H2|].
  apply value_frame_fold. intros; apply value_frame_init_dependent.
Qed.

Lemma value_frame_edges (st st' : Store) (q : nat) :
  value_frame st st' -> edges_ (st' q) = edges_ (st q).
Proof. intros Hf. exact (f_equal edges_ (Hf q)). Qed.

Lemma value_frame_id (st st' : Store) (q : nat) :
  value_frame st st' -> id_ (st' q) = id_ (st q).
Proof. intros Hf. exact (f_equal id_ (Hf q)). Qed.

(** *** Counting edges down *)

Lemma release_edges_part (v : Expr) (ch : list Expr) (g : ExpressionGraph) (q : nat) :
  edges_ (store_ g q) = wrap (edges_ (store_ g q)) ->
  edges_ (store_ (fold_left (fun g child => decreaseEdges child 1 (decreaseEdges v 1 g)) ch g) q)
  = wrap (edges_ (store_ g q) - occ v ch q).
Proof.
  revert g. induction ch as [|c ch IH]; intros g Hrange.
  - simpl. unfold occ. rewrite hits_nil. simpl.
    destruct (decide (ptr v = q)); rewrite Z.sub_0_r; exact Hrange.
  - simpl fold_left. rewrite occ_cons.
    set (g1 := decreaseEdges c 1 (decreaseEdges v 1 g)).
    assert (H1 : edges_ (store_ g1 q)
                 = wrap (edges_ (store_ g q) - ((if decide (ptr v = q) then 1 else 0)
                                               + (if decide (ptr c = q) then 1 else 0)))).
    { subst g1. unfold decreaseEdges. rewrite !store_on_node.
      destruct (decide (q = ptr c)) as [Hc|Hc]; destruct (decide (q = ptr v)) as [Hv|Hv];
        simpl.
      - rewrite (decide_True (P := ptr v = q)), (decide_True (P := ptr c = q)) by congruence.
        rewrite wrap_sub_l. f_equal; lia.
      - rewrite (decide_False (P := ptr v = q)), (decide_True (P := ptr c = q)) by congruence.
        f_equal; lia.
      - rewrite (decide_True (P := ptr v = q)), (decide_False (P := ptr c = q)) by congruence.
        f_equal; lia.
      - rewrite (decide_False (P := ptr v = q)), (decide_False (P := ptr c = q)) by congruence.
        rewrite Z.sub_0_r. exact Hrange. }
    rewrite IH by (rewrite H1, wrap_wrap; reflexivity).
    rewrite H1, wrap_sub_l. f_equal; lia.
Qed.

Lemma release_edges_edges (v : Expr) (g : ExpressionGraph) (q : nat) :
  edges_ (store_ g q) = wrap (edges_ (store_ g q)) ->
  edges_ (store_ (release_edges v g) q) = wrap (edges_ (store_ g q) - slots v q).
Proof. intros Hrange. unfold release_edges. rewrite slots_occ. apply release_edges_part, Hrange. Qed.

Lemma forward_step_edges (fake : bool) (g : ExpressionGraph) (v : Expr) (q : nat) :
  edges_ (store_ g q) = wrap (edges_ (store_ g q)) ->
  edges_ (store_ (forward_step fake g v) q) = wrap (edges_ (store_ g q) - slots v q).
Proof.
  intros Hrange. unfold forward_step.
  assert (He : edges_ (store_ (node_forward fake v (init fake v (allocate fake v g))) q)
               = edges_ (store_ g q)).
  { rewrite (value_frame_edges _ _ q (value_frame_node_forward fake v _)).
    rewrite (value_frame_edges _ _ q (value_frame_init fake v _)).
    apply (value_frame_edges _ _ q (value_frame_allocate fake v g)). }
  rewrite release_edges_edges by (rewrite He; exact Hrange).
  rewrite He. reflexivity.
Qed.

Lemma backward_visit_edges (fake : bool) (g : ExpressionGraph) (v : Expr) (q : nat) :
  edges_ (store_ g q) = wrap (edges_ (store_ g q)) ->
  edges_ (store_ (backward_visit fake g v) q) = wrap (edges_ (store_ g q) - slots v q).
Proof.
  intros Hrange. unfold backward_visit.
  set (g1 := zero_children fake (children v) g).
  assert (H1 : edges_ (store_ g1 q) = edges_ (store_ g q))
    by apply (value_frame_edges _ _ q (value_frame_zero_children fake (children v) g)).
  set (g2 := if trainable_ (node g1 v) then _ else _).
  assert (H2 : edges_ (store_ g2 q) = edges_ (store_ g q)).
  { subst g2. destruct (trainable_ (node g1 v)); [|exact H1].
    rewrite (value_frame_edges _ _ q (value_frame_node_backward fake v g1)). exact H1. }
  rewrite release_edges_edges by (rewrite H2; exact Hrange).
  rewrite H2. reflexivity.
Qed.

Lemma backward_step_edges (fake : bool) (g : ExpressionGraph) (v : Expr) (q : nat) :
  edges_ (store_ g q) = wrap (edges_ (store_ g q)) ->
  edges_ (store_ (backward_step fake g v) q) = wrap (edges_ (store_ g q) - slots v q).
Proof.
  intros Hrange. unfold backward_step. destruct (releasable _ _).
  - rewrite (value_frame_edges _ _ q (value_frame_free fake v _)).
    apply backward_visit_edges, Hrange.
  - apply backward_visit_edges, Hrange.
Qed.

Lemma steps_edges (step : ExpressionGraph -> Expr -> ExpressionGraph) (l : list Expr)
  (g : ExpressionGraph) (q : nat) :
  (forall g v, edges_ (store_ g q) = wrap (edges_ (store_ g q)) ->
               edges_ (store_ (step g v) q) = wrap (edges_ (store_ g q) - slots v q)) ->
  edges_ (store_ g q) = wrap (edges_ (store_ g q)) ->
  edges_ (store_ (fold_left step l g) q) = wrap (edges_ (store_ g q) - degree l q).
Proof.
  intros Hstep. revert g. induction l as [|v l IH]; intros g Hrange; simpl.
  - rewrite Z.sub_0_r. exact Hrange.
  - rewrite IH by (rewrite Hstep, wrap_wrap by exact Hrange; reflexivity).
    rewrite Hstep by exact Hrange. rewrite wrap_sub_l. f_equal; lia.
Qed.


(** *** What [add] writes into the nodes *)

Lemma add_child_eq (n : Expr) (group : Z) (g : ExpressionGraph) (c : Expr) :
  add_child n (group, g) c
  = (Z.max group (wrap (fst (tapeMap_at c g) + 1)),
     increaseEdges n 2 (increaseEdges c 2 (snd (tapeMap_at c g)))).
Proof. unfold add_child. destruct (tapeMap_at c g). reflexivity. Qed.

Lemma tapeMap_at_store (c : Expr) (g : ExpressionGraph) :
  store_ (snd (tapeMap_at c g)) = store_ g.
Proof. unfold tapeMap_at. destruct (tapeMap_ g !! ptr c); reflexivity. Qed.

Lemma add_children_store (n : Expr) (ch : list Expr) (group : Z) (g : ExpressionGraph)
  (q : nat) :
  id_ (store_ (snd (fold_left (add_child n) ch (group, g))) q) = id_ (store_ g q) /\
  (edges_ (store_ g q) = wrap (edges_ (store_ g q)) ->
   edges_ (store_ (snd (fold_left (add_child n) ch (group, g))) q)
   = wrap (edges_ (store_ g q) + 2 * occ n ch q)).
Proof.
  revert group g. induction ch as [|c ch IH]; intros group g.
  - simpl. split; [reflexivity|]. intros Hrange. unfold occ. rewrite hits_nil.
    destruct (decide (ptr n = q)); simpl; rewrite Z.add_0_r; exact Hrange.
  - change (fold_left (add_child n) (c :: ch) (group, g))
      with (fold_left (add_child n) ch (add_child n (group, g) c)).
    rewrite add_child_eq.
    pose proof (tapeMap_at_store c g) as Hst.
    destruct (tapeMap_at c g) as [level g1]. simpl in Hst. simpl fst. simpl snd.
    set (g2 := increaseEdges n 2 (increaseEdges c 2 g1)).
    destruct (IH (Z.max group (wrap (level + 1))) g2) as [IHid IHe].
    assert (Hid2 : id_ (store_ g2 q) = id_ (store_ g q)).
    { subst g2. unfold increaseEdges. rewrite !store_on_node, Hst.
      destruct (decide (q = ptr n)); destruct (decide (q = ptr c)); reflexivity. }
    assert (He2 : edges_ (store_ g q) = wrap (edges_ (store_ g q)) ->
                  edges_ (store_ g2 q)
                  = wrap (edges_ (store_ g q) + 2 * ((if decide (ptr n = q) then 1 else 0)
                                                    + (if decide (ptr c = q) then 1 else 0)))).
    { intros Hrange. subst g2. unfold increaseEdges. rewrite !store_on_node, Hst.
      destruct (decide (q = ptr n)) as [Hn|Hn]; destruct (decide (q = ptr c)) as [Hc|Hc];
        simpl.
      - rewrite (decide_True (P := ptr n = q)), (decide_True (P := ptr c = q)) by congruence.
        rewrite wrap_add_l. f_equal; lia.
      - rewrite (decide_True (P := ptr n = q)), (decide_False (P := ptr c = q)) by congruence.
        f_equal; lia.
      - rewrite (decide_False (P := ptr n = q)), (decide_True (P := ptr c = q)) by congruence.
        f_equal; lia.
      - rewrite (decide_False (P := ptr n = q)), (decide_False (P := ptr c = q)) by congruence.
        rewrite Z.add_0_r. exact Hrange. }
    split.
    + rewrite IHid. exact Hid2.
    + intros Hrange. rewrite IHe by (rewrite (He2 Hrange), wrap_wrap; reflexivity).
      rewrite (He2 Hrange), wrap_add_l, occ_cons. f_equal; lia.
Qed.

Lemma add_new_store (h : Z) (n : Expr) (g : ExpressionGraph) (q : nat) :
  id_ (store_ (add_new h n g) q) = (if decide (q = ptr n) then count_ g else id_ (store_ g q)) /\
  (edges_ (store_ g q) = wrap (edges_ (store_ g q)) ->
   edges_ (store_ (add_new h n g) q) = wrap (edges_ (store_ g q) + 2 * slots n q)).
Proof.
  unfold add_new.
  set (g2 := set_count _ (setId n _ (set_hashMap _ g))).
  destruct (add_children_store n (children n) 0 g2 q) as [Hid He].
  assert (Hid2 : id_ (store_ g2 q) = if decide (q = ptr n) then count_ g else id_ (store_ g q)).
  { subst g2. simpl. unfold upd. destruct (decide (q = ptr n)); reflexivity. }
  assert (He2 : edges_ (store_ g2 q) = edges_ (store_ g q)).
  { subst g2. simpl. unfold upd. destruct (decide (q = ptr n)); reflexivity. }
  clearbody g2.
  destruct (fold_left (add_child n) (children n) (0, g2)) as [group g3]. simpl in Hid, He.
  destruct (Z.leb _ group); simpl; rewrite Hid, Hid2; (split; [reflexivity|]);
    intros Hrange; rewrite He by (rewrite He2; exact Hrange); rewrite He2; reflexivity.
Qed.

(** *** The invariant of built graphs *)

Lemma lookup_of_In (l : list Expr) (c : Expr) :
  In c l -> exists j, (j < length l)%nat /\ l !! j = Some c.
Proof.
  intros Hin. apply list_elem_of_In, list_elem_of_lookup_1 in Hin.
  destruct Hin as [j Hj]. exists j. split; [|exact Hj].
  eapply lookup_lt_Some. exact Hj.
Qed.

Lemma In_of_lookup (l : list Expr) (i : nat) (v : Expr) : l !! i = Some v -> In v l.
Proof. intros Hl. apply list_elem_of_In. eapply list_elem_of_lookup_2. exact Hl. Qed.

Lemma built_inv_new : built_inv ExpressionGraph_new.
Proof.
  constructor; simpl.
  - reflexivity.
  - intros i v Hl. rewrite lookup_nil in Hl. discriminate.
  - intros v [].
  - intros i v c Hl. rewrite lookup_nil in Hl. discriminate.
  - constructor.
  - intros q. reflexivity.
Qed.

Lemma built_degree_next (g : ExpressionGraph) :
  built_inv g -> degree (nodes_ g) (next_ g) = 0.
Proof.
  intros Hinv. apply degree_fresh. intros v Hv. split.
  - pose proof (inv_fresh g Hinv v Hv). lia.
  - intros c Hc. destruct (lookup_of_In _ _ Hv) as (i & _ & Hi).
    destruct (inv_children g Hinv i v c Hi Hc) as (j & _ & Hj).
    pose proof (inv_fresh g Hinv c (In_of_lookup _ _ _ Hj)). lia.
Qed.

Lemma remove_children_tables (ch : list Expr) (g : ExpressionGraph) :
  store_ (remove_children_from_top_nodes ch g) = store_ g /\
  nodes_ (remove_children_from_top_nodes ch g) = nodes_ g /\
  count_ (remove_children_from_top_nodes ch g) = count_ g /\
  next_ (remove_children_from_top_nodes ch g) = next_ g /\
  hashMap_ (remove_children_from_top_nodes ch g) = hashMap_ g /\
  params_ (remove_children_from_top_nodes ch g) = params_ g /\
  named_ (remove_children_from_top_nodes ch g) = named_ g.
Proof.
  unfold remove_children_from_top_nodes. revert g.
  induction ch as [|c ch IH]; intros g; simpl; [repeat split|].
  destruct (IH (remove_top_node c g)) as (H1 & H2 & H3 & H4 & H5 & H6 & H7).
  rewrite H1, H2, H3, H4, H5, H6, H7. repeat split.
Qed.

Lemma Expression_eq (c : Ctor) (g : ExpressionGraph) :
  Expression c g =
  match ctor_shape c g with
  | None => Throw ShapesNotBroadcastable g
  | Some shape =>
    Ok (add (mkExpr (next_ g) (ctor_type c) (ctor_children c)) (constructed c shape g))
  end.
Proof. reflexivity. Qed.

Lemma constructed_tables (c : Ctor) (shape : Shape) (g : ExpressionGraph) :
  store_ (constructed c shape g)
  = upd (next_ g) (fun _ => Node_new shape (ctor_trainable c g) (ctor_init c)) (store_ g) /\
  nodes_ (constructed c shape g) = nodes_ g /\
  count_ (constructed c shape g) = count_ g /\
  next_ (constructed c shape g) = S (next_ g) /\
  hashMap_ (constructed c shape g) = hashMap_ g /\
  params_ (constructed c shape g) = params_ g /\
  named_ (constructed c shape g) = named_ g.
Proof.
  unfold constructed. destruct (ctor_type c).
  - repeat split.
  - destruct (remove_children_tables (ctor_children c)
                (set_next (S (next_ g))
                   (on_node (next_ g)
                      (fun _ => Node_new shape (ctor_trainable c g) (ctor_init c)) g)))
      as (H1 & H2 & H3 & H4 & H5 & H6 & H7).
    rewrite H1, H2, H3, H4, H5, H6, H7. repeat split.
Qed.

Lemma built_inv_Expression (c : Ctor) (g g' : ExpressionGraph) (e : Expr) :
  built_inv g ->
  Forall (fun a => In a (nodes_ g)) (ctor_children c) ->
  Expression c g = Ok (e, g') ->
  built_inv g'.
Proof.
  intros Hinv Hch Hex. rewrite Expression_eq in Hex.
  destruct (ctor_shape c g) as [shape|]; [|discriminate].
  set (e0 := mkExpr (next_ g) (ctor_type c) (ctor_children c)) in *.
  set (g2 := constructed c shape g) in *.
  destruct (constructed_tables c shape g) as (Hst & Hn & Hc & Hnx & _).
  fold g2 in Hst, Hn, Hc, Hnx.
  pose proof (built_degree_next g Hinv) as Hdeg.
  assert (Hold : forall v, In v (nodes_ g) -> ptr v <> next_ g).
  { intros v Hv. pose proof (inv_fresh g Hinv v Hv). lia. }
  assert (Hedges2 : forall q, edges_ (store_ g2 q) = wrap (2 * degree (nodes_ g) q)).
  { intros q. rewrite Hst. unfold upd. destruct (decide (q = next_ g)) as [->|Hq].
    - rewrite Hdeg. reflexivity.
    - apply (inv_edges g Hinv). }
  assert (Hids2 : forall v, In v (nodes_ g) ->
                            id_ (store_ g2 (ptr v)) = id_ (store_ g (ptr v))).
  { intros v Hv. rewrite Hst. apply f_equal. apply upd_other. apply Hold, Hv. }
  pose proof (hash_writes_memo_only e0 (store_ g2)) as Hframe.
  destruct (hashMap_ g2 !! fst (hash e0 (store_ g2))) as [e1|] eqn:Hlook.
  - rewrite (add_hit e0 e1 g2 Hlook) in Hex. inversion Hex; subst e g'. clear Hex.
    constructor; simpl; rewrite ?Hn, ?Hc, ?Hnx.
    + apply (inv_count g Hinv).
    + intros i v Hl. unfold node. simpl. rewrite (hash_frame_id _ _ _ Hframe).
      rewrite (Hids2 v (In_of_lookup _ _ _ Hl)). apply (inv_ids g Hinv i v Hl).
    + intros v Hv. pose proof (inv_fresh g Hinv v Hv). lia.
    + apply (inv_children g Hinv).
    + apply (inv_nodup g Hinv).
    + intros q. rewrite (hash_frame_edges _ _ _ Hframe). apply Hedges2.
  - rewrite (add_miss e0 g2 Hlook) in Hex.
    set (h := fst (hash e0 (store_ g2))) in *.
    set (g3 := set_store (snd (hash e0 (store_ g2))) g2) in *.
    assert (Hg' : g' = add_new h e0 g3) by congruence. subst g'. clear Hex.
    destruct (add_new_tables h e0 g3) as (Hc' & Hn' & _ & _ & _ & _ & _ & Hnx' & _).
    assert (Hn3 : nodes_ g3 = nodes_ g) by exact Hn.
    assert (Hc3 : count_ g3 = count_ g) by exact Hc.
    assert (Hnx3 : next_ g3 = S (next_ g)) by exact Hnx.
    constructor; rewrite ?Hc', ?Hn', ?Hnx', ?Hn3, ?Hc3, ?Hnx3.
    + rewrite (inv_count g Hinv), wrap_add_l, length_app. simpl. f_equal; lia.
    + intros i v Hl. unfold node.
      destruct (add_new_store h e0 g3 (ptr v)) as [Hid _]. rewrite Hid, Hc3.
      apply lookup_app_Some in Hl. destruct Hl as [Hl|[Hlen Hl]].
      * rewrite decide_False by (apply Hold; eapply In_of_lookup; exact Hl).
        change (store_ g3) with (snd (hash e0 (store_ g2))).
        rewrite (hash_frame_id _ _ _ Hframe).
        rewrite (Hids2 v (In_of_lookup _ _ _ Hl)). apply (inv_ids g Hinv i v Hl).
      * apply list_lookup_singleton_Some in Hl. destruct Hl as [Hi <-].
        rewrite decide_True by reflexivity.
        rewrite (inv_count g Hinv). f_equal. lia.
    + intros v Hv. apply in_app_iff in Hv. destruct Hv as [Hv|[<-|[]]].
      * pose proof (inv_fresh g Hinv v Hv). lia.
      * simpl. lia.
    + intros i v c0 Hl Hc0. apply lookup_app_Some in Hl. destruct Hl as [Hl|[Hlen Hl]].
      * destruct (inv_children g Hinv i v c0 Hl Hc0) as (j & Hj & Hjl).
        exists j. split; [exact Hj|]. apply lookup_app_l_Some. exact Hjl.
      * apply list_lookup_singleton_Some in Hl. destruct Hl as [Hi <-].
        simpl in Hc0. rewrite Forall_forall in Hch.
        destruct (lookup_of_In _ _ (Hch c0 (proj2 (list_elem_of_In _ _) Hc0)))
          as (j & Hj & Hjl).
        exists j. split; [lia|]. apply lookup_app_l_Some. exact Hjl.
    + rewrite map_app. simpl. apply NoDup_app. split; [apply (inv_nodup g Hinv)|].
      split; [|apply NoDup_singleton].
      intros x Hx Hx'. apply list_elem_of_In in Hx. apply in_map_iff in Hx.
      destruct Hx as (v & <- & Hv). apply list_elem_of_singleton in Hx'.
      exact (Hold v Hv Hx').
    + intros q. destruct (add_new_store h e0 g3 q) as [_ He].
      assert (He3 : edges_ (store_ g3 q) = wrap (2 * degree (nodes_ g) q)).
      { change (store_ g3) with (snd (hash e0 (store_ g2))).
        rewrite (hash_frame_edges _ _ _ Hframe). apply Hedges2. }
      rewrite He by (rewrite He3, wrap_wrap; reflexivity).
      rewrite He3, wrap_add_l, degree_app. simpl. f_equal; lia.
Qed.

Lemma built_inv_named (p : Expr) (name : string) (g : ExpressionGraph) :
  built_inv g -> built_inv (Parameters_add p name (set_name p name g)).
Proof.
  intros Hinv. constructor; simpl.
  - apply (inv_count g Hinv).
  - intros i v Hl. unfold node. simpl. unfold upd.
    destruct (decide (ptr v = ptr p)); simpl; apply (inv_ids g Hinv i v Hl).
  - apply (inv_fresh g Hinv).
  - apply (inv_children g Hinv).
  - apply (inv_nodup g Hinv).
  - intros q. unfold upd. destruct (decide (q = ptr p)); simpl; apply (inv_edges g Hinv).
Qed.

Lemma Built_inv (g : ExpressionGraph) : Built g -> built_inv g.
Proof.
  induction 1 as [|c g e g' _ IH Hch Hex|name shape trainable init g p g' _ IH Hget Hpar].
  - apply built_inv_new.
  - eapply built_inv_Expression; eassumption.
  - unfold param in Hpar. rewrite Hget in Hpar.
    destruct (get name g); [discriminate|].
    destruct (Expression (NewParam shape trainable init) g) as [[p0 g0]|] eqn:Hex;
      [|discriminate].
    inversion Hpar; subst. apply built_inv_named.
    eapply built_inv_Expression; [exact IH| |exact Hex]. constructor.
Qed.


(** *** Insertion order *)

(** *** Edge counts over a generation *)

Lemma same_tables_forward_step (fake : bool) (g : ExpressionGraph) (v : Expr) :
  same_tables g (forward_step fake g v).
Proof.
  unfold forward_step.
  assert (H1 : same_tables g (allocate fake v g)) by apply same_tables_on_node.
  assert (H2 : forall g0, same_tables g0 (init fake v g0)).
  { intros g0. unfold init.
    destruct (node_type v); [apply same_tables_on_node | apply same_tables_refl]. }
  assert (H3 : forall g0, same_tables g0 (node_forward fake v g0)).
  { intros g0. unfold node_forward.
    destruct fake; [apply same_tables_refl | apply same_tables_set_store]. }
  eapply same_tables_trans; [exact H1|].
  eapply same_tables_trans; [apply H2|].
  eapply same_tables_trans; [apply H3|].
  apply same_tables_release_edges.
Qed.

Lemma same_tables_allocateForward (fake : bool) (g : ExpressionGraph) :
  same_tables g (Parameters_allocateForward fake g).
Proof.
  unfold Parameters_allocateForward. generalize (Parameters_list g). intros l.
  apply same_tables_fold. intros; apply same_tables_on_node.
Qed.

Lemma same_tables_forward (fake : bool) (g : ExpressionGraph) :
  same_tables g (snd (forward fake g)).
Proof.
  unfold forward, forward_from. simpl.
  eapply same_tables_trans; [apply same_tables_allocateForward|].
  apply same_tables_fold. apply same_tables_forward_step.
Qed.

Lemma forward_edges (fake : bool) (g : ExpressionGraph) (q : nat) :
  edges_ (store_ g q) = wrap (edges_ (store_ g q)) ->
  edges_ (store_ (snd (forward fake g)) q) = wrap (edges_ (store_ g q) - degree (nodes_ g) q).
Proof.
  intros Hrange. unfold forward, forward_from. simpl. rewrite drop_0.
  destruct (same_tables_allocateForward fake g) as (_ & Hn & _).
  pose proof (value_frame_edges _ _ q (value_frame_allocateForward fake g)) as He.
  rewrite Hn.
  rewrite (steps_edges (forward_step fake) (nodes_ g) _ q).
  - rewrite He. reflexivity.
  - intros g0 v. apply forward_step_edges.
  - rewrite He. exact Hrange.
Qed.



(** *** What a backward operation writes *)

Lemma runBackward_from_nil (e : Expr) (i : nat) (st : Store) :
  runBackward_from e [] i st = st.
Proof. reflexivity. Qed.

Lemma runBackward_from_cons (e : Expr) (op : NodeOp) (ops : NodeOps) (i : nat) (st : Store) :
  runBackward_from e (op :: ops) i st
  = runBackward_from e ops (S i)
      (match children e !! i with
       | Some child => if trainable_ (st (ptr child)) then run_op op st else st
       | None => st
       end).
Proof. reflexivity. Qed.

Lemma runBackward_from_app (e : Expr) (ops1 ops2 : NodeOps) (i : nat) (st : Store) :
  runBackward_from e (ops1 ++ ops2) i st
  = runBackward_from e ops2 (i + length ops1) (runBackward_from e ops1 i st).
Proof.
  revert i st. induction ops1 as [|op ops1 IH]; intros i st.
  - simpl. rewrite Nat.add_0_r. reflexivity.
  - simpl app. rewrite !runBackward_from_cons, IH. simpl length.
    replace (S i + length ops1)%nat with (i + S (length ops1))%nat by lia. reflexivity.
Qed.

Lemma value_frame_trainable (st st' : Store) (q : nat) :
  value_frame st st' -> trainable_ (st' q) = trainable_ (st q).
Proof. intros Hf. exact (f_equal trainable_ (Hf q)). Qed.

Lemma value_frame_shape (st st' : Store) (q : nat) :
  value_frame st st' -> shape_ (st' q) = shape_ (st q).
Proof. intros Hf. exact (f_equal shape_ (Hf q)). Qed.

Lemma value_frame_name (st st' : Store) (q : nat) :
  value_frame st st' -> name_ (st' q) = name_ (st q).
Proof. intros Hf. exact (f_equal name_ (Hf q)). Qed.

Lemma runBackward_paired (e : Expr) (ops : NodeOps) (i : nat) (st0 st : Store) :
  value_frame st0 st ->
  runBackward_from e ops i st = runForward (paired_from e st0 i ops) st.
Proof.
  revert i st. induction ops as [|op ops IH]; intros i st Hf; [reflexivity|].
  rewrite runBackward_from_cons. simpl paired_from.
  destruct (children e !! i) as [c|]; [|apply IH, Hf].
  rewrite (value_frame_trainable _ _ (ptr c) Hf).
  destruct (trainable_ (st0 (ptr c))); [|apply IH, Hf].
  simpl. apply IH. eapply value_frame_trans; [exact Hf | apply value_frame_run_op].
Qed.

Lemma read_write_same (r : TRef) (t : Tensor) (st : Store) :
  r <> Null -> read (write r t st) r = t.
Proof.
  destruct r as [p|p|]; intros Hr; [| |congruence]; simpl; rewrite upd_same; reflexivity.
Qed.

Lemma read_write_other (r r' : TRef) (t : Tensor) (st : Store) :
  r <> r' -> read (write r' t st) r = read st r.
Proof.
  intros Hne. destruct r as [p|p|], r' as [p'|p'|]; simpl; try reflexivity;
    unfold upd; destruct (decide (p = p')); subst; try reflexivity; congruence.
Qed.

Lemma run_op_spares (r : TRef) (op : NodeOp) (st : Store) :
  op_spares r op -> read (run_op op st) r = read st r.
Proof.
  unfold run_op. revert st. induction op as [|c op IH]; intros st Hsp; [reflexivity|].
  simpl. rewrite IH by (intros c' Hc'; apply Hsp; right; exact Hc').
  unfold run_call. apply read_write_other. intros Heq. apply (Hsp c); [left; reflexivity|].
  symmetry. exact Heq.
Qed.

Lemma runBackward_from_spares (e : Expr) (r : TRef) (ops : NodeOps) (i : nat) (st : Store) :
  (forall k op child, ops !! k = Some op -> children e !! (i + k)%nat = Some child ->
                      trainable_ (st (ptr child)) = true -> op_spares r op) ->
  read (runBackward_from e ops i st) r = read st r.
Proof.
  revert i st. induction ops as [|op ops IH]; intros i st Hsp; [reflexivity|].
  rewrite runBackward_from_cons.
  set (st1 := match children e !! i with
              | Some child => if trainable_ (st (ptr child)) then run_op op st else st
              | None => st
              end).
  assert (Hf : value_frame st st1).
  { subst st1. destruct (children e !! i) as [c|]; [|apply value_frame_refl].
    destruct (trainable_ (st (ptr c))); [apply value_frame_run_op | apply value_frame_refl]. }
  rewrite IH.
  - subst st1. destruct (children e !! i) as [c|] eqn:Hc; [|reflexivity].
    destruct (trainable_ (st (ptr c))) eqn:Ht; [|reflexivity].
    apply run_op_spares. apply (Hsp 0%nat op c); [reflexivity| |exact Ht].
    rewrite Nat.add_0_r. exact Hc.
  - intros k op' child Hk Hchild Ht. apply (Hsp (S k) op' child); [exact Hk| |].
    + replace (i + S k)%nat with (S i + k)%nat by lia. exact Hchild.
    + rewrite <- (value_frame_trainable _ _ (ptr child) Hf). exact Ht.
Qed.

Lemma lookup_map {A B : Type} (f : A -> B) (l : list A) (i : nat) :
  map f l !! i = f <$> (l !! i).
Proof.
  revert i. induction l as [|a l IH]; intros [|i]; simpl; try reflexivity. apply IH.
Qed.

Lemma lookup_nil_Some {A : Type} (i : nat) (x : A) : @nil A !! i = Some x -> False.
Proof. destruct i; discriminate. Qed.

(** The [i]-th backward operation of a node writes the gradient of its [i]-th
    child, and nothing else. *)
Lemma backwardOps_target (e : Expr) (i : nat) (op : NodeOp) (c : Call) :
  backwardOps e !! i = Some op -> In c op ->
  exists child, children e !! i = Some child /\ call_out c = Grad (ptr child).
Proof.
  destruct e as [p [l|o] ch]; simpl;
    [intros Hl; destruct (lookup_nil_Some _ _ Hl)|].
  assert (Hun : forall k ins,
            unary_backward k ch ins !! i = Some op -> In c op ->
            exists child, ch !! i = Some child /\ call_out c = Grad (ptr child)).
  { intros k ins Hl Hc. destruct ch as [|c0 ch']; simpl in Hl;
      [destruct (lookup_nil_Some _ _ Hl)|].
    destruct i as [|i]; simpl in Hl; [|destruct (lookup_nil_Some _ _ Hl)].
    injection Hl as <-. destruct Hc as [<-|[]]. exists c0. split; reflexivity. }
  destruct o; try (apply Hun).
  intros Hl Hc. unfold NodeOps, NodeOp in *.
  rewrite lookup_map in Hl.
  destruct (ch !! i) as [child|]; simpl in Hl; [|discriminate].
  injection Hl as <-. destruct Hc as [<-|[]]. exists child. split; reflexivity.
Qed.

(** The inputs of a backward operation: the gradient of the node itself and
    values. *)
Lemma backwardOps_inputs (e : Expr) (i : nat) (op : NodeOp) (c : Call) (r : TRef) :
  backwardOps e !! i = Some op -> In c op -> In r (call_ins c) ->
  r = Grad (ptr e) \/ exists p, r = Val p.
Proof.
  destruct e as [p [l|o] ch]; simpl;
    [intros Hl; destruct (lookup_nil_Some _ _ Hl)|].
  assert (Hun : forall k ins,
            (forall r, In r ins -> r = Grad p \/ exists p', r = Val p') ->
            unary_backward k ch ins !! i = Some op -> In c op -> In r (call_ins c) ->
            r = Grad p \/ exists p', r = Val p').
  { intros k ins Hins Hl Hc Hr. destruct ch as [|c0 ch']; simpl in Hl;
      [destruct (lookup_nil_Some _ _ Hl)|].
    destruct i as [|i]; simpl in Hl; [|destruct (lookup_nil_Some _ _ Hl)].
    injection Hl as <-. destruct Hc as [<-|[]]. apply Hins. exact Hr. }
  assert (H2 : forall a b, (a = Grad p \/ exists p', a = Val p') ->
                           (b = Grad p \/ exists p', b = Val p') ->
                           forall r, In r [a; b] -> r = Grad p \/ exists p', r = Val p').
  { intros a b Ha Hb r0 [<-|[<-|[]]]; assumption. }
  assert (H1 : forall a, (a = Grad p \/ exists p', a = Val p') ->
                         forall r, In r [a] -> r = Grad p \/ exists p', r = Val p').
  { intros a Ha r0 [<-|[]]; assumption. }
  destruct o;
    try (apply Hun; first [apply H2 | apply H1]; eauto).
  intros Hl Hc Hr. unfold NodeOps, NodeOp in *.
  rewrite lookup_map in Hl.
  destruct (ch !! i) as [child|]; simpl in Hl; [|discriminate].
  injection Hl as <-. destruct Hc as [<-|[]]. simpl in Hr.
  destruct Hr as [<-|[<-|[]]]; eauto.
Qed.


(** *** Gradients of nodes that are not trainable *)

Lemma zero_children_cons (fake : bool) (c : Expr) (ch : list Expr) (g : ExpressionGraph) :
  zero_children fake (c :: ch) g
  = zero_children fake ch
      (if trainable_ (node g c) then set_zero_adjoint fake c g else g).
Proof. reflexivity. Qed.

Lemma zero_children_other (fake : bool) (ch : list Expr) (g : ExpressionGraph) (q : nat) :
  trainable_ (store_ g q) = false \/ ~ In q (map ptr ch) ->
  store_ (zero_children fake ch g) q = store_ g q.
Proof.
  revert g. induction ch as [|c ch IH]; intros g Hq; [reflexivity|].
  rewrite zero_children_cons.
  set (g1 := if trainable_ (node g c) then set_zero_adjoint fake c g else g).
  assert (H1 : store_ g1 q = store_ g q).
  { subst g1. destruct (trainable_ (node g c)) eqn:Ht; [|reflexivity].
    unfold set_zero_adjoint. rewrite store_on_node.
    destruct (decide (q = ptr c)) as [->|Hne]; [|reflexivity].
    destruct Hq as [Hq|Hq].
    - unfold node in Ht. congruence.
    - exfalso. apply Hq. left. reflexivity. }
  rewrite IH; [exact H1|].
  destruct Hq as [Hq|Hq]; [left; rewrite H1; exact Hq | right].
  intros Hin. apply Hq. right. exact Hin.
Qed.

Lemma zeroed_idem (fake : bool) (n : Node) : zeroed fake (zeroed fake n) = zeroed fake n.
Proof. unfold zeroed. destruct (adj_ n) eqn:Ha; simpl; [rewrite Ha|]; reflexivity. Qed.

Lemma zero_children_child (fake : bool) (ch : list Expr) (g : ExpressionGraph) (q : nat) :
  In q (map ptr ch) -> trainable_ (store_ g q) = true ->
  store_ (zero_children fake ch g) q = zeroed fake (store_ g q).
Proof.
  revert g. induction ch as [|c ch IH]; intros g Hin Ht; [destruct Hin|].
  rewrite zero_children_cons.
  set (g1 := if trainable_ (node g c) then set_zero_adjoint fake c g else g).
  assert (H1 : store_ g1 q = if decide (q = ptr c) then zeroed fake (store_ g q)
                             else store_ g q).
  { subst g1. destruct (decide (q = ptr c)) as [->|Hne].
    - unfold node. rewrite Ht. unfold set_zero_adjoint. rewrite store_on_node.
      rewrite decide_True by reflexivity. reflexivity.
    - destruct (trainable_ (node g c)); [|reflexivity].
      unfold set_zero_adjoint. rewrite store_on_node, decide_False by exact Hne. reflexivity. }
  assert (Ht1 : trainable_ (store_ g1 q) = true).
  { rewrite H1. destruct (decide (q = ptr c)); [|exact Ht].
    unfold zeroed. destruct (adj_ (store_ g q)); exact Ht. }
  destruct (in_dec Nat.eq_dec q (map ptr ch)) as [Hin'|Hnin].
  - rewrite (IH g1 Hin' Ht1), H1.
    destruct (decide (q = ptr c)); [apply zeroed_idem | reflexivity].
  - rewrite zero_children_other by (right; exact Hnin).
    rewrite H1. destruct Hin as [Heq|Hin]; [|contradiction].
    rewrite decide_True by (symmetry; exact Heq). reflexivity.
Qed.

Lemma release_edges_values (v : Expr) (g : ExpressionGraph) (q : nat) :
  adj_ (store_ (release_edges v g) q) = adj_ (store_ g q) /\
  val_ (store_ (release_edges v g) q) = val_ (store_ g q).
Proof.
  unfold release_edges. generalize (children v) as ch. intros ch. revert g.
  induction ch as [|c ch IH]; intros g; simpl; [split; reflexivity|].
  destruct (IH (decreaseEdges c 1 (decreaseEdges v 1 g))) as [Ha Hv].
  rewrite Ha, Hv. unfold decreaseEdges. rewrite !store_on_node.
  destruct (decide (q = ptr c)); destruct (decide (q = ptr v)); split; reflexivity.
Qed.

Lemma backward_visit_eq (fake : bool) (g : ExpressionGraph) (v : Expr) :
  backward_visit fake g v
  = release_edges v
      (if trainable_ (node (zero_children fake (children v) g) v)
       then node_backward fake v (zero_children fake (children v) g)
       else zero_children fake (children v) g).
Proof. reflexivity. Qed.

Lemma node_backward_nontrainable (fake : bool) (g : ExpressionGraph) (v : Expr) (x : nat) :
  trainable_ (store_ g x) = false ->
  adj_ (store_ (node_backward fake v g) x) = adj_ (store_ g x).
Proof.
  intros Hx. unfold node_backward. destruct fake; [reflexivity|]. simpl.
  change (adj_ (runBackward v (backwardOps v) (store_ g) x))
    with (read (runBackward_from v (backwardOps v) 0 (store_ g)) (Grad x)).
  rewrite runBackward_from_spares; [reflexivity|].
  intros k op child Hk Hchild Ht c Hc Hout. simpl in Hchild.
  destruct (backwardOps_target v k op c Hk Hc) as (child' & Hchild' & Hout').
  assert (child' = child) by congruence. subst child'.
  assert (ptr child = x) by congruence. subst x. congruence.
Qed.

Lemma backward_visit_nontrainable (fake : bool) (g : ExpressionGraph) (v : Expr) (x : nat) :
  trainable_ (store_ g x) = false ->
  adj_ (store_ (backward_visit fake g v) x) = adj_ (store_ g x).
Proof.
  intros Hx. rewrite backward_visit_eq.
  destruct (release_edges_values v
              (if trainable_ (node (zero_children fake (children v) g) v)
               then node_backward fake v (zero_children fake (children v) g)
               else zero_children fake (children v) g) x) as [Ha _].
  rewrite Ha. clear Ha.
  assert (Hz : store_ (zero_children fake (children v) g) x = store_ g x)
    by (apply zero_children_other; left; exact Hx).
  destruct (trainable_ (node (zero_children fake (children v) g) v)).
  - rewrite node_backward_nontrainable by (rewrite Hz; exact Hx). rewrite Hz. reflexivity.
  - rewrite Hz. reflexivity.
Qed.

Lemma backward_step_store (fake : bool) (g : ExpressionGraph) (v : Expr) (x : nat) :
  store_ (backward_step fake g v) x
  = if releasable (backward_visit fake g v) v && bool_decide (x = ptr v)
    then set_adj None (set_val None (store_ (backward_visit fake g v) x))
    else store_ (backward_visit fake g v) x.
Proof.
  unfold backward_step. destruct (releasable _ _); simpl; [|reflexivity].
  unfold upd. destruct (decide (x = ptr v)) as [Heq|Hne].
  - rewrite bool_decide_eq_true_2 by exact Heq. reflexivity.
  - rewrite bool_decide_eq_false_2 by exact Hne. reflexivity.
Qed.

Lemma backward_steps_nontrainable (fake : bool) (l : list Expr) (g : ExpressionGraph)
  (x : nat) :
  trainable_ (store_ g x) = false ->
  exists r, released_ (fold_left (backward_step fake) l g) = released_ g ++ r /\
            (In x r -> adj_ (store_ (fold_left (backward_step fake) l g) x) = None) /\
            (~ In x r ->
             adj_ (store_ (fold_left (backward_step fake) l g) x) = adj_ (store_ g x)).
Proof.
  revert g. induction l as [|v l IH]; intros g Hx.
  - exists []. simpl. rewrite app_nil_r. split; [reflexivity|]. split; [intros []|reflexivity].
  - simpl fold_left.
    assert (Ht1 : trainable_ (store_ (backward_step fake g v) x) = false).
    { rewrite (pass_frame_trainable _ _ x (pass_frame_backward_step fake g v)). exact Hx. }
    destruct (IH (backward_step fake g v) Ht1) as (r & Hr & Hin & Hnin).
    pose proof (backward_step_store fake g v x) as Hst.
    pose proof (backward_visit_nontrainable fake g v x Hx) as Hvis.
    exists ((if releasable (backward_visit fake g v) v then [ptr v] else []) ++ r).
    rewrite Hr, released_backward_step, <- app_assoc.
    split; [reflexivity|]. split.
    + intros Hx'. destruct (in_dec Nat.eq_dec x r) as [Hxr|Hxr]; [apply Hin, Hxr|].
      rewrite (Hnin Hxr), Hst.
      apply in_app_iff in Hx'. destruct Hx' as [Hx'|Hx']; [|contradiction].
      destruct (releasable (backward_visit fake g v) v); [|destruct Hx'].
      destruct Hx' as [Heq|[]]. rewrite bool_decide_eq_true_2 by (symmetry; exact Heq).
      reflexivity.
    + intros Hx'. rewrite Hnin by (intros Hxr; apply Hx', in_app_iff; right; exact Hxr).
      rewrite Hst.
      destruct (releasable (backward_visit fake g v) v) eqn:Hrel; simpl; [|exact Hvis].
      destruct (bool_decide (x = ptr v)) eqn:Hbd; [|exact Hvis].
      exfalso. apply Hx'. apply bool_decide_eq_true_1 in Hbd. left. symmetry. exact Hbd.
Qed.

Lemma fold_nodes_other (F : Node -> Node) (l : list Expr) (g : ExpressionGraph) (q : nat) :
  ~ In q (map ptr l) ->
  store_ (fold_left (fun g p => on_node (ptr p) F g) l g) q = store_ g q.
Proof.
  revert g. induction l as [|e l IH]; intros g Hnin; [reflexivity|].
  simpl fold_left. rewrite IH by (intros Hin; apply Hnin; right; exact Hin).
  rewrite store_on_node, decide_False; [reflexivity|].
  intros Heq. apply Hnin. left. symmetry. exact Heq.
Qed.

Lemma fold_init_dependent_other (fake : bool) (l : list nat) (g : ExpressionGraph) (q : nat) :
  ~ In q l ->
  store_ (fold_left (fun g v => init_dependent fake v g) l g) q = store_ g q.
Proof.
  revert g. induction l as [|e l IH]; intros g Hnin; [reflexivity|].
  simpl fold_left. rewrite IH by (intros Hin; apply Hnin; right; exact Hin).
  unfold init_dependent. rewrite store_on_node, decide_False; [reflexivity|].
  intros Heq. apply Hnin. left. symmetry. exact Heq.
Qed.

Lemma backward_seed_other (fake : bool) (g : ExpressionGraph) (x : nat) :
  x ∉ topNodes_ g ->
  ~ In x (map ptr (Parameters_list g)) ->
  store_ (backward_seed fake g) x = store_ g x /\
  released_ (backward_seed fake g) = released_ g.
Proof.
  intros Htop Hnin. unfold backward_seed.
  destruct (same_tables_params_zero fake (Parameters_allocateBackward fake g))
    as (_ & _ & _ & _ & _ & _ & Ht1 & Hp1 & _).
  destruct (same_tables_allocateBackward fake g)
    as (_ & _ & _ & _ & _ & _ & Ht2 & Hp2 & _).
  assert (Hl : Parameters_list (Parameters_allocateBackward fake g) = Parameters_list g).
  { unfold Parameters_list. rewrite Hp2. reflexivity. }
  split.
  - rewrite fold_init_dependent_other.
    2:{ rewrite Ht1, Ht2. intros Hin. apply Htop. apply elem_of_elements.
        apply list_elem_of_In. exact Hin. }
    unfold Parameters_set_zero_adjoint. rewrite Hl.
    rewrite fold_nodes_other by exact Hnin.
    unfold Parameters_allocateBackward. apply fold_nodes_other. exact Hnin.
  - rewrite released_fold by reflexivity.
    unfold Parameters_set_zero_adjoint. rewrite released_fold by reflexivity.
    unfold Parameters_allocateBackward. apply released_fold. reflexivity.
Qed.

(** C10 (as amended): [runBackward] runs exactly the operations whose position
    is that of a trainable child; the first loop of a step of the backward
    pass and the backward operations leave the gradient of a node that is not
    trainable as it was; so over the loop of the backward pass the gradient of
    such a node is not written: it stays as it was unless the node's storage
    is released, which leaves no gradient; and the same holds of [backward]
    as a whole for a node that is neither the top node nor a parameter (the
    seeding before the loop writes the gradients of those, trainable or
    not). *)
Theorem nontrainable_gradient_untouched (fake : bool) :
  (forall e ops st, runBackward e ops st = runForward (paired_ops e st ops) st) /\
  (forall ch g x, trainable_ (store_ g x) = false ->
                  adj_ (store_ (zero_children fake ch g) x) = adj_ (store_ g x)) /\
  (forall g v x, trainable_ (store_ g x) = false ->
                 adj_ (store_ (backward_visit fake g v) x) = adj_ (store_ g x)) /\
  (forall l g x, trainable_ (store_ g x) = false ->
     exists r, released_ (backward_loop fake l g) = released_ g ++ r /\
               (In x r -> adj_ (store_ (backward_loop fake l g) x) = None) /\
               (~ In x r -> adj_ (store_ (backward_loop fake l g) x) = adj_ (store_ g x))) /\
  (forall g x, trainable_ (store_ g x) = false ->
     (size (topNodes_ g) <= 1)%nat ->
     x ∉ topNodes_ g ->
     ~ In x (map ptr (Parameters_list g)) ->
     exists g' r, backward fake g = Ok g' /\
                  released_ g' = released_ g ++ r /\
                  (In x r -> adj_ (store_ g' x) = None) /\
                  (~ In x r -> adj_ (store_ g' x) = adj_ (store_ g x))).
Proof.
  split; [|split; [|split; [|split]]].
  - intros e ops st. apply (runBackward_paired e ops 0 st st), value_frame_refl.
  - intros ch g x Hx. rewrite zero_children_other by (left; exact Hx). reflexivity.
  - intros g v x. apply backward_visit_nontrainable.
  - intros l g x. unfold backward_loop. apply backward_steps_nontrainable.
  - intros g x Hx Hsize Htop Hnin.
    destruct (backward_seed_other fake g x Htop Hnin) as [Hst Hrel].
    assert (Hx' : trainable_ (store_ (backward_seed fake g) x) = false)
      by (rewrite Hst; exact Hx).
    destruct (backward_steps_nontrainable fake
                (rev (nodes_ (backward_seed fake g))) (backward_seed fake g) x Hx')
      as (r & Hr & Hin & Hout).
    exists (backward_loop fake (nodes_ (backward_seed fake g)) (backward_seed fake g)), r.
    split.
    + unfold backward. rewrite bool_decide_eq_false_2 by lia. reflexivity.
    + unfold backward_loop. rewrite Hr, Hrel, <- Hst. repeat split; assumption.
Qed.


(** *** Gradient accumulation *)

Lemma zero_children_val (fake : bool) (ch : list Expr) (g : ExpressionGraph) (q : nat) :
  val_ (store_ (zero_children fake ch g) q) = val_ (store_ g q).
Proof.
  unfold zero_children. revert g. induction ch as [|c ch IH]; intros g; [reflexivity|].
  simpl. rewrite IH. destruct (trainable_ (node g c)); [|reflexivity].
  unfold set_zero_adjoint. rewrite store_on_node.
  destruct (decide (q = ptr c)); [|reflexivity].
  destruct (adj_ (store_ g q)); reflexivity.
Qed.

Lemma backwardOps_spares_grad (v : Expr) (k : nat) (op : NodeOp) (child : Expr) (q : nat) :
  backwardOps v !! k = Some op -> children v !! k = Some child -> ptr child <> q ->
  op_spares (Grad q) op.
Proof.
  intros Hk Hchild Hne c Hc Hout.
  destruct (backwardOps_target v k op c Hk Hc) as (child' & Hchild' & Hout').
  assert (child' = child) by congruence. subst child'.
  apply Hne. congruence.
Qed.

Lemma backwardOps_spares_val (v : Expr) (k : nat) (op : NodeOp) (q : nat) :
  backwardOps v !! k = Some op -> op_spares (Val q) op.
Proof.
  intros Hk c Hc Hout.
  destruct (backwardOps_target v k op c Hk Hc) as (child' & _ & Hout'). congruence.
Qed.

(** A backward operation spares its own inputs when the node is not among
    its own children. *)
Lemma backwardOps_spares_inputs (v : Expr) (i k : nat) (op opk : NodeOp) (c : Call)
  (r : TRef) :
  ~ In (ptr v) (map ptr (children v)) ->
  backwardOps v !! i = Some op -> In c op -> In r (call_ins c) ->
  backwardOps v !! k = Some opk ->
  op_spares r opk.
Proof.
  intros Hself Hi Hc Hr Hk.
  destruct (backwardOps_inputs v i op c r Hi Hc Hr) as [->|[p ->]].
  - intros c' Hc' Hout.
    destruct (backwardOps_target v k opk c' Hk Hc') as (child & Hchild & Hout').
    apply Hself. apply in_map_iff. exists child. split; [congruence|].
    apply list_elem_of_In. eapply list_elem_of_lookup_2. exact Hchild.
  - eapply backwardOps_spares_val. exact Hk.
Qed.

Lemma backwardOps_length (e : Expr) : (length (backwardOps e) <= length (children e))%nat.
Proof.
  destruct e as [p [l|o] ch]; simpl; [lia|].
  assert (Hun : forall k ins, (length (unary_backward k ch ins) <= length ch)%nat).
  { intros k ins. destruct ch; simpl; lia. }
  destruct o; try (apply Hun).
  unfold NodeOps, NodeOp. rewrite length_map. lia.
Qed.

Lemma occurrences_cons (c : Expr) (ch : list Expr) (q : nat) :
  occurrences (c :: ch) q
  = if decide (ptr c = q) then S (occurrences ch q) else occurrences ch q.
Proof.
  unfold occurrences. rewrite filter_cons. destruct (decide (ptr c = q)); reflexivity.
Qed.

Lemma occurrences_none (ch : list Expr) (q : nat) :
  (forall c, In c ch -> ptr c <> q) -> occurrences ch q = 0%nat.
Proof.
  induction ch as [|c ch IH]; intros Hne; [reflexivity|].
  rewrite occurrences_cons, decide_False by (apply Hne; left; reflexivity).
  apply IH. intros c' Hc'. apply Hne. right. exact Hc'.
Qed.

Lemma drop_cons_lookup {A : Type} (l l' : list A) (k : nat) (a : A) :
  drop k l = a :: l' -> l !! k = Some a /\ drop (S k) l = l'.
Proof.
  intros Hd. split.
  - assert (H0 : drop k l !! 0%nat = Some a) by (rewrite Hd; reflexivity).
    rewrite lookup_drop, Nat.add_0_r in H0. exact H0.
  - replace (S k) with (k + 1)%nat by lia. rewrite <- drop_drop, Hd. reflexivity.
Qed.

Section accumulation.

(** The contract of the [Add] kernel: on an allocated output it adds a term,
    computed from the functor and the inputs, to what the output holds. *)
Variable accumulate : TensorBase float -> TensorBase float -> TensorBase float.
Variable gradient_term : Functor -> list Tensor -> TensorBase float.
Hypothesis Add_accumulates :
  forall f t ins, kernel (Add f) (Some t) ins = Some (accumulate t (gradient_term f ins)).

(** [runBackward] at a parent of [x]: every operation at a position of [x]
    adds its term to the gradient of [x], the others leave it alone. *)
Lemma runBackward_from_occurrences (v x : Expr) (f : Functor) (ins : list TRef) (st0 : Store) :
  In (ptr x) (map ptr (children v)) ->
  ~ In (ptr v) (map ptr (children v)) ->
  (forall i c, children v !! i = Some c -> ptr c = ptr x ->
     backwardOps v !! i = Some [mkCall (Add f) (Grad (ptr x)) ins]) ->
  trainable_ (st0 (ptr x)) = true ->
  forall ops chs k st t,
    drop k (backwardOps v) = ops -> drop k (children v) = chs ->
    value_frame st0 st ->
    (forall r, In r ins -> read st r = read st0 r) ->
    adj_ (st (ptr x)) = Some t ->
    adj_ (runBackward_from v ops k st (ptr x))
    = Some (Nat.iter (occurrences chs (ptr x))
              (fun u => accumulate u (gradient_term f (map (read st0) ins))) t).
Proof.
  intros Hxin Hself Hops Htx.
  assert (Hne : ptr x <> ptr v) by (intros Heq; apply Hself; rewrite <- Heq; exact Hxin).
  apply in_map_iff in Hxin. destruct Hxin as (x0 & Hx0 & Hin0).
  apply list_elem_of_In, list_elem_of_lookup_1 in Hin0. destruct Hin0 as [i0 Hi0].
  pose proof (Hops i0 x0 Hi0 Hx0) as Hop0.
  unfold NodeOps, NodeOp in *.
  induction ops as [|op ops IH]; intros chs k st t Hdo Hdc Hf Hreads Hadj.
  - rewrite runBackward_from_nil, occurrences_none; [exact Hadj|].
    intros c Hc Hptr. subst chs.
    apply list_elem_of_In, list_elem_of_lookup_1 in Hc. destruct Hc as [j Hj].
    rewrite lookup_drop in Hj. pose proof (Hops _ c Hj Hptr) as Hop.
    pose proof (f_equal (fun l => l !! j) Hdo) as Hnone. simpl in Hnone.
    rewrite lookup_drop, lookup_nil in Hnone. congruence.
  - apply drop_cons_lookup in Hdo. destruct Hdo as [Hk Hdo'].
    assert (Hlt : (k < length (children v))%nat).
    { pose proof (lookup_lt_Some _ _ _ Hk) as Hlt. pose proof (backwardOps_length v).
      unfold NodeOps, NodeOp in *. lia. }
    destruct (lookup_lt_is_Some_2 _ _ Hlt) as [child Hchild].
    assert (Hdc' : chs = child :: drop (S k) (children v)).
    { subst chs. apply drop_S. exact Hchild. }
    rewrite runBackward_from_cons, Hchild, Hdc', occurrences_cons.
    destruct (decide (ptr child = ptr x)) as [Heq|Hneq].
    + rewrite (Hops k child Hchild Heq) in Hk. injection Hk as <-.
      rewrite Heq, (value_frame_trainable _ _ (ptr x) Hf), Htx.
      rewrite (IH (drop (S k) (children v)) (S k) _
                 (accumulate t (gradient_term f (map (read st0) ins))) Hdo' eq_refl).
      * rewrite Nat.iter_succ_r. reflexivity.
      * eapply value_frame_trans; [exact Hf | apply value_frame_run_op].
      * intros r Hr. rewrite <- (Hreads r Hr). apply run_op_spares.
        intros c [<-|[]] Hout. simpl in Hout. subst r.
        destruct (backwardOps_inputs v i0 _ _ (Grad (ptr x)) Hop0 (or_introl eq_refl) Hr)
          as [Hg|[p' Hv]]; [|discriminate]. injection Hg as Hg. apply Hne. exact Hg.
      * unfold run_op. simpl. unfold run_call. simpl call_out. simpl call_kernel.
        simpl call_ins.
        change (adj_ (?s (ptr x))) with (read s (Grad (ptr x))).
        rewrite read_write_same by discriminate. simpl read at 1. rewrite Hadj.
        rewrite Add_accumulates. do 3 f_equal.
        apply map_ext_in. intros r Hr. apply Hreads. exact Hr.
    + set (st1 := if trainable_ (st (ptr child)) then run_op op st else st).
      assert (Hf1 : value_frame st0 st1).
      { subst st1. destruct (trainable_ (st (ptr child))); [|exact Hf].
        eapply value_frame_trans; [exact Hf | apply value_frame_run_op]. }
      assert (Hsp : forall r, op_spares r op -> read st1 r = read st r).
      { intros r Hr. subst st1. destruct (trainable_ (st (ptr child))); [|reflexivity].
        apply run_op_spares. exact Hr. }
      apply (IH (drop (S k) (children v)) (S k) st1 t Hdo' eq_refl Hf1).
      * intros r Hr. rewrite <- (Hreads r Hr). apply Hsp.
        apply (backwardOps_spares_inputs v i0 k _ op
                 (mkCall (Add f) (Grad (ptr x)) ins) r Hself Hop0 (or_introl eq_refl) Hr Hk).
      * change (adj_ (st1 (ptr x))) with (read st1 (Grad (ptr x))).
        rewrite Hsp; [exact Hadj|].
        eapply backwardOps_spares_grad; [exact Hk | exact Hchild | exact Hneq].
Qed.

Lemma backward_step_occurrences (g : ExpressionGraph) (v x : Expr)
  (f : Functor) (ins : list TRef) :
  In (ptr x) (map ptr (children v)) ->
  ~ In (ptr v) (map ptr (children v)) ->
  (forall i c, children v !! i = Some c -> ptr c = ptr x ->
     backwardOps v !! i = Some [mkCall (Add f) (Grad (ptr x)) ins]) ->
  trainable_ (node g x) = true ->
  trainable_ (node g v) = true ->
  adj_ (node (backward_step false g v) x)
  = Some (Nat.iter (occurrences (children v) (ptr x))
            (fun u => accumulate u (gradient_term f (map (read (store_ g)) ins)))
            (gradient_before g x)).
Proof.
  intros Hxin Hself Hops Htx Htv. unfold node in *.
  assert (Hne : ptr x <> ptr v) by (intros Heq; apply Hself; rewrite <- Heq; exact Hxin).
  rewrite backward_step_store.
  rewrite (bool_decide_eq_false_2 _ Hne), andb_false_r.
  rewrite backward_visit_eq.
  set (g1 := zero_children false (children v) g).
  assert (Hf1 : value_frame (store_ g) (store_ g1)) by apply value_frame_zero_children.
  destruct (release_edges_values v
              (if trainable_ (node g1 v) then node_backward false v g1 else g1) (ptr x))
    as [Ha _].
  rewrite Ha. clear Ha.
  unfold node. rewrite (value_frame_trainable _ _ (ptr v) Hf1), Htv.
  unfold node_backward. simpl store_.
  assert (Hx1 : store_ g1 (ptr x) = zeroed false (store_ g (ptr x)))
    by (apply zero_children_child; assumption).
  assert (Hreads : forall r, In r ins -> read (store_ g1) r = read (store_ g) r).
  { intros r Hr.
    destruct (proj1 (in_map_iff _ _ _) Hxin) as (x0 & Hx0 & Hin0).
    apply list_elem_of_In, list_elem_of_lookup_1 in Hin0. destruct Hin0 as [i0 Hi0].
    pose proof (Hops i0 x0 Hi0 Hx0) as Hop0. unfold NodeOps, NodeOp in *.
    destruct (backwardOps_inputs v i0 _ _ r Hop0 (or_introl eq_refl) Hr) as [->|[p ->]].
    - simpl. subst g1. rewrite zero_children_other by (right; exact Hself). reflexivity.
    - simpl. subst g1. apply zero_children_val. }
  change (runBackward v (backwardOps v) (store_ g1))
    with (runBackward_from v (backwardOps v) 0 (store_ g1)).
  rewrite (runBackward_from_occurrences v x f ins (store_ g1) Hxin Hself Hops
             (eq_trans (value_frame_trainable _ _ (ptr x) Hf1) Htx)
             (backwardOps v) (children v) 0%nat (store_ g1) (gradient_before g x)
             eq_refl eq_refl (value_frame_refl _) (fun r _ => eq_refl)).
  - do 2 f_equal.
    assert (Hmap : map (read (store_ g1)) ins = map (read (store_ g)) ins)
      by (apply map_ext_in; exact Hreads).
    rewrite Hmap. reflexivity.
  - rewrite Hx1. unfold zeroed, gradient_before, node.
    destruct (adj_ (store_ g (ptr x))) as [t|] eqn:Hadj; simpl; [exact Hadj | reflexivity].
Qed.

(** A step of the backward loop at a node that neither has [x] among its
    children nor is [x] with a name of a transient node leaves the gradient of
    [x] as it was. *)
Lemma backward_step_other (fake : bool) (g : ExpressionGraph) (v : Expr) (x : nat) :
  ~ In x (map ptr (children v)) ->
  (ptr v = x -> name_ (store_ g x) <> "none") ->
  adj_ (store_ (backward_step fake g v) x) = adj_ (store_ g x).
Proof.
  intros Hnin Hname.
  assert (Hvis : adj_ (store_ (backward_visit fake g v) x) = adj_ (store_ g x)).
  { rewrite backward_visit_eq.
    set (g1 := zero_children fake (children v) g).
    destruct (release_edges_values v
                (if trainable_ (node g1 v) then node_backward fake v g1 else g1) x)
      as [Ha _].
    rewrite Ha. clear Ha.
    assert (Hz : store_ g1 x = store_ g x) by (apply zero_children_other; right; exact Hnin).
    destruct (trainable_ (node g1 v)); [|rewrite Hz; reflexivity].
    unfold node_backward. destruct fake; [rewrite Hz; reflexivity|]. simpl store_.
    change (adj_ (runBackward v (backwardOps v) (store_ g1) x))
      with (read (runBackward_from v (backwardOps v) 0 (store_ g1)) (Grad x)).
    rewrite runBackward_from_spares; [simpl; rewrite Hz; reflexivity|].
    intros k op child Hk Hchild _. simpl in Hchild.
    eapply backwardOps_spares_grad; [exact Hk | exact Hchild |].
    intros Heq. apply Hnin. rewrite <- Heq. apply in_map.
    apply list_elem_of_In. eapply list_elem_of_lookup_2. exact Hchild. }
  rewrite backward_step_store.
  destruct (releasable (backward_visit fake g v) v) eqn:Hrel; simpl; [|exact Hvis].
  destruct (bool_decide (x = ptr v)) eqn:Hbd; [|exact Hvis].
  exfalso. apply bool_decide_eq_true_1 in Hbd. apply (Hname (eq_sym Hbd)).
  apply releasable_spec in Hrel. destruct Hrel as [_ Hn]. unfold node in Hn.
  rewrite <- Hbd in Hn.
  rewrite (pass_frame_name _ _ x (pass_frame_backward_visit fake g v)) in Hn. exact Hn.
Qed.

Lemma backward_steps_other (fake : bool) (l : list Expr) (g : ExpressionGraph) (x : nat) :
  (forall v, In v l -> ~ In x (map ptr (children v))) ->
  ((exists v, In v l /\ ptr v = x) -> name_ (store_ g x) <> "none") ->
  adj_ (store_ (fold_left (backward_step fake) l g) x) = adj_ (store_ g x).
Proof.
  revert g. induction l as [|v l IH]; intros g Hnin Hname; [reflexivity|].
  simpl fold_left. rewrite IH.
  - apply backward_step_other.
    + apply Hnin. left. reflexivity.
    + intros Heq. apply Hname. exists v. split; [left; reflexivity | exact Heq].
  - intros v' Hv'. apply Hnin. right. exact Hv'.
  - intros (v' & Hv' & Heq).
    rewrite (pass_frame_name _ _ x (pass_frame_backward_step fake g v)).
    apply Hname. exists v'. split; [right; exact Hv' | exact Heq].
Qed.

Lemma fold_nodes_hit (F : Node -> Node) (l : list Expr) (g : ExpressionGraph) (q : nat) :
  (forall n, F (F n) = F n) ->
  In q (map ptr l) ->
  store_ (fold_left (fun g p => on_node (ptr p) F g) l g) q = F (store_ g q).
Proof.
  intros Hidem. revert g. induction l as [|e l IH]; intros g Hin; [destruct Hin|].
  simpl fold_left.
  destruct (in_dec Nat.eq_dec q (map ptr l)) as [Hin'|Hnin].
  - rewrite IH by exact Hin'. rewrite store_on_node.
    destruct (decide (q = ptr e)); [apply Hidem | reflexivity].
  - rewrite fold_nodes_other by exact Hnin. rewrite store_on_node.
    destruct Hin as [Heq|Hin]; [|contradiction].
    rewrite decide_True by (symmetry; exact Heq). reflexivity.
Qed.

(** The gradient of a node that is no top node after the seeding of
    [backward]: untouched if the node is no parameter, zeros if it is one. *)
Lemma backward_seed_gradient (g : ExpressionGraph) (x : nat) :
  x ∉ topNodes_ g ->
  (adj_ (store_ g x) = None /\ ~ In x (map ptr (Parameters_list g))) \/
  (In x (map ptr (Parameters_list g)) /\
   forall t, adj_ (store_ g x) = Some t -> tshape_ t = shape_ (store_ g x)) ->
  adj_ (store_ (backward_seed false g) x) = None \/
  adj_ (store_ (backward_seed false g) x)
  = Some (tensor_filled fzero (shape_ (store_ g x))).
Proof.
  intros Htop Hcase. unfold backward_seed.
  destruct (same_tables_params_zero false (Parameters_allocateBackward false g))
    as (_ & _ & _ & _ & _ & _ & Ht1 & Hp1 & _).
  destruct (same_tables_allocateBackward false g)
    as (_ & _ & _ & _ & _ & _ & Ht2 & Hp2 & _).
  rewrite fold_init_dependent_other.
  2:{ rewrite Ht1, Ht2. intros Hin. apply Htop. apply elem_of_elements.
      apply list_elem_of_In. exact Hin. }
  unfold Parameters_set_zero_adjoint, Parameters_allocateBackward.
  assert (Hl : Parameters_list (Parameters_allocateBackward false g) = Parameters_list g).
  { unfold Parameters_list. rewrite Hp2. reflexivity. }
  fold (Parameters_allocateBackward false g). rewrite Hl.
  unfold Parameters_allocateBackward.
  destruct Hcase as [[Hnone Hnin]|[Hin Hshape]].
  - left. rewrite !fold_nodes_other by exact Hnin. exact Hnone.
  - right.
    rewrite fold_nodes_hit;
      [|intros n; destruct (adj_ n) eqn:Ha; simpl; [|rewrite Ha]; reflexivity|exact Hin].
    rewrite fold_nodes_hit;
      [|intros n; destruct (adj_ n) eqn:Ha; simpl; [rewrite Ha|]; reflexivity|exact Hin].
    destruct (adj_ (store_ g x)) as [t|] eqn:Hadj; simpl.
    + rewrite Hadj. simpl. rewrite (Hshape t eq_refl). reflexivity.
    + reflexivity.
Qed.

(** C1 (as amended): in a graph with at most one top node, [x] is a
    trainable node, no top node, whose gradient is not there yet or which is a
    parameter; in the node list its only parents are [p] and, before it, [q],
    both trainable, each with an [Add] operation for every place [x] has
    among its children.  Then [backward] returns; and from the visit of the
    second parent [q] until [x] itself is visited, and to the end of the pass
    if [x] has a name of its own, the gradient of [x] is zeros, plus the term
    of [p] computed when [p] was visited, once for every place of [x] among
    the children of [p], plus the term of [q] computed when [q] was visited,
    once for every place of [x] among the children of [q]: the second parent
    adds to what the first one left. *)
Theorem gradient_accumulation (g : ExpressionGraph) (x p q : Expr)
  (l1 l2 l3 : list Expr) (fp fq : Functor) (insp insq : list TRef) :
  nodes_ g = l1 ++ q :: l2 ++ p :: l3 ->
  (size (topNodes_ g) <= 1)%nat ->
  ptr x ∉ topNodes_ g ->
  In (ptr x) (map ptr (children p)) ->
  In (ptr x) (map ptr (children q)) ->
  (forall v, In v (l1 ++ l2 ++ l3) -> ~ In (ptr x) (map ptr (children v))) ->
  ~ In (ptr p) (map ptr (children p)) ->
  ~ In (ptr q) (map ptr (children q)) ->
  (forall i c, children p !! i = Some c -> ptr c = ptr x ->
     backwardOps p !! i = Some [mkCall (Add fp) (Grad (ptr x)) insp]) ->
  (forall i c, children q !! i = Some c -> ptr c = ptr x ->
     backwardOps q !! i = Some [mkCall (Add fq) (Grad (ptr x)) insq]) ->
  trainable_ (node g x) = true ->
  trainable_ (node g p) = true ->
  trainable_ (node g q) = true ->
  (adj_ (node g x) = None /\ ~ In (ptr x) (map ptr (Parameters_list g))) \/
  (In (ptr x) (map ptr (Parameters_list g)) /\
   forall t, adj_ (node g x) = Some t -> tshape_ t = shape_ (node g x)) ->
  exists g' total,
    backward false g = Ok g' /\
    total
    = Nat.iter (occurrences (children q) (ptr x))
        (fun u => accumulate u
           (gradient_term fq
              (map (read (store_ (backward_loop false (l2 ++ p :: l3)
                                    (backward_seed false g)))) insq)))
        (Nat.iter (occurrences (children p) (ptr x))
           (fun u => accumulate u
              (gradient_term fp
                 (map (read (store_ (backward_loop false l3 (backward_seed false g))))
                    insp)))
           (tensor_filled fzero (shape_ (node g x)))) /\
    (forall la lb,
       l1 = la ++ lb ->
       name_ (node g x) <> "none" \/ ~ In (ptr x) (map ptr (lb ++ l2 ++ l3)) ->
       g' = fold_left (backward_step false) (rev la)
              (backward_loop false (lb ++ q :: l2 ++ p :: l3) (backward_seed false g)) /\
       adj_ (node (backward_loop false (lb ++ q :: l2 ++ p :: l3) (backward_seed false g)) x)
       = Some total) /\
    (name_ (node g x) <> "none" -> adj_ (node g' x) = Some total).
Proof.
  intros Hnodes Hsize Htop Hxp Hxq Hothers Hselfp Hselfq Hopp Hopq Htx Htp Htq Hfresh.
  unfold node in *.
  set (g0 := backward_seed false g).
  assert (Hback : backward false g = Ok (backward_loop false (nodes_ g) g0)).
  { unfold backward. rewrite bool_decide_eq_false_2 by lia.
    destruct (same_tables_backward_seed false g) as (_ & Hn & _).
    fold g0. fold g0 in Hn. rewrite Hn. reflexivity. }
  exists (backward_loop false (nodes_ g) g0). eexists.
  split; [exact Hback|]. split; [reflexivity|].
  pose proof (value_frame_backward_seed false g) as Hf0. fold g0 in Hf0.
  assert (Hstatic : forall l y,
            trainable_ (store_ (fold_left (backward_step false) l g0) y)
            = trainable_ (store_ g y) /\
            name_ (store_ (fold_left (backward_step false) l g0) y) = name_ (store_ g y) /\
            shape_ (store_ (fold_left (backward_step false) l g0) y) = shape_ (store_ g y)).
  { intros l y. pose proof (pass_frame_steps false l g0) as Hpf.
    rewrite (pass_frame_trainable _ _ y Hpf), (pass_frame_name _ _ y Hpf),
      (pass_frame_shape _ _ y Hpf).
    rewrite (value_frame_trainable _ _ y Hf0), (value_frame_name _ _ y Hf0),
      (value_frame_shape _ _ y Hf0). repeat split. }
  set (gp := backward_loop false l3 g0).
  set (gq := backward_loop false (l2 ++ p :: l3) g0).
  assert (Hgq : gq = fold_left (backward_step false) (rev l2) (backward_step false gp p)).
  { subst gq gp. unfold backward_loop. rewrite rev_app_distr. simpl rev.
    rewrite <- app_assoc, !fold_left_app. reflexivity. }
  assert (Hmain : forall la lb,
            l1 = la ++ lb ->
            name_ (store_ g (ptr x)) <> "none" \/ ~ In (ptr x) (map ptr (lb ++ l2 ++ l3)) ->
            backward_loop false (nodes_ g) g0
            = fold_left (backward_step false) (rev la)
                (backward_loop false (lb ++ q :: l2 ++ p :: l3) g0) /\
            adj_ (store_ (backward_loop false (lb ++ q :: l2 ++ p :: l3) g0) (ptr x))
            = Some (Nat.iter (occurrences (children q) (ptr x))
                      (fun u => accumulate u (gradient_term fq (map (read (store_ gq)) insq)))
                      (Nat.iter (occurrences (children p) (ptr x))
                         (fun u => accumulate u
                                     (gradient_term fp (map (read (store_ gp)) insp)))
                         (tensor_filled fzero (shape_ (store_ g (ptr x))))))).
  { intros la lb Hl1 Hcase. split.
    { unfold backward_loop. rewrite Hnodes, Hl1, <- app_assoc, rev_app_distr.
      rewrite fold_left_app. reflexivity. }
    assert (Hlb : backward_loop false (lb ++ q :: l2 ++ p :: l3) g0
                  = fold_left (backward_step false) (rev lb) (backward_step false gq q)).
    { rewrite Hgq. subst gp. unfold backward_loop.
      rewrite rev_app_distr. simpl rev. rewrite rev_app_distr. simpl rev.
      rewrite <- !app_assoc, !fold_left_app. reflexivity. }
    assert (Hnm : forall l, (forall v, In v l -> In v (lb ++ l2 ++ l3)) ->
                            (exists v, In v l /\ ptr v = ptr x) ->
                            name_ (store_ g (ptr x)) <> "none").
    { intros l Hsub (v & Hv & Hptr). destruct Hcase as [Hname|Hnin]; [exact Hname|].
      exfalso. apply Hnin. rewrite <- Hptr. apply in_map. apply Hsub. exact Hv. }
    assert (Hin3 : forall v, In v (rev l3) -> ~ In (ptr x) (map ptr (children v))).
    { intros v Hv. apply Hothers. apply in_rev in Hv. rewrite !in_app_iff. auto. }
    assert (Hin2 : forall v, In v (rev l2) -> ~ In (ptr x) (map ptr (children v))).
    { intros v Hv. apply Hothers. apply in_rev in Hv. rewrite !in_app_iff. auto. }
    assert (Hinb : forall v, In v (rev lb) -> ~ In (ptr x) (map ptr (children v))).
    { intros v Hv. apply Hothers. apply in_rev in Hv. rewrite Hl1, !in_app_iff. auto. }
    (* the seeding and the nodes after [p] *)
    assert (Hadjp : adj_ (store_ gp (ptr x)) = None \/
                    adj_ (store_ gp (ptr x))
                    = Some (tensor_filled fzero (shape_ (store_ g (ptr x))))).
    { subst gp. unfold backward_loop.
      rewrite backward_steps_other; [|exact Hin3|].
      - subst g0. apply backward_seed_gradient; assumption.
      - intros Hex. rewrite (value_frame_name _ _ _ Hf0). apply (Hnm (rev l3)); [|exact Hex].
        intros v Hv. apply in_rev in Hv. rewrite !in_app_iff. auto. }
    assert (Hbefore : gradient_before gp x = tensor_filled fzero (shape_ (store_ g (ptr x)))).
    { unfold gradient_before, node. destruct Hadjp as [Ha|Ha]; rewrite Ha; [|reflexivity].
      subst gp. unfold backward_loop. rewrite (proj2 (proj2 (Hstatic (rev l3) (ptr x)))).
      reflexivity. }
    (* the visit of [p] *)
    assert (Hstepp : adj_ (store_ (backward_step false gp p) (ptr x))
                     = Some (Nat.iter (occurrences (children p) (ptr x))
                               (fun u => accumulate u
                                           (gradient_term fp (map (read (store_ gp)) insp)))
                               (tensor_filled fzero (shape_ (store_ g (ptr x)))))).
    { rewrite <- Hbefore.
      apply (backward_step_occurrences gp p x fp insp Hxp Hselfp Hopp).
      - subst gp. unfold backward_loop, node. rewrite (proj1 (Hstatic (rev l3) (ptr x))).
        exact Htx.
      - subst gp. unfold backward_loop, node. rewrite (proj1 (Hstatic (rev l3) (ptr p))).
        exact Htp. }
    (* the nodes between [p] and [q] *)
    assert (Hnamep : forall y, name_ (store_ (backward_step false gp p) y)
                               = name_ (store_ g y)).
    { intros y. rewrite (pass_frame_name _ _ y (pass_frame_backward_step false gp p)).
      subst gp. unfold backward_loop. apply (Hstatic (rev l3) y). }
    assert (Hadjq : adj_ (store_ gq (ptr x))
                    = Some (Nat.iter (occurrences (children p) (ptr x))
                              (fun u => accumulate u
                                          (gradient_term fp (map (read (store_ gp)) insp)))
                              (tensor_filled fzero (shape_ (store_ g (ptr x)))))).
    { rewrite Hgq. rewrite backward_steps_other; [exact Hstepp|exact Hin2|].
      intros Hex. rewrite Hnamep. apply (Hnm (rev l2)); [|exact Hex].
      intros v Hv. apply in_rev in Hv. rewrite !in_app_iff. auto. }
    assert (Hstaticq : forall y, trainable_ (store_ gq y) = trainable_ (store_ g y) /\
                                 name_ (store_ gq y) = name_ (store_ g y)).
    { intros y. subst gq. unfold backward_loop.
      destruct (Hstatic (rev (l2 ++ p :: l3)) y) as (H1 & H2 & _). split; assumption. }
    (* the visit of [q] and the nodes before it *)
    rewrite Hlb. rewrite backward_steps_other; [|exact Hinb|].
    - change (adj_ (store_ (backward_step false gq q) (ptr x)))
        with (adj_ (node (backward_step false gq q) x)).
      rewrite (backward_step_occurrences gq q x fq insq Hxq Hselfq Hopq).
      + unfold gradient_before, node. rewrite Hadjq. reflexivity.
      + unfold node. rewrite (proj1 (Hstaticq (ptr x))). exact Htx.
      + unfold node. rewrite (proj1 (Hstaticq (ptr q))). exact Htq.
    - intros Hex. rewrite (pass_frame_name _ _ _ (pass_frame_backward_step false gq q)).
      rewrite (proj2 (Hstaticq (ptr x))). apply (Hnm (rev lb)); [|exact Hex].
      intros v Hv. apply in_rev in Hv. rewrite !in_app_iff. auto. }
  split.
  - intros la lb Hl1 Hcase. apply (Hmain la lb Hl1 Hcase).
  - intros Hname. destruct (Hmain [] l1 eq_refl (or_introl Hname)) as [Heq Hadj].
    simpl in Heq. rewrite Heq. exact Hadj.
Qed.

End accumulation.


(** *** Saving and loading parameters *)

Lemma to_unsigned_small (z : Z) : 0 <= z < 2 ^ 31 -> to_unsigned z = z.
Proof. intros Hz. unfold to_unsigned. apply Z.mod_small. lia. Qed.

Lemma to_int_small (z : Z) : 0 <= z < 2 ^ 31 -> to_int z = z.
Proof.
  intros Hz. unfold to_int. rewrite Z.mod_small by lia.
  destruct (Z.ltb_spec z (2 ^ 31)); [reflexivity | lia].
Qed.

Lemma save_param_roundtrip (g : ExpressionGraph) (p : Expr) (t : TensorBase float) :
  matrix_shape (shape_ (node g p)) ->
  val_ (node g p) = Some t ->
  length (data_ t) = Z.to_nat (elements_of (shape_ (node g p))) ->
  load_shape (npy_shape (save_param g p)) = shape_ (node g p) /\
  npy_data (save_param g p) = data_ t.
Proof.
  intros (H2 & H3 & H0 & H1) Hval Hlen. unfold save_param. rewrite Hval. simpl tensor_values.
  destruct (shape_ (node g p)) as [d0 d1 d2 d3]. simpl in *. subst d2 d3.
  unfold elements_of in Hlen. simpl in Hlen.
  destruct (Z.eqb_spec d0 1) as [->|Hne]; unfold npz_save; simpl.
  - rewrite to_unsigned_small, to_int_small by lia. split; [reflexivity|].
    apply take_ge. rewrite Hlen. lia.
  - rewrite !to_unsigned_small, !to_int_small by lia. split; [reflexivity|].
    apply take_ge. rewrite Hlen. lia.
Qed.

Lemma param_creates (name : string) (shape : Shape) (init : option (list float))
  (g : ExpressionGraph) :
  (forall a b, leaf_hash a = leaf_hash b -> a = b) ->
  loading g ->
  params_ g !! name = None ->
  exists e g',
    param name shape true init g = Ok (e, g') /\
    loading g' /\
    params_ g' = <[name := e]> (params_ g) /\
    (next_ g <= next_ g')%nat /\
    shape_ (node g' e) = shape /\ init_ (node g' e) = init /\
    (forall q, (q < next_ g)%nat -> store_ g' q = store_ g q).
Proof.
  intros Hinj (Hnamed & Hhash & Hpar) Hnone.
  set (e := mkExpr (next_ g) (Leaf ParamNode) []).
  unfold param, Parameters_get. rewrite Hnone. unfold get. rewrite Hnone, Hnamed, lookup_empty.
  assert (Hex : Expression (NewParam shape true init) g
                = Ok (add e (constructed (NewParam shape true init) shape g)))
    by reflexivity.
  rewrite Hex. clear Hex.
  set (g2 := constructed (NewParam shape true init) shape g).
  destruct (constructed_tables (NewParam shape true init) shape g)
    as (Hst & Hn & Hc & Hnx & Hhm & Hpm & Hnm).
  fold g2 in Hst, Hn, Hc, Hnx, Hhm, Hpm, Hnm. clearbody g2.
  assert (Hhash_e : hash e (store_ g2) = (leaf_hash (next_ g), store_ g2)) by reflexivity.
  assert (Hmiss : hashMap_ g2 !! fst (hash e (store_ g2)) = None).
  { rewrite Hhash_e. simpl fst. rewrite Hhm.
    destruct (hashMap_ g !! leaf_hash (next_ g)) as [e'|] eqn:Hl; [|reflexivity].
    destruct (Hhash _ _ Hl) as (q & Hq & Heq). apply Hinj in Heq. lia. }
  rewrite (add_miss e g2 Hmiss), Hhash_e. simpl fst. simpl snd.
  set (g3 := add_new (leaf_hash (next_ g)) e (set_store (store_ g2) g2)).
  destruct (add_new_tables (leaf_hash (next_ g)) e (set_store (store_ g2) g2))
    as (_ & _ & _ & Hhm3 & Hnm3 & _ & Hpm3 & Hnx3 & _).
  fold g3 in Hhm3, Hnm3, Hpm3, Hnx3.
  assert (Hst3 : store_ g3 = upd (next_ g) (set_id (count_ g2)) (store_ g2)).
  { subst g3. unfold add_new. simpl.
    destruct (Z.leb (Z.of_nat (length (tapes_ g2))) 0); reflexivity. }
  clearbody g3.
  exists e, (Parameters_add e name (set_name e name g3)).
  split; [reflexivity|]. split; [|split; [|split; [|split; [|split]]]].
  - split; [|split]; simpl.
    + rewrite Hnm3. simpl. rewrite Hnm. exact Hnamed.
    + intros h e' Hl. rewrite Hhm3 in Hl. simpl in Hl. rewrite Hhm in Hl.
      rewrite Hnx3. simpl. rewrite Hnx.
      apply lookup_insert_Some in Hl. destruct Hl as [[<- _]|[_ Hl]].
      * exists (next_ g). split; [lia | reflexivity].
      * destruct (Hhash _ _ Hl) as (q & Hq & Heq). exists q. split; [lia | exact Heq].
    + intros n e' Hl. rewrite Hpm3 in Hl. simpl in Hl. rewrite Hpm in Hl.
      rewrite Hnx3. simpl. rewrite Hnx.
      apply lookup_insert_Some in Hl. destruct Hl as [[_ <-]|[_ Hl]].
      * simpl. lia.
      * pose proof (Hpar _ _ Hl). lia.
  - simpl. rewrite Hpm3. simpl. rewrite Hpm. reflexivity.
  - simpl. rewrite Hnx3. simpl. rewrite Hnx. lia.
  - unfold node. simpl. rewrite upd_same, Hst3, upd_same, Hst, upd_same. reflexivity.
  - unfold node. simpl. rewrite upd_same, Hst3, upd_same, Hst, upd_same. reflexivity.
  - intros q Hq. simpl. rewrite upd_other by lia. rewrite Hst3, upd_other by lia.
    rewrite Hst, upd_other by lia. reflexivity.
Qed.

Lemma load_arrays_creates (l : list (string * NpyArray)) (g : ExpressionGraph) :
  (forall a b, leaf_hash a = leaf_hash b -> a = b) ->
  NoDup (map fst l) ->
  loading g ->
  (forall n, In n (map fst l) -> params_ g !! n = None) ->
  exists g',
    load_arrays l (Ok g) = Ok g' /\
    loading g' /\
    (next_ g <= next_ g')%nat /\
    (forall q, (q < next_ g)%nat -> store_ g' q = store_ g q) /\
    (forall n, ~ In n (map fst l) -> params_ g' !! n = params_ g !! n) /\
    (forall n a, In (n, a) l ->
       exists e, params_ g' !! n = Some e /\
                 shape_ (node g' e) = load_shape (npy_shape a) /\
                 init_ (node g' e) = Some (npy_data a)).
Proof.
  intros Hinj. revert g. induction l as [|[n0 a0] l IH]; intros g Hnd Hload Hfree.
  - exists g. repeat split; try reflexivity; try exact (proj1 Hload);
      try exact (proj1 (proj2 Hload)); try exact (proj2 (proj2 Hload)).
    intros n a [].
  - simpl in Hnd. apply NoDup_cons in Hnd. destruct Hnd as [Hn0 Hnd].
    destruct (param_creates n0 (load_shape (npy_shape a0)) (Some (npy_data a0)) g Hinj Hload)
      as (e & g1 & Hpar & Hload1 & Hparams1 & Hnx1 & Hshape1 & Hinit1 & Hold1).
    { apply Hfree. left. reflexivity. }
    destruct (IH g1 Hnd Hload1) as (g' & Hfold & Hload' & Hnx' & Hold' & Hkeep & Hall).
    { intros n Hn. rewrite Hparams1. rewrite lookup_insert_ne.
      - apply Hfree. right. exact Hn.
      - intros <-. apply Hn0. apply list_elem_of_In. exact Hn. }
    exists g'. unfold load_arrays in *. simpl fold_left. rewrite Hpar.
    split; [exact Hfold|]. split; [exact Hload'|]. split; [lia|].
    split; [|split].
    + intros q Hq. rewrite Hold' by lia. apply Hold1. exact Hq.
    + intros n Hn. rewrite Hkeep by (intros Hin; apply Hn; right; exact Hin).
      rewrite Hparams1. apply lookup_insert_ne. intros <-. apply Hn. left. reflexivity.
    + intros n a [Heq|Hin].
      * injection Heq as <- <-. exists e.
        assert (Hn0' : ~ In n0 (map fst l)).
        { intros Hin. apply Hn0. apply list_elem_of_In. exact Hin. }
        rewrite (Hkeep n0 Hn0'), Hparams1, lookup_insert_eq.
        split; [reflexivity|].
        assert (Hptr : (ptr e < next_ g1)%nat).
        { destruct Hload1 as (_ & _ & Hp). apply (Hp n0). rewrite Hparams1.
          apply lookup_insert_eq. }
        unfold node in *. rewrite (Hold' _ Hptr). split; assumption.
      * apply Hall. exact Hin.
Qed.

(** C7 (as amended): for a parameter whose shape is [(row, col, 1, 1)] (with
    extents that are valid sizes) and whose value holds as many elements as
    the shape spans, [save] stores a one-dimensional array of length [col]
    when [row] is 1 and a two-dimensional [(row, col)] array otherwise, [load]
    makes the shape of the parameter of it again, and the array holds the
    values of the parameter; and [load] of a saved archive into a new graph
    (the address hash having no collisions) returns, and gives every name of
    the archive a parameter whose shape is the one [load] makes of the array
    and whose initialiser is the array's values. *)
Theorem save_load_roundtrip (g : ExpressionGraph) :
  (forall name p t,
     params_ g !! name = Some p ->
     matrix_shape (shape_ (node g p)) ->
     val_ (node g p) = Some t ->
     length (data_ t) = Z.to_nat (elements_of (shape_ (node g p))) ->
     save g !! name = Some (save_param g p) /\
     npy_shape (save_param g p)
     = (if Z.eqb (dim0 (shape_ (node g p))) 1 then [dim1 (shape_ (node g p))]
        else [dim0 (shape_ (node g p)); dim1 (shape_ (node g p))]) /\
     load_shape (npy_shape (save_param g p)) = shape_ (node g p) /\
     npy_data (save_param g p) = data_ t) /\
  ((forall a b, leaf_hash a = leaf_hash b -> a = b) ->
   exists g',
     load (save g) ExpressionGraph_new = Ok g' /\
     forall name p, params_ g !! name = Some p ->
       exists p', params_ g' !! name = Some p' /\
                  shape_ (node g' p') = load_shape (npy_shape (save_param g p)) /\
                  init_ (node g' p') = Some (npy_data (save_param g p))).
Proof.
  split.
  - intros name p t Hp Hm Hval Hlen.
    destruct (save_param_roundtrip g p t Hm Hval Hlen) as [Hshape Hdata].
    split; [unfold save; rewrite lookup_fmap, Hp; reflexivity|].
    split; [|split; assumption].
    destruct Hm as (_ & _ & H0 & H1). unfold save_param.
    destruct (shape_ (node g p)) as [d0 d1 d2 d3]. simpl in *.
    destruct (Z.eqb d0 1); unfold npz_save; simpl; rewrite ?to_unsigned_small by lia;
      reflexivity.
  - intros Hinj.
    assert (Hperm : npz_arrays (save g) ≡ₚ map_to_list (save g))
      by apply merge_sort_Permutation.
    destruct (load_arrays_creates (npz_arrays (save g)) ExpressionGraph_new Hinj)
      as (g' & Hload & _ & _ & _ & _ & Hall).
    + assert (Hnames : map fst (npz_arrays (save g)) ≡ₚ map fst (map_to_list (save g)))
        by (apply Permutation_map; exact Hperm).
      rewrite Hnames. apply NoDup_fst_map_to_list.
    + split; [reflexivity|]. split; intros ? ? Hl; simpl in Hl; rewrite lookup_empty in Hl;
        discriminate.
    + intros n _. reflexivity.
    + exists g'. split; [exact Hload|].
      intros name p Hp. apply Hall.
      apply (Permutation_in _ (Permutation_sym Hperm)).
      apply list_elem_of_In. apply elem_of_map_to_list.
      unfold save. rewrite lookup_fmap, Hp. reflexivity.
Qed.


(** *** Hashing is stable under memoisation *)

Lemma subterms_self (e : Expr) : In e (subterms e).
Proof. destruct e. left. reflexivity. Qed.

Lemma subterms_child (p : nat) (ty : NodeType) (ch : list Expr) (c u : Expr) :
  In c ch -> In u (subterms c) -> In u (subterms (mkExpr p ty ch)).
Proof.
  intros Hc Hu. simpl. right. apply in_flat_map. exists c. split; assumption.
Qed.

Lemma size_child (p : nat) (ty : NodeType) (ch : list Expr) (c : Expr) :
  In c ch -> (size_of c < size_of (mkExpr p ty ch))%nat.
Proof.
  intros Hc. simpl. apply Nat.lt_succ_r.
  induction ch as [|c' ch IH]; [destruct Hc|]. simpl.
  destruct Hc as [->|Hc]; [lia|]. specialize (IH Hc). lia.
Qed.

Lemma subterms_size (e u : Expr) : In u (subterms e) -> (size_of u <= size_of e)%nat.
Proof.
  revert u. induction e as [p ty ch IH] using Expr_ind'. intros u Hu.
  simpl in Hu. destruct Hu as [<-|Hu]; [lia|].
  apply in_flat_map in Hu. destruct Hu as (c & Hc & Hu).
  rewrite Forall_forall in IH.
  pose proof (IH c (proj2 (list_elem_of_In _ _) Hc) u Hu).
  pose proof (size_child p ty ch c Hc). lia.
Qed.

Lemma subterm_of_child_differs (p : nat) (ty : NodeType) (ch : list Expr) (c u : Expr) :
  In c ch -> In u (subterms c) -> u <> mkExpr p ty ch.
Proof.
  intros Hc Hu Heq. pose proof (subterms_size c u Hu). pose proof (size_child p ty ch c Hc).
  rewrite Heq in *. lia.
Qed.

Lemma Expr_eq_dec_ptr (u t : Expr) : {ptr u = ptr t} + {ptr u <> ptr t}.
Proof. apply Nat.eq_dec. Qed.

Lemma memo_ext_refl (U : Expr -> Prop) (st : Store) : memo_ext U st st.
Proof. intros t _. split; [reflexivity|]. split; [reflexivity|]. left. assumption. Qed.

Lemma memo_ext_sub (U U' : Expr -> Prop) (st st' : Store) :
  (forall t, U' t -> U t) -> memo_ext U st st' -> memo_ext U' st st'.
Proof. intros Hsub Hext t Ht. apply Hext, Hsub, Ht. Qed.

Lemma memo_ext_same (U : Expr -> Prop) (st st1 st2 : Store) :
  memo_ext U st st1 -> same_memos U st1 st2 -> memo_ext U st st2.
Proof.
  intros Hext Hsame t Ht. destruct (Hext t Ht) as (Hn & Hk & Hz).
  destruct (Hsame t Ht) as [Hn' Hh']. rewrite Hn', Hh'. auto.
Qed.

Lemma same_memos_upd_fresh (U : Expr -> Prop) (p : nat) (f : Node -> Node) (st : Store) :
  (forall t, U t -> ptr t <> p) -> same_memos U st (upd p f st).
Proof. intros Hfresh t Ht. rewrite upd_other by (apply Hfresh, Ht). split; reflexivity. Qed.

Lemma hash_children_stable (ch : list Expr) :
  Forall hash_stable ch ->
  forall U st st' seed, coherent U ->
    (forall c u, In c ch -> In u (subterms c) -> U u) ->
    memo_ext U st st' ->
    fst (fold_left hash_child ch (seed, st'))
    = fold_left (fun s c => hash_combine s (hash_value (fst (hash c st)))) ch seed /\
    memo_ext U st (snd (fold_left hash_child ch (seed, st'))).
Proof.
  induction 1 as [|c ch Hc _ IH]; intros U st st' seed Hco Hsub Hext.
  - simpl. split; [reflexivity | exact Hext].
  - simpl fold_left.
    destruct (Hc U st st' Hco (fun u Hu => Hsub c u (or_introl eq_refl) Hu) Hext)
      as [Hv Hext1].
    destruct (hash c st') as [h st1]. simpl in Hv, Hext1. subst h.
    apply IH; [exact Hco | | exact Hext1].
    intros c' u Hc' Hu. apply (Hsub c' u); [right; exact Hc' | exact Hu].
Qed.

(** A node with an empty memo, whose address no node of [U] has: its hash in
    a store that extends [st] is a function of the hashes of its children in
    [st]. *)
Lemma hash_fresh_node (p : nat) (o : OpType) (ch : list Expr) :
  Forall hash_stable ch ->
  forall U st st', coherent U ->
    (forall c u, In c ch -> In u (subterms c) -> U u) ->
    (forall t, U t -> ptr t <> p) ->
    memo_ext U st st' ->
    hash_ (st' p) = 0 ->
    fst (hash (mkExpr p (Op o) ch) st') = hash_of_children (name_ (st' p)) o ch st /\
    memo_ext U st (snd (hash (mkExpr p (Op o) ch) st')).
Proof.
  intros Hch U st st' Hco Hsub Hfresh Hext Hmemo.
  rewrite hash_eq, Hmemo. simpl Z.eqb. cbv iota.
  destruct (hash_children_stable ch Hch U st st'
              (hash_combine (hash_string (name_ (st' p))) (hash_string (type o)))
              Hco Hsub Hext) as [Hseed Hext1].
  destruct (fold_left hash_child ch _) as [sd st1]. simpl in Hseed, Hext1.
  unfold hash_of_children. rewrite <- Hseed. clear Hseed.
  assert (Hext2 : memo_ext U st (upd p (set_hash sd) st1)).
  { eapply memo_ext_same; [exact Hext1 | apply same_memos_upd_fresh, Hfresh]. }
  unfold hash_own.
  destruct o; try (split; [reflexivity | exact Hext2]).
  destruct ch as [|c0 [|m [|c2 ch']]]; try (split; [reflexivity | exact Hext2]).
  assert (Hm : hash_stable m).
  { rewrite Forall_forall in Hch. apply Hch. apply list_elem_of_In. right. left. reflexivity. }
  destruct (Hm U st (upd p (set_hash sd) st1) Hco) as [Hv Hext3].
  { intros u Hu. apply (Hsub m u); [right; left; reflexivity | exact Hu]. }
  { exact Hext2. }
  destruct (hash m (upd p (set_hash sd) st1)) as [hm st2]. simpl in Hv, Hext3.
  rewrite <- Hv.
  split; [reflexivity|].
  eapply memo_ext_same; [exact Hext3 | apply same_memos_upd_fresh, Hfresh].
Qed.

Lemma hash_memo_written (p : nat) (o : OpType) (ch : list Expr) (st : Store) :
  hash_ (st p) = 0 ->
  hash_ (snd (hash (mkExpr p (Op o) ch) st) p) = fst (hash (mkExpr p (Op o) ch) st).
Proof.
  intros Hmemo. rewrite hash_eq, Hmemo. simpl Z.eqb. cbv iota.
  destruct (fold_left hash_child ch _) as [seed st1].
  unfold hash_own.
  destruct o; try (simpl; rewrite upd_same; reflexivity).
  destruct ch as [|c0 [|m [|c2 ch']]]; try (simpl; rewrite upd_same; reflexivity).
  destruct (hash m _) as [hm st2]. simpl. rewrite upd_same. reflexivity.
Qed.

Lemma hash_is_stable (e : Expr) : hash_stable e.
Proof.
  induction e as [p ty ch IH] using Expr_ind'.
  intros U st st' Hco Hsub Hext.
  destruct ty as [l|o]; [split; [reflexivity | exact Hext]|].
  set (t := mkExpr p (Op o) ch) in *.
  assert (HUt : U t) by (apply Hsub, subterms_self).
  destruct (Hext t HUt) as (Hname & Hkeep & Hzero). simpl ptr in Hname, Hkeep, Hzero.
  destruct (Z.eq_dec (hash_ (st' p)) 0) as [Hz'|Hnz'].
  - (* both stores have an empty memo: the hash is computed again *)
    assert (Hz : hash_ (st p) = 0).
    { destruct (Z.eq_dec (hash_ (st p)) 0) as [Hz|Hnz]; [exact Hz|].
      rewrite (Hkeep Hnz) in Hz'. contradiction. }
    set (Ut := fun u => U u /\ u <> t).
    assert (Hco_t : coherent Ut).
    { intros t1 t2 [H1 _] [H2 _]. apply Hco; assumption. }
    assert (Hsub_t : forall c u, In c ch -> In u (subterms c) -> Ut u).
    { intros c u Hc Hu. split.
      - apply Hsub. eapply subterms_child; eassumption.
      - eapply subterm_of_child_differs; eassumption. }
    assert (Hfresh_t : forall u, Ut u -> ptr u <> p).
    { intros u [HU Hne] Hp. apply Hne. apply Hco; [exact HU | exact HUt | exact Hp]. }
    assert (Hext_t : memo_ext Ut st st').
    { eapply memo_ext_sub; [|exact Hext]. intros u [HU _]. exact HU. }
    destruct (hash_fresh_node p o ch IH Ut st st' Hco_t Hsub_t Hfresh_t Hext_t Hz')
      as [Hv' Hext'].
    destruct (hash_fresh_node p o ch IH Ut st st Hco_t Hsub_t Hfresh_t
                (memo_ext_refl Ut st) Hz) as [Hv _].
    fold t in Hv', Hext', Hv.
    assert (Hval : fst (hash t st') = fst (hash t st)).
    { rewrite Hv', Hv, Hname. reflexivity. }
    split; [exact Hval|].
    intros u HUu. destruct (Expr_eq_dec_ptr u t) as [Heq|Hne].
    + assert (u = t) by (apply Hco; assumption). subst u. simpl ptr.
      split; [|split].
      * rewrite (hash_frame_name _ _ p (hash_writes_memo_only t st')). exact Hname.
      * intros Hnz. contradiction.
      * intros _. right. pose proof (hash_memo_written p o ch st' Hz') as Hw.
        fold t in Hw. rewrite Hw. exact Hval.
    + apply Hext'. split; [exact HUu|]. intros ->. apply Hne. reflexivity.
  - (* the memo of [st'] is there *)
    assert (Hres : hash t st' = (hash_ (st' p), st')).
    { unfold t. rewrite hash_eq. destruct (Z.eqb_spec (hash_ (st' p)) 0); [contradiction|].
      reflexivity. }
    rewrite Hres. cbn [fst snd]. split; [|exact Hext].
    destruct (Z.eq_dec (hash_ (st p)) 0) as [Hz|Hnz].
    + destruct (Hzero Hz) as [H0|Hh]; [contradiction | exact Hh].
    + rewrite (Hkeep Hnz). unfold t. rewrite hash_eq.
      destruct (Z.eqb_spec (hash_ (st p)) 0); [contradiction | reflexivity].
Qed.


(** *** Common-subexpression elimination *)

Lemma add_children_frame (n : Expr) (ch : list Expr) (group : Z) (g : ExpressionGraph)
  (q : nat) :
  iblank (store_ (snd (fold_left (add_child n) ch (group, g))) q) = iblank (store_ g q).
Proof.
  revert group g. induction ch as [|c ch IH]; intros group g; [reflexivity|].
  change (fold_left (add_child n) (c :: ch) (group, g))
    with (fold_left (add_child n) ch (add_child n (group, g) c)).
  rewrite add_child_eq, IH. unfold increaseEdges. rewrite !store_on_node.
  rewrite tapeMap_at_store.
  destruct (decide (q = ptr n)); destruct (decide (q = ptr c)); reflexivity.
Qed.

Lemma add_new_frame (h : Z) (n : Expr) (g : ExpressionGraph) (q : nat) :
  iblank (store_ (add_new h n g) q) = iblank (store_ g q).
Proof.
  unfold add_new.
  set (g2 := set_count _ (setId n _ (set_hashMap _ g))).
  pose proof (add_children_frame n (children n) 0 g2 q) as Hf.
  assert (H2 : iblank (store_ g2 q) = iblank (store_ g q)).
  { subst g2. simpl. unfold upd. destruct (decide (q = ptr n)); reflexivity. }
  clearbody g2.
  destruct (fold_left (add_child n) (children n) (0, g2)) as [group g3]. simpl in Hf.
  destruct (Z.leb _ group); simpl; rewrite Hf, H2; reflexivity.
Qed.

Lemma broadcast_ext (g g' : ExpressionGraph) (rest : list Expr) (acc : option Shape) :
  (forall a, In a rest -> shape_ (node g' a) = shape_ (node g a)) ->
  fold_left (fun acc n => fold_left (broadcast_dim (shape_ (node g' n))) [0; 1; 2; 3] acc)
            rest acc
  = fold_left (fun acc n => fold_left (broadcast_dim (shape_ (node g n))) [0; 1; 2; 3] acc)
              rest acc.
Proof.
  revert acc. induction rest as [|n rest IH]; intros acc Hsh; [reflexivity|].
  simpl fold_left at 1 3. rewrite (Hsh n (or_introl eq_refl)).
  apply IH. intros a Ha. apply Hsh. right. exact Ha.
Qed.

Lemma ctor_shape_ext (c : Ctor) (g g' : ExpressionGraph) :
  (forall a, In a (ctor_children c) -> shape_ (node g' a) = shape_ (node g a)) ->
  ctor_shape c g' = ctor_shape c g.
Proof.
  intros Hsh. destruct c as [| | |a|a rest|a|a mask|a|a|a|a|a]; cbn [ctor_shape];
    try reflexivity;
    try (rewrite (Hsh a) by (left; reflexivity); reflexivity).
  - unfold Tanh_newShape. rewrite (Hsh a) by (left; reflexivity).
    apply broadcast_ext. intros b Hb. apply Hsh. right. exact Hb.
  - rewrite (Hsh a); [reflexivity|]. destruct mask; left; reflexivity.
Qed.

Lemma second_construction (c : Ctor) (o : OpType) (g g1 : ExpressionGraph) (e1 : Expr) :
  ctor_type c = Op o ->
  coherent (operands c) ->
  (forall u, operands c u -> (ptr u < next_ g)%nat) ->
  Expression c g = Ok (e1, g1) ->
  exists g2, Expression c g1 = Ok (e1, g2).
Proof.
  intros Hty Hco Hbound Hex. rewrite Expression_eq in Hex.
  destruct (ctor_shape c g) as [s|] eqn:Hshape; [|discriminate].
  rewrite Hty in Hex.
  set (ch := ctor_children c) in *.
  set (e0 := mkExpr (next_ g) (Op o) ch) in *.
  set (gc := constructed c s g) in *.
  destruct (constructed_tables c s g) as (Hst & _ & _ & Hnx & Hhm & _).
  fold gc in Hst, Hnx, Hhm.
  assert (Hsub : forall a u, In a ch -> In u (subterms a) -> operands c u).
  { intros a u Ha Hu. exists a. split; assumption. }
  assert (Hstable : Forall hash_stable ch).
  { apply Forall_forall. intros a _. apply hash_is_stable. }
  assert (Hfresh : forall t, operands c t -> ptr t <> next_ g).
  { intros t Ht. pose proof (Hbound t Ht). lia. }
  assert (Hnode : store_ gc (next_ g)
                  = Node_new s (ctor_trainable c g) (ctor_init c)).
  { rewrite Hst. apply upd_same. }
  destruct (hash_fresh_node (next_ g) o ch Hstable (operands c) (store_ gc) (store_ gc)
              Hco Hsub Hfresh (memo_ext_refl _ _))
    as [Hh1 Hext1].
  { rewrite Hnode. reflexivity. }
  fold e0 in Hh1, Hext1. rewrite Hnode in Hh1. simpl name_ in Hh1.
  set (h1 := fst (hash e0 (store_ gc))) in *.
  set (st1 := snd (hash e0 (store_ gc))) in *.
  (* the graph after the first construction *)
  assert (Hg1 : hashMap_ g1 !! h1 = Some e1 /\ next_ g1 = S (next_ g) /\
                forall q, iblank (store_ g1 q) = iblank (st1 q)).
  { destruct (hashMap_ gc !! h1) as [e'|] eqn:Hlook.
    - rewrite (add_hit e0 e' gc Hlook) in Hex. fold st1 in Hex.
      assert (e1 = e') by congruence. assert (g1 = set_store st1 gc) by congruence.
      subst e1 g1. simpl. repeat split; assumption.
    - rewrite (add_miss e0 gc Hlook) in Hex. fold h1 st1 in Hex.
      assert (e1 = e0) by congruence.
      assert (g1 = add_new h1 e0 (set_store st1 gc)) by congruence.
      subst e1 g1.
      destruct (add_new_tables h1 e0 (set_store st1 gc))
        as (_ & _ & _ & Hhm' & _ & _ & _ & Hnx' & _).
      rewrite Hhm', Hnx'. simpl. split; [apply lookup_insert_eq|]. split; [exact Hnx|].
      intros q. apply add_new_frame. }
  destruct Hg1 as (Hlook1 & Hnx1 & Hframe1).
  (* the operands have the shapes they had *)
  assert (Hshape1 : ctor_shape c g1 = Some s).
  { rewrite <- Hshape. apply ctor_shape_ext. intros a Ha. unfold node.
    assert (Hptr : ptr a <> next_ g).
    { apply Hfresh. exists a. split; [exact Ha | apply subterms_self]. }
    transitivity (shape_ (st1 (ptr a))).
    - exact (f_equal shape_ (Hframe1 (ptr a))).
    - transitivity (shape_ (store_ gc (ptr a))).
      + exact (f_equal shape_ (hash_writes_memo_only e0 (store_ gc) (ptr a))).
      + rewrite Hst, upd_other by exact Hptr. reflexivity. }
  rewrite Expression_eq, Hshape1, Hty. fold ch.
  set (e0' := mkExpr (next_ g1) (Op o) ch).
  set (gc' := constructed c s g1).
  destruct (constructed_tables c s g1) as (Hst' & _ & _ & _ & Hhm' & _).
  fold gc' in Hst', Hhm'.
  assert (Hnode' : store_ gc' (next_ g1)
                   = Node_new s (ctor_trainable c g1) (ctor_init c)).
  { rewrite Hst'. apply upd_same. }
  assert (Hext' : memo_ext (operands c) (store_ gc) (store_ gc')).
  { eapply memo_ext_same; [exact Hext1|].
    intros t Ht. pose proof (Hbound t Ht) as Hlt.
    rewrite Hst', upd_other by lia.
    split; [exact (f_equal name_ (Hframe1 (ptr t))) | exact (f_equal hash_ (Hframe1 (ptr t)))]. }
  destruct (hash_fresh_node (next_ g1) o ch Hstable (operands c) (store_ gc) (store_ gc')
              Hco Hsub) as [Hh2 _].
  { intros t Ht. pose proof (Hbound t Ht). lia. }
  { exact Hext'. }
  { rewrite Hnode'. reflexivity. }
  fold e0' in Hh2. rewrite Hnode' in Hh2. simpl name_ in Hh2.
  assert (Hhit : hashMap_ gc' !! fst (hash e0' (store_ gc')) = Some e1).
  { rewrite Hh2, <- Hh1, Hhm'. exact Hlook1. }
  rewrite (add_hit e0' e1 gc' Hhit).
  eexists. reflexivity.
Qed.

(** C4: when the hash of the node handed to [add] is in the hash table, [add]
    returns the node found there and the new node is dropped: the id counter,
    the node list, the tape levels, the top nodes, the hash table and the edge
    count and id of every node are as before.  Hence the same constructor call
    on the same operands, made twice in a row, returns the same node both
    times (the operands being in the graph: their addresses are in use, and an
    address stands for one node). *)
Theorem common_subexpression_elimination :
  (forall n e g,
     hashMap_ g !! fst (hash n (store_ g)) = Some e ->
     fst (add n g) = e /\
     count_ (snd (add n g)) = count_ g /\
     nodes_ (snd (add n g)) = nodes_ g /\
     tapes_ (snd (add n g)) = tapes_ g /\
     tapeMap_ (snd (add n g)) = tapeMap_ g /\
     topNodes_ (snd (add n g)) = topNodes_ g /\
     hashMap_ (snd (add n g)) = hashMap_ g /\
     forall q, edges_ (store_ (snd (add n g)) q) = edges_ (store_ g q) /\
               id_ (store_ (snd (add n g)) q) = id_ (store_ g q)) /\
  (forall c o g g1 e1,
     ctor_type c = Op o ->
     coherent (operands c) ->
     (forall u, operands c u -> (ptr u < next_ g)%nat) ->
     Expression c g = Ok (e1, g1) ->
     exists g2, Expression c g1 = Ok (e1, g2)).
Proof.
  split.
  - intros n e g Hhit. rewrite (add_hit n e g Hhit). simpl.
    repeat (split; [reflexivity|]).
    intros q. pose proof (hash_writes_memo_only n (store_ g)) as Hf.
    split; [apply (hash_frame_edges _ _ q Hf) | apply (hash_frame_id _ _ q Hf)].
  - apply second_construction.
Qed.


(** *** What the operations of the node classes write *)

Lemma forwardOps_target (e : Expr) (op : NodeOp) (c : Call) :
  In op (forwardOps e) -> In c op -> call_out c = Val (ptr e).
Proof.
  destruct e as [p [l|o] ch]; simpl; [intros []|].
  assert (Hone : forall k ins, In op [[mkCall k (Val p) ins]] -> In c op -> call_out c = Val p).
  { intros k ins [<-|[]] [<-|[]]. reflexivity. }
  destruct o; try (apply Hone).
  destruct (length ch) as [|[|[|[|n]]]]; try (apply Hone);
    (intros [<-|[]] Hc; simpl in Hc; destruct Hc as [<-|Hc]; [reflexivity|];
     apply in_app_or in Hc; destruct Hc as [Hc|[<-|[]]]; [|reflexivity];
     apply in_map_iff in Hc; destruct Hc as (child & <- & _); reflexivity).
Qed.

(** Every forward operation of a node writes the value of the node itself;
    the backward operation at position [i] writes the gradient of the child
    at position [i]; there are no more backward operations than children, so
    that [children()[i]] in [runBackward] is a child; and the mask of a
    softmax gets no backward operation. *)
Theorem operations_write_targets (e : Expr) :
  (forall op c, In op (forwardOps e) -> In c op -> call_out c = Val (ptr e)) /\
  (forall i op c, backwardOps e !! i = Some op -> In c op ->
     exists child, children e !! i = Some child /\ call_out c = Grad (ptr child)) /\
  (length (backwardOps e) <= length (children e))%nat /\
  (forall p a m, e = mkExpr p (Op SoftmaxNodeOp) [a; m] ->
     backwardOps e = [[mkCall SoftmaxGrad (Grad (ptr a)) [Grad p; Val p]]]).
Proof.
  split; [|split; [|split]].
  - apply forwardOps_target.
  - apply backwardOps_target.
  - apply backwardOps_length.
  - intros p a m ->. reflexivity.
Qed.

(** *** What the passes leave alone *)

Lemma runForward_spares (r : TRef) (ops : NodeOps) (st : Store) :
  (forall op, In op ops -> op_spares r op) ->
  read (runForward ops st) r = read st r.
Proof.
  unfold runForward. revert st. induction ops as [|op ops IH]; intros st Hsp; [reflexivity|].
  simpl. rewrite IH by (intros op' Hop'; apply Hsp; right; exact Hop').
  apply run_op_spares. apply Hsp. left. reflexivity.
Qed.

Lemma forward_step_adj (fake : bool) (g : ExpressionGraph) (v : Expr) (q : nat) :
  adj_ (store_ (forward_step fake g v) q) = adj_ (store_ g q).
Proof.
  unfold forward_step.
  destruct (release_edges_values v (node_forward fake v (init fake v (allocate fake v g))) q)
    as [Ha _].
  rewrite Ha. clear Ha.
  assert (Hal : adj_ (store_ (allocate fake v g) q) = adj_ (store_ g q)).
  { unfold allocate. rewrite store_on_node. destruct (decide (q = ptr v)); [|reflexivity].
    destruct (val_ (store_ g q)); reflexivity. }
  assert (Hin : forall g0, adj_ (store_ (init fake v g0) q) = adj_ (store_ g0 q)).
  { intros g0. unfold init. destruct (node_type v); [|reflexivity].
    rewrite store_on_node. destruct (decide (q = ptr v)); [|reflexivity].
    destruct (init_ (store_ g0 q)); destruct fake; reflexivity. }
  assert (Hfw : forall g0, adj_ (store_ (node_forward fake v g0) q) = adj_ (store_ g0 q)).
  { intros g0. unfold node_forward. destruct fake; [reflexivity|]. simpl.
    change (adj_ (runForward (forwardOps v) (store_ g0) q))
      with (read (runForward (forwardOps v) (store_ g0)) (Grad q)).
    rewrite runForward_spares; [reflexivity|].
    intros op Hop c Hc Hout. rewrite (forwardOps_target v op c Hop Hc) in Hout.
    discriminate Hout. }
  rewrite Hfw, Hin, Hal. reflexivity.
Qed.

Lemma fold_adj {A : Type} (f : ExpressionGraph -> A -> ExpressionGraph) (l : list A) (q : nat) :
  (forall g a, adj_ (store_ (f g a) q) = adj_ (store_ g q)) ->
  forall g, adj_ (store_ (fold_left f l g) q) = adj_ (store_ g q).
Proof.
  intros Hf. induction l as [|a l IH]; intros g; simpl; [reflexivity|].
  rewrite IH. apply Hf.
Qed.

Lemma blank_fields (n n' : Node) :
  blank n' = blank n ->
  id_ n' = id_ n /\ name_ n' = name_ n /\ trainable_ n' = trainable_ n /\
  shape_ n' = shape_ n /\ hash_ n' = hash_ n /\ init_ n' = init_ n.
Proof.
  destruct n, n'. unfold blank. simpl. intros Heq. inversion Heq. subst.
  repeat split; reflexivity.
Qed.

Lemma value_frame_store_frame (st st' : Store) : value_frame st st' -> store_frame st st'.
Proof.
  intros Hv q. specialize (Hv q).
  assert (Hb : forall n, blank n = set_edges 0 (vblank n)) by (intros []; reflexivity).
  rewrite !Hb, Hv. reflexivity.
Qed.

Lemma pass_frame_forward_step (fake : bool) (g : ExpressionGraph) (v : Expr) :
  pass_frame g (forward_step fake g v).
Proof.
  unfold forward_step.
  eapply pass_frame_trans; [|apply pass_frame_release_edges].
  eapply pass_frame_trans; [|apply value_frame_store_frame, value_frame_node_forward].
  eapply pass_frame_trans; [|apply value_frame_store_frame, value_frame_init].
  apply value_frame_store_frame, value_frame_allocate.
Qed.

Lemma released_forward_step (fake : bool) (g : ExpressionGraph) (v : Expr) :
  released_ (forward_step fake g v) = released_ g.
Proof.
  unfold forward_step, release_edges. rewrite released_fold by reflexivity.
  unfold node_forward, init, allocate. destruct fake, (node_type v); reflexivity.
Qed.

Lemma pass_frame_forward (fake : bool) (g : ExpressionGraph) :
  pass_frame g (snd (forward fake g)).
Proof.
  unfold forward, forward_from. simpl.
  eapply pass_frame_trans; [apply value_frame_store_frame, value_frame_allocateForward|].
  apply pass_frame_fold. intros g0 v. apply pass_frame_forward_step.
Qed.

Lemma released_forward (fake : bool) (g : ExpressionGraph) :
  released_ (snd (forward fake g)) = released_ g.
Proof.
  unfold forward, forward_from. simpl.
  rewrite released_fold by (intros g0 v; apply released_forward_step).
  unfold Parameters_allocateForward. apply released_fold. reflexivity.
Qed.

(** [forward] returns the number of nodes of the list.  It writes values and
    edge counts only: the tables of the graph are as before, no storage is
    released, and every member of every node object other than [val_] and
    [edges_] is as before; no gradient is written. *)
Theorem forward_writes_values_only (fake : bool) (g : ExpressionGraph) :
  fst (forward fake g) = length (nodes_ g) /\
  same_tables g (snd (forward fake g)) /\
  released_ (snd (forward fake g)) = released_ g /\
  forall q,
    adj_ (store_ (snd (forward fake g)) q) = adj_ (store_ g q) /\
    id_ (store_ (snd (forward fake g)) q) = id_ (store_ g q) /\
    name_ (store_ (snd (forward fake g)) q) = name_ (store_ g q) /\
    trainable_ (store_ (snd (forward fake g)) q) = trainable_ (store_ g q) /\
    shape_ (store_ (snd (forward fake g)) q) = shape_ (store_ g q) /\
    hash_ (store_ (snd (forward fake g)) q) = hash_ (store_ g q) /\
    init_ (store_ (snd (forward fake g)) q) = init_ (store_ g q).
Proof.
  assert (Hnodes : nodes_ (Parameters_allocateForward fake g) = nodes_ g)
    by (destruct (same_tables_allocateForward fake g) as (_ & Hn & _); exact Hn).
  split; [|split; [apply same_tables_forward|split]].
  - unfold forward, forward_from. simpl. rewrite Hnodes. reflexivity.
  - apply released_forward.
  - intros q. split.
    + unfold forward, forward_from. simpl.
      rewrite fold_adj by (intros g0 v; apply forward_step_adj).
      unfold Parameters_allocateForward. apply fold_adj. intros g0 p.
      unfold allocate. rewrite store_on_node. destruct (decide (q = ptr p)); [|reflexivity].
      destruct (val_ (store_ g0 q)); reflexivity.
    + apply blank_fields. apply (pass_frame_forward fake g).
Qed.


Lemma fold_val {A : Type} (f : ExpressionGraph -> A -> ExpressionGraph) (l : list A) (q : nat) :
  (forall g a, val_ (store_ (f g a) q) = val_ (store_ g q)) ->
  forall g, val_ (store_ (fold_left f l g) q) = val_ (store_ g q).
Proof.
  intros Hf. induction l as [|a l IH]; intros g; simpl; [reflexivity|].
  rewrite IH. apply Hf.
Qed.

Lemma node_backward_val (fake : bool) (g : ExpressionGraph) (v : Expr) (q : nat) :
  val_ (store_ (node_backward fake v g) q) = val_ (store_ g q).
Proof.
  unfold node_backward. destruct fake; [reflexivity|]. simpl.
  change (val_ (runBackward v (backwardOps v) (store_ g) q))
    with (read (runBackward_from v (backwardOps v) 0 (store_ g)) (Val q)).
  rewrite runBackward_from_spares; [reflexivity|].
  intros k op child Hk _ _. apply (backwardOps_spares_val v k op q Hk).
Qed.

Lemma backward_visit_val (fake : bool) (g : ExpressionGraph) (v : Expr) (q : nat) :
  val_ (store_ (backward_visit fake g v) q) = val_ (store_ g q).
Proof.
  rewrite backward_visit_eq.
  destruct (release_edges_values v
              (if trainable_ (node (zero_children fake (children v) g) v)
               then node_backward fake v (zero_children fake (children v) g)
               else zero_children fake (children v) g) q) as [_ Hv].
  rewrite Hv. clear Hv.
  destruct (trainable_ (node (zero_children fake (children v) g) v)).
  - rewrite node_backward_val. apply zero_children_val.
  - apply zero_children_val.
Qed.

Lemma backward_seed_val (fake : bool) (g : ExpressionGraph) (q : nat) :
  val_ (store_ (backward_seed fake g) q) = val_ (store_ g q) /\
  released_ (backward_seed fake g) = released_ g.
Proof.
  unfold backward_seed. split.
  - rewrite fold_val.
    2:{ intros g0 p. unfold init_dependent. rewrite store_on_node.
        destruct (decide (q = p)); [|reflexivity].
        destruct (adj_ (store_ g0 q)), fake; reflexivity. }
    unfold Parameters_set_zero_adjoint. rewrite fold_val.
    2:{ intros g0 p. rewrite store_on_node. destruct (decide (q = ptr p)); [|reflexivity].
        destruct (adj_ (store_ g0 q)), fake; reflexivity. }
    unfold Parameters_allocateBackward. apply fold_val.
    intros g0 p. rewrite store_on_node. destruct (decide (q = ptr p)); [|reflexivity].
    destruct (adj_ (store_ g0 q)); reflexivity.
  - rewrite released_fold by reflexivity.
    unfold Parameters_set_zero_adjoint. rewrite released_fold by reflexivity.
    unfold Parameters_allocateBackward. apply released_fold. reflexivity.
Qed.

Lemma backward_steps_val (fake : bool) (l : list Expr) (g : ExpressionGraph) (x : nat) :
  exists r, released_ (fold_left (backward_step fake) l g) = released_ g ++ r /\
            (In x r -> val_ (store_ (fold_left (backward_step fake) l g) x) = None) /\
            (~ In x r ->
             val_ (store_ (fold_left (backward_step fake) l g) x) = val_ (store_ g x)).
Proof.
  revert g. induction l as [|v l IH]; intros g.
  - exists []. simpl. rewrite app_nil_r. split; [reflexivity|]. split; [intros []|reflexivity].
  - simpl fold_left.
    destruct (IH (backward_step fake g v)) as (r & Hr & Hin & Hnin).
    pose proof (backward_step_store fake g v x) as Hst.
    pose proof (backward_visit_val fake g v x) as Hvis.
    exists ((if releasable (backward_visit fake g v) v then [ptr v] else []) ++ r).
    rewrite Hr, released_backward_step, <- app_assoc.
    split; [reflexivity|]. split.
    + intros Hx'. destruct (in_dec Nat.eq_dec x r) as [Hxr|Hxr]; [apply Hin, Hxr|].
      rewrite (Hnin Hxr), Hst.
      apply in_app_iff in Hx'. destruct Hx' as [Hx'|Hx']; [|contradiction].
      destruct (releasable (backward_visit fake g v) v); [|destruct Hx'].
      destruct Hx' as [Heq|[]]. rewrite bool_decide_eq_true_2 by (symmetry; exact Heq).
      reflexivity.
    + intros Hx'. rewrite Hnin by (intros Hxr; apply Hx', in_app_iff; right; exact Hxr).
      rewrite Hst.
      destruct (releasable (backward_visit fake g v) v) eqn:Hrel; simpl; [|exact Hvis].
      destruct (bool_decide (x = ptr v)) eqn:Hbd; [|exact Hvis].
      exfalso. apply Hx'. apply bool_decide_eq_true_1 in Hbd. left. symmetry. exact Hbd.
Qed.

(** A [backward] that returns has written gradients and edge counts only,
    and released storage: the tables of the graph are as before; the value of
    a node is as before unless the node was released in this pass, which
    leaves it without a value; and the ids, names, flags, shapes, hash memos
    and initialisers of all nodes are as before. *)
Theorem backward_keeps_values (fake : bool) (g g' : ExpressionGraph) :
  backward fake g = Ok g' ->
  same_tables g g' /\
  exists r,
    released_ g' = released_ g ++ r /\
    forall q,
      (In q r -> val_ (store_ g' q) = None) /\
      (~ In q r -> val_ (store_ g' q) = val_ (store_ g q)) /\
      id_ (store_ g' q) = id_ (store_ g q) /\
      name_ (store_ g' q) = name_ (store_ g q) /\
      trainable_ (store_ g' q) = trainable_ (store_ g q) /\
      shape_ (store_ g' q) = shape_ (store_ g q) /\
      hash_ (store_ g' q) = hash_ (store_ g q) /\
      init_ (store_ g' q) = init_ (store_ g q).
Proof.
  unfold backward. destruct (bool_decide (1 < size (topNodes_ g))%nat); [discriminate|].
  intros Hret. assert (g' = backward_loop fake (nodes_ (backward_seed fake g))
                               (backward_seed fake g)) by congruence.
  subst g'. clear Hret.
  split.
  { eapply same_tables_trans; [apply same_tables_backward_seed|].
    apply same_tables_backward_loop. }
  set (gs := backward_seed fake g).
  assert (Hrel : released_ gs = released_ g) by apply (backward_seed_val fake g 0%nat).
  assert (Hex : exists r, released_ (backward_loop fake (nodes_ gs) gs) = released_ g ++ r /\
                          forall q, (In q r -> val_ (store_ (backward_loop fake (nodes_ gs) gs) q)
                                               = None) /\
                                    (~ In q r ->
                                     val_ (store_ (backward_loop fake (nodes_ gs) gs) q)
                                     = val_ (store_ g q))).
  { unfold backward_loop.
    assert (Hr : exists r, released_ (fold_left (backward_step fake) (rev (nodes_ gs)) gs)
                           = released_ gs ++ r).
    { destruct (backward_steps_val fake (rev (nodes_ gs)) gs 0%nat) as (r & Hr & _).
      exists r. exact Hr. }
    destruct Hr as (r & Hr). exists r. rewrite Hr, Hrel. split; [reflexivity|].
    intros q. destruct (backward_steps_val fake (rev (nodes_ gs)) gs q) as (r' & Hr' & Hin & Hout).
    assert (r' = r) by (rewrite Hr in Hr'; apply app_inv_head in Hr'; congruence).
    subst r'. split; [exact Hin|]. intros Hq. rewrite (Hout Hq).
    apply (backward_seed_val fake g q). }
  destruct Hex as (r & Hr & Hval). exists r. split; [exact Hr|].
  intros q. destruct (Hval q) as [Hin Hout].
  split; [exact Hin | split; [exact Hout|]].
  apply blank_fields.
  assert (Hframe : pass_frame g (backward_loop fake (nodes_ gs) gs)).
  { eapply pass_frame_trans;
      [apply value_frame_store_frame, value_frame_backward_seed|].
    unfold backward_loop. apply pass_frame_steps. }
  apply Hframe.
Qed.


(** *** The shape of a sum of operands *)

Lemma broadcast_None (sn : Shape) : broadcast None sn = None.
Proof. reflexivity. Qed.

Lemma broadcast_extents (s sn : Shape) :
  broadcast (Some s) sn
  = match broadcast_extent (dim0 s) (dim0 sn), broadcast_extent (dim1 s) (dim1 sn),
          broadcast_extent (dim2 s) (dim2 sn), broadcast_extent (dim3 s) (dim3 sn) with
    | Some m0, Some m1, Some m2, Some m3 => Some (mkShape m0 m1 m2 m3)
    | _, _, _, _ => None
    end.
Proof.
  destruct s as [a0 a1 a2 a3], sn as [n0 n1 n2 n3].
  unfold broadcast, broadcast_extent. simpl.
  destruct (negb (Z.eqb a0 n0) && negb (Z.eqb a0 1) && negb (Z.eqb n0 1)); simpl;
    [reflexivity|].
  destruct (negb (Z.eqb a1 n1) && negb (Z.eqb a1 1) && negb (Z.eqb n1 1)); simpl;
    [reflexivity|].
  destruct (negb (Z.eqb a2 n2) && negb (Z.eqb a2 1) && negb (Z.eqb n2 1)); simpl;
    [reflexivity|].
  destruct (negb (Z.eqb a3 n3) && negb (Z.eqb a3 1) && negb (Z.eqb n3 1)); reflexivity.
Qed.

Lemma broadcast_extent_sound (a n m : Z) :
  1 <= a -> 1 <= n -> broadcast_extent a n = Some m ->
  1 <= m /\ (a = m \/ a = 1) /\ (n = m \/ n = 1).
Proof.
  unfold broadcast_extent. intros Ha Hn.
  destruct (Z.eqb_spec a n), (Z.eqb_spec a 1), (Z.eqb_spec n 1); simpl;
    intros Hm; inversion Hm; lia.
Qed.

Lemma broadcast_extent_complete (a n t : Z) :
  (a = t \/ a = 1) -> (n = t \/ n = 1) ->
  exists m, broadcast_extent a n = Some m /\ (m = t \/ m = 1).
Proof.
  unfold broadcast_extent. intros Ha Hn.
  destruct (Z.eqb_spec a n), (Z.eqb_spec a 1), (Z.eqb_spec n 1); simpl;
    try (eexists; split; [reflexivity|lia]); lia.
Qed.

Lemma broadcast_sound (s sn s' : Shape) :
  positive_shape s -> positive_shape sn -> broadcast (Some s) sn = Some s' ->
  positive_shape s' /\ broadcasts_to s s' /\ broadcasts_to sn s'.
Proof.
  intros (P0 & P1 & P2 & P3) (Q0 & Q1 & Q2 & Q3). rewrite broadcast_extents.
  destruct (broadcast_extent (dim0 s) (dim0 sn)) as [m0|] eqn:E0; [|discriminate].
  destruct (broadcast_extent (dim1 s) (dim1 sn)) as [m1|] eqn:E1; [|discriminate].
  destruct (broadcast_extent (dim2 s) (dim2 sn)) as [m2|] eqn:E2; [|discriminate].
  destruct (broadcast_extent (dim3 s) (dim3 sn)) as [m3|] eqn:E3; [|discriminate].
  intros Hs'. inversion Hs'. subst s'. clear Hs'.
  destruct (broadcast_extent_sound _ _ _ P0 Q0 E0) as (? & ? & ?).
  destruct (broadcast_extent_sound _ _ _ P1 Q1 E1) as (? & ? & ?).
  destruct (broadcast_extent_sound _ _ _ P2 Q2 E2) as (? & ? & ?).
  destruct (broadcast_extent_sound _ _ _ P3 Q3 E3) as (? & ? & ?).
  unfold positive_shape, broadcasts_to. simpl. repeat split; assumption.
Qed.

Lemma broadcast_complete (s sn t : Shape) :
  broadcasts_to s t -> broadcasts_to sn t ->
  exists s', broadcast (Some s) sn = Some s' /\ broadcasts_to s' t.
Proof.
  intros (P0 & P1 & P2 & P3) (Q0 & Q1 & Q2 & Q3). rewrite broadcast_extents.
  destruct (broadcast_extent_complete _ _ _ P0 Q0) as (m0 & -> & ?).
  destruct (broadcast_extent_complete _ _ _ P1 Q1) as (m1 & -> & ?).
  destruct (broadcast_extent_complete _ _ _ P2 Q2) as (m2 & -> & ?).
  destruct (broadcast_extent_complete _ _ _ P3 Q3) as (m3 & -> & ?).
  eexists. split; [reflexivity|]. unfold broadcasts_to. simpl. repeat split; assumption.
Qed.

Lemma broadcasts_to_trans (s1 s2 s3 : Shape) :
  broadcasts_to s1 s2 -> broadcasts_to s2 s3 -> broadcasts_to s1 s3.
Proof. unfold broadcasts_to. intros H1 H2. repeat split; lia. Qed.

Lemma broadcasts_to_refl (s : Shape) : broadcasts_to s s.
Proof. unfold broadcasts_to. tauto. Qed.

Lemma broadcast_list_None (l : list Shape) : fold_left broadcast l None = None.
Proof. induction l as [|sn l IH]; [reflexivity|exact IH]. Qed.

Lemma broadcast_list (l : list Shape) (acc : Shape) :
  positive_shape acc -> (forall sn, In sn l -> positive_shape sn) ->
  (forall s, fold_left broadcast l (Some acc) = Some s ->
     positive_shape s /\ broadcasts_to acc s /\ forall sn, In sn l -> broadcasts_to sn s) /\
  (forall t, broadcasts_to acc t -> (forall sn, In sn l -> broadcasts_to sn t) ->
     exists s, fold_left broadcast l (Some acc) = Some s /\ broadcasts_to s t).
Proof.
  revert acc. induction l as [|sn l IH]; intros acc Hacc Hl.
  - split.
    + intros s Hs. simpl in Hs. inversion Hs. subst s.
      split; [exact Hacc|]. split; [apply broadcasts_to_refl|]. intros sn [].
    + intros t Ht _. exists acc. split; [reflexivity | exact Ht].
  - assert (Hsn : positive_shape sn) by (apply Hl; left; reflexivity).
    assert (Hl' : forall x, In x l -> positive_shape x) by (intros x Hx; apply Hl; right; exact Hx).
    split.
    + intros s Hs. simpl in Hs.
      destruct (broadcast (Some acc) sn) as [acc'|] eqn:Hstep;
        [|rewrite broadcast_list_None in Hs; discriminate].
      destruct (broadcast_sound acc sn acc' Hacc Hsn Hstep) as (Hacc' & Ha & Hn).
      destruct (proj1 (IH acc' Hacc' Hl') s Hs) as (Hpos & Hto & Hall).
      split; [exact Hpos|]. split; [exact (broadcasts_to_trans _ _ _ Ha Hto)|].
      intros x [<-|Hx]; [exact (broadcasts_to_trans _ _ _ Hn Hto) | apply Hall, Hx].
    + intros t Ht Hall. simpl.
      destruct (broadcast_complete acc sn t Ht (Hall sn (or_introl eq_refl)))
        as (acc' & Hstep & Hacc't).
      rewrite Hstep.
      assert (Hacc' : positive_shape acc').
      { apply (broadcast_sound acc sn acc' Hacc Hsn Hstep). }
      apply (proj2 (IH acc' Hacc' Hl') t Hacc't).
      intros x Hx. apply Hall. right. exact Hx.
Qed.

Lemma Tanh_newShape_fold (g : ExpressionGraph) (a : Expr) (rest : list Expr) :
  Tanh_newShape g a rest
  = fold_left broadcast (map (fun n => shape_ (node g n)) rest) (Some (shape_ (node g a))).
Proof.
  unfold Tanh_newShape. generalize (Some (shape_ (node g a))) as acc.
  induction rest as [|n rest IH]; intros acc; [reflexivity|]. simpl. apply IH.
Qed.

(** [TanhNodeOp::newShape] over operands whose extents are at least one: when
    it returns, every operand broadcasts to the shape returned (each of its
    extents is that of the result, or one); and it returns whenever the
    operands all broadcast to one shape [t], with a shape that broadcasts to
    [t] as well.  So the shapes cannot be broadcast exactly when no such [t]
    exists, whatever the order of the operands. *)
Theorem newShape_broadcasts (g : ExpressionGraph) (a : Expr) (rest : list Expr) :
  (forall n, In n (a :: rest) -> positive_shape (shape_ (node g n))) ->
  (forall s, Tanh_newShape g a rest = Some s ->
     positive_shape s /\
     forall n, In n (a :: rest) -> broadcasts_to (shape_ (node g n)) s) /\
  (forall t, (forall n, In n (a :: rest) -> broadcasts_to (shape_ (node g n)) t) ->
     exists s, Tanh_newShape g a rest = Some s /\ broadcasts_to s t).
Proof.
  intros Hpos. rewrite Tanh_newShape_fold.
  assert (Ha : positive_shape (shape_ (node g a))) by (apply Hpos; left; reflexivity).
  assert (Hl : forall sn, In sn (map (fun n => shape_ (node g n)) rest) -> positive_shape sn).
  { intros sn Hsn. apply in_map_iff in Hsn. destruct Hsn as (n & <- & Hn).
    apply Hpos. right. exact Hn. }
  destruct (broadcast_list _ _ Ha Hl) as [Hsound Hcomplete].
  split.
  - intros s Hs. destruct (Hsound s Hs) as (Hp & Hto & Hall).
    split; [exact Hp|]. intros n [<-|Hn]; [exact Hto|].
    apply Hall. apply in_map_iff. exists n. split; [reflexivity | exact Hn].
  - intros t Ht. apply Hcomplete.
    + apply Ht. left. reflexivity.
    + intros sn Hsn. apply in_map_iff in Hsn. destruct Hsn as (n & <- & Hn).
      apply Ht. right. exact Hn.
Qed.


(** *** Names *)

(** [add_named_node] on a name that nothing carries registers the node under
    it: [get] then returns the node, every other name is as before, and
    nothing else of the graph changes (the node object keeps its own name
    member).  On a name that [get] finds, it throws and changes nothing. *)
Theorem add_named_node_registers (e : Expr) (name : string) (g : ExpressionGraph) :
  (get name g = None ->
   exists g', add_named_node e name g = Ok g' /\
              get name g' = Some e /\
              (forall n, n <> name -> get n g' = get n g) /\
              named_ g' = <[name := e]> (named_ g) /\
              params_ g' = params_ g /\ nodes_ g' = nodes_ g /\ store_ g' = store_ g /\
              topNodes_ g' = topNodes_ g /\ hashMap_ g' = hashMap_ g) /\
  (forall x, get name g = Some x -> add_named_node e name g = Throw NamesNotUnique g).
Proof.
  split.
  - intros Hget. assert (Hpar : params_ g !! name = None).
    { unfold get in Hget. destruct (params_ g !! name); [discriminate | reflexivity]. }
    exists (set_named (<[name := e]> (named_ g)) g). split.
    + unfold add_named_node. rewrite bool_decide_eq_false_2; [reflexivity|].
      rewrite Hget, Hpar. intros [[x Hx]|[x Hx]]; discriminate.
    + split; [|split; [|repeat split]].
      * unfold get. simpl. rewrite Hpar. apply lookup_insert_eq.
      * intros n Hn. unfold get. simpl. destruct (params_ g !! n); [reflexivity|].
        apply lookup_insert_ne. congruence.
  - intros x Hget. unfold add_named_node. rewrite bool_decide_eq_true_2; [reflexivity|].
    right. rewrite Hget. eexists. reflexivity.
Qed.

(** *** The memo of the hash *)

(** [hash()] is memoised: after a call that returned a hash other than zero,
    a second call returns the same hash and writes nothing.  (A hash of zero
    is taken for an empty memo and computed again.) *)
Theorem hash_memoised (e : Expr) (st : Store) :
  fst (hash e st) <> 0 ->
  hash e (snd (hash e st)) = (fst (hash e st), snd (hash e st)).
Proof.
  destruct e as [p [l|o] ch]; [reflexivity|].
  intros Hnz.
  destruct (Z.eqb (hash_ (st p)) 0) eqn:Hmemo.
  - apply Z.eqb_eq in Hmemo.
    pose proof (hash_memo_written p o ch st Hmemo) as Hw.
    rewrite (hash_eq p o ch (snd (hash (mkExpr p (Op o) ch) st))).
    rewrite Hw. destruct (Z.eqb_spec (fst (hash (mkExpr p (Op o) ch) st)) 0) as [Hz|_];
      [contradiction | reflexivity].
  - assert (Hh : hash (mkExpr p (Op o) ch) st = (hash_ (st p), st))
      by (rewrite hash_eq, Hmemo; reflexivity).
    rewrite Hh. simpl fst. simpl snd. exact Hh.
Qed.

(** *** Parameters *)

(** [param] on a name that nothing carries, when the hash of the new node is
    not in the hash table: a new source node is constructed at the next free
    address, with the shape, the flag and the initialiser given and no
    tensors; it is appended to the node list with the next id, named, and
    registered as the parameter of that name, so that [get] finds it. *)
Theorem param_creates_parameter (name : string) (shape : Shape) (trainable : bool)
  (init : option (list float)) (g : ExpressionGraph) :
  get name g = None ->
  hashMap_ g !! leaf_hash (next_ g) = None ->
  exists g',
    param name shape trainable init g = Ok (mkExpr (next_ g) (Leaf ParamNode) [], g') /\
    get name g' = Some (mkExpr (next_ g) (Leaf ParamNode) []) /\
    params_ g' = <[name := mkExpr (next_ g) (Leaf ParamNode) []]> (params_ g) /\
    named_ g' = named_ g /\
    nodes_ g' = nodes_ g ++ [mkExpr (next_ g) (Leaf ParamNode) []] /\
    next_ g' = S (next_ g) /\
    store_ g' (next_ g)
    = set_node_name name (set_id (count_ g) (Node_new shape trainable init)) /\
    forall q, q <> next_ g -> store_ g' q = store_ g q.
Proof.
  intros Hget Hhash.
  assert (Hpar : params_ g !! name = None).
  { unfold get in Hget. destruct (params_ g !! name); [discriminate | reflexivity]. }
  set (e := mkExpr (next_ g) (Leaf ParamNode) []).
  unfold param, Parameters_get. rewrite Hpar, Hget.
  assert (Hex : Expression (NewParam shape trainable init) g
                = Ok (add e (constructed (NewParam shape trainable init) shape g)))
    by reflexivity.
  rewrite Hex. clear Hex.
  set (g2 := constructed (NewParam shape trainable init) shape g).
  destruct (constructed_tables (NewParam shape trainable init) shape g)
    as (Hst & Hn & Hc & Hnx & Hhm & Hpm & Hnm).
  fold g2 in Hst, Hn, Hc, Hnx, Hhm, Hpm, Hnm. clearbody g2.
  assert (Hhash_e : hash e (store_ g2) = (leaf_hash (next_ g), store_ g2)) by reflexivity.
  assert (Hmiss : hashMap_ g2 !! fst (hash e (store_ g2)) = None).
  { rewrite Hhash_e. simpl fst. rewrite Hhm. exact Hhash. }
  rewrite (add_miss e g2 Hmiss), Hhash_e. simpl fst. simpl snd.
  set (g3 := add_new (leaf_hash (next_ g)) e (set_store (store_ g2) g2)).
  destruct (add_new_tables (leaf_hash (next_ g)) e (set_store (store_ g2) g2))
    as (_ & Hn3 & _ & _ & Hnm3 & _ & Hpm3 & Hnx3 & _).
  fold g3 in Hn3, Hnm3, Hpm3, Hnx3.
  assert (Hst3 : store_ g3 = upd (next_ g) (set_id (count_ g2)) (store_ g2)).
  { subst g3. unfold add_new. simpl.
    destruct (Z.leb (Z.of_nat (length (tapes_ g2))) 0); reflexivity. }
  clearbody g3.
  exists (Parameters_add e name (set_name e name g3)).
  split; [reflexivity|]. split; [|split; [|split; [|split; [|split; [|split]]]]].
  - unfold get. simpl. rewrite lookup_insert_eq. reflexivity.
  - simpl. rewrite Hpm3. simpl. rewrite Hpm. reflexivity.
  - simpl. rewrite Hnm3. simpl. exact Hnm.
  - simpl. rewrite Hn3. simpl. rewrite Hn. reflexivity.
  - simpl. rewrite Hnx3. simpl. exact Hnx.
  - simpl. rewrite upd_same, Hst3, upd_same, Hst, upd_same, Hc. reflexivity.
  - intros q Hq. simpl. rewrite upd_other by exact Hq. rewrite Hst3, upd_other by exact Hq.
    rewrite Hst, upd_other by exact Hq. reflexivity.
Qed.

(** *** A new generation *)

(** [clear] keeps the parameters and the node objects and empties everything
    else; a parameter requested by [param] after [clear] is the node it was,
    entered again as the one node of the new generation: the first of the node
    list, with id zero, and a top node. *)
Theorem clear_keeps_parameters (name : string) (shape : Shape) (trainable : bool)
  (init : option (list float)) (g : ExpressionGraph) (p : Expr) :
  params_ g !! name = Some p ->
  params_ (clear g) = params_ g /\ store_ (clear g) = store_ g /\
  nodes_ (clear g) = [] /\ named_ (clear g) = ∅ /\ hashMap_ (clear g) = ∅ /\
  topNodes_ (clear g) = ∅ /\ count_ (clear g) = 0 /\
  exists g',
    param name shape trainable init (clear g) = Ok (p, g') /\
    nodes_ g' = [p] /\ count_ g' = 1 /\ id_ (node g' p) = 0 /\
    topNodes_ g' = {[ptr p]} /\ params_ g' = params_ g /\
    name_ (node g' p) = name_ (node g p) /\
    val_ (node g' p) = val_ (node g p) /\
    adj_ (node g' p) = adj_ (node g p).
Proof.
  intros Hpar. repeat (split; [reflexivity|]).
  set (h := fst (hash p (store_ (clear g)))).
  set (st := snd (hash p (store_ (clear g)))).
  set (g1 := add_new h p (set_store st (clear g))).
  assert (Hadd : add p (clear g) = (p, g1)).
  { apply add_miss. apply lookup_empty. }
  exists g1.
  split; [unfold param, Parameters_get; simpl params_; rewrite Hpar, Hadd; reflexivity|].
  destruct (add_new_tables h p (set_store st (clear g)))
    as (Hc & Hn & Ht & _ & _ & _ & Hp & _ & _).
  destruct (add_new_store h p (set_store st (clear g)) (ptr p)) as [Hid _].
  pose proof (add_new_frame h p (set_store st (clear g)) (ptr p)) as Hframe.
  pose proof (hash_writes_memo_only p (store_ (clear g)) (ptr p)) as Hmemo.
  fold st in Hmemo. fold g1 in Hc, Hn, Ht, Hp, Hid, Hframe.
  change (store_ (set_store st (clear g)) (ptr p)) with (st (ptr p)) in Hframe.
  change (store_ (clear g) (ptr p)) with (store_ g (ptr p)) in Hmemo.
  clearbody g1 st h.
  split; [exact Hn|]. split; [rewrite Hc; reflexivity|].
  split; [unfold node; rewrite Hid, decide_True by reflexivity; reflexivity|].
  split; [rewrite Ht; apply (right_id_L ∅ (∪))|].
  split; [exact Hp|].
  unfold node. unfold iblank in Hframe.
  destruct (store_ g1 (ptr p)), (st (ptr p)), (store_ g (ptr p)).
  simpl in *. inversion Hframe. inversion Hmemo. subst. repeat split; reflexivity.
Qed.


(** *** The hash table and the top nodes of a built graph *)

Lemma Expression_cases (c : Ctor) (g g' : ExpressionGraph) (e : Expr) :
  Expression c g = Ok (e, g') ->
  exists s h st,
    ctor_shape c g = Some s /\
    ((hashMap_ (constructed c s g) !! h = Some e /\ g' = set_store st (constructed c s g)) \/
     (hashMap_ (constructed c s g) !! h = None /\
      e = mkExpr (next_ g) (ctor_type c) (ctor_children c) /\
      g' = add_new h (mkExpr (next_ g) (ctor_type c) (ctor_children c))
                   (set_store st (constructed c s g)))).
Proof.
  intros Hex. rewrite Expression_eq in Hex.
  destruct (ctor_shape c g) as [s|]; [|discriminate].
  set (e0 := mkExpr (next_ g) (ctor_type c) (ctor_children c)) in *.
  set (gc := constructed c s g) in *.
  exists s, (fst (hash e0 (store_ gc))), (snd (hash e0 (store_ gc))).
  split; [reflexivity|].
  destruct (hashMap_ gc !! fst (hash e0 (store_ gc))) as [e'|] eqn:Hlook.
  - left. rewrite (add_hit e0 e' gc Hlook) in Hex.
    assert (e = e') by congruence. subst e'.
    split; [exact Hlook|]. injection Hex as <-. reflexivity.
  - right. rewrite (add_miss e0 gc Hlook) in Hex.
    split; [exact Hlook|]. injection Hex as <- <-. split; reflexivity.
Qed.

Lemma remove_children_topNodes (ch : list Expr) (g : ExpressionGraph) (q : nat) :
  q ∈ topNodes_ (remove_children_from_top_nodes ch g)
  <-> q ∈ topNodes_ g /\ ~ In q (map ptr ch).
Proof.
  unfold remove_children_from_top_nodes. revert g.
  induction ch as [|c ch IH]; intros g; simpl; [tauto|].
  rewrite IH. unfold remove_top_node. simpl. rewrite elem_of_difference, elem_of_singleton.
  split.
  - intros [[Hq Hne] Hnin]. split; [exact Hq|]. intros [Heq|Hin]; [|contradiction].
    apply Hne. symmetry. exact Heq.
  - intros [Hq Hnin]. split; [split; [exact Hq|]|].
    + intros Heq. apply Hnin. left. symmetry. exact Heq.
    + intros Hin. apply Hnin. right. exact Hin.
Qed.

Lemma constructed_topNodes (c : Ctor) (s : Shape) (g : ExpressionGraph) (q : nat) :
  q ∈ topNodes_ (constructed c s g)
  <-> q ∈ topNodes_ g /\ ~ In q (map ptr (ctor_children c)).
Proof.
  unfold constructed. destruct (ctor_type c) eqn:Hty.
  - destruct c; try discriminate; simpl; tauto.
  - rewrite remove_children_topNodes. simpl. reflexivity.
Qed.

(** The members a parameter's naming leaves alone. *)
Lemma built_step (P : ExpressionGraph -> Prop) :
  (forall g p name, P g -> P (Parameters_add p name (set_name p name g))) ->
  P ExpressionGraph_new ->
  (forall c g e g', Built g -> P g -> Forall (fun a => In a (nodes_ g)) (ctor_children c) ->
                    Expression c g = Ok (e, g') -> P g') ->
  forall g, Built g -> P g.
Proof.
  intros Hname Hnew Hstep g HB.
  induction HB as [|c g e g' HB IH Hch Hex|name shape trainable init g p g' HB IH Hget Hpar].
  - exact Hnew.
  - exact (Hstep c g e g' HB IH Hch Hex).
  - unfold param in Hpar. rewrite Hget in Hpar.
    destruct (get name g); [discriminate|].
    destruct (Expression (NewParam shape trainable init) g) as [[p0 g0]|] eqn:Hex;
      [|discriminate].
    inversion Hpar; subst. apply Hname.
    apply (Hstep (NewParam shape trainable init) g p g0 HB IH); [constructor | exact Hex].
Qed.

(** In a built graph the hash table has one entry for every node of the
    node list: as many entries as nodes, every entry a node of the list, and
    every node of the list an entry.  So no two nodes of one generation have
    the hash they were added under in common. *)
Theorem hash_table_matches_nodes (g : ExpressionGraph) :
  Built g ->
  size (hashMap_ g) = length (nodes_ g) /\
  (forall h e, hashMap_ g !! h = Some e -> In e (nodes_ g)) /\
  (forall v, In v (nodes_ g) -> exists h, hashMap_ g !! h = Some v).
Proof.
  revert g. apply built_step.
  - intros g p name HP. exact HP.
  - split; [reflexivity|]. split.
    + intros h e Hl. simpl in Hl. rewrite lookup_empty in Hl. discriminate.
    + intros v [].
  - intros c g e g' _ (Hsize & Hin & Hall) _ Hex.
    destruct (Expression_cases c g g' e Hex) as (s & h & st & _ & Hcase).
    destruct (constructed_tables c s g) as (_ & Hn & _ & _ & Hhm & _).
    destruct Hcase as [[_ ->]|(Hmiss & -> & ->)].
    + simpl. rewrite Hn, Hhm. split; [exact Hsize|]. split; assumption.
    + destruct (add_new_tables h (mkExpr (next_ g) (ctor_type c) (ctor_children c))
                  (set_store st (constructed c s g))) as (_ & Hn' & _ & Hhm' & _).
      rewrite Hn', Hhm'. simpl. rewrite Hn, Hhm. rewrite Hhm in Hmiss.
      split; [|split].
      * rewrite map_size_insert_None by exact Hmiss. rewrite length_app, Hsize. simpl. lia.
      * intros h' e' Hl. apply lookup_insert_Some in Hl. apply in_or_app.
        destruct Hl as [[_ <-]|[_ Hl]]; [right; left; reflexivity | left; eapply Hin, Hl].
      * intros v Hv. apply in_app_or in Hv. destruct Hv as [Hv|[<-|[]]].
        -- destruct (Hall v Hv) as (h' & Hh'). exists h'.
           rewrite lookup_insert_ne; [exact Hh'|]. intros ->. congruence.
        -- exists h. apply lookup_insert_eq.
Qed.

(** In a built graph every top node is a node of the node list, and no child
    of a node of the list is a top node. *)
Theorem top_nodes_have_no_parent (g : ExpressionGraph) :
  Built g ->
  (forall q, q ∈ topNodes_ g -> exists v, In v (nodes_ g) /\ ptr v = q) /\
  (forall v c, In v (nodes_ g) -> In c (children v) -> ptr c ∉ topNodes_ g).
Proof.
  intros HB.
  assert (Hall : built_inv g /\
              (forall q, q ∈ topNodes_ g -> exists v, In v (nodes_ g) /\ ptr v = q) /\
              (forall v c, In v (nodes_ g) -> In c (children v) -> ptr c ∉ topNodes_ g));
    [|exact (proj2 Hall)].
  revert g HB. apply built_step.
  - intros g p name (Hinv & HP). split; [apply built_inv_named, Hinv | exact HP].
  - split; [apply built_inv_new|]. split.
    + intros q Hq. simpl in Hq. apply elem_of_empty in Hq. destruct Hq.
    + intros v c [].
  - intros c g e g' _ (Hinv & Htop & Hchild) Hch Hex.
    split; [eapply built_inv_Expression; eassumption|].
    destruct (Expression_cases c g g' e Hex) as (s & h & st & _ & Hcase).
    destruct (constructed_tables c s g) as (_ & Hn & _ & _ & _).
    pose proof (constructed_topNodes c s g) as Htop'.
    assert (Hfresh : forall v, In v (nodes_ g) -> ptr v <> next_ g).
    { intros v Hv. pose proof (inv_fresh g Hinv v Hv). lia. }
    destruct Hcase as [[_ ->]|(_ & -> & ->)].
    + simpl. rewrite Hn. split.
      * intros q Hq. apply Htop' in Hq. apply Htop, Hq.
      * intros v c0 Hv Hc0 Hq. apply Htop' in Hq. exact (Hchild v c0 Hv Hc0 (proj1 Hq)).
    + destruct (add_new_tables h (mkExpr (next_ g) (ctor_type c) (ctor_children c))
                  (set_store st (constructed c s g))) as (_ & Hn' & Ht' & _).
      rewrite Hn', Ht'. simpl. rewrite Hn. split.
      * intros q Hq. apply elem_of_union in Hq. destruct Hq as [Hq|Hq].
        -- apply elem_of_singleton in Hq. subst q.
           eexists. split; [apply in_or_app; right; left; reflexivity | reflexivity].
        -- apply Htop' in Hq. destruct (Htop q (proj1 Hq)) as (v & Hv & Hp).
           exists v. split; [apply in_or_app; left; exact Hv | exact Hp].
      * intros v c0 Hv Hc0 Hq. apply elem_of_union in Hq.
        apply in_app_or in Hv. destruct Hv as [Hv|[<-|[]]].
        -- destruct (lookup_of_In _ _ Hv) as (i & _ & Hi).
           destruct (inv_children g Hinv i v c0 Hi Hc0) as (j & _ & Hj).
           pose proof (Hfresh c0 (In_of_lookup _ _ _ Hj)) as Hne.
           destruct Hq as [Hq|Hq]; [apply elem_of_singleton in Hq; simpl in Hq; congruence|].
           apply Htop' in Hq. exact (Hchild v c0 Hv Hc0 (proj1 Hq)).
        -- simpl in Hc0. destruct Hq as [Hq|Hq].
           ++ apply elem_of_singleton in Hq. simpl in Hq.
              rewrite Forall_forall in Hch.
              pose proof (Hfresh c0 (Hch c0 (proj2 (list_elem_of_In _ _) Hc0))). congruence.
           ++ apply Htop' in Hq. apply (proj2 Hq). apply in_map. exact Hc0.
Qed.


(** *** Names are unique *)

Lemma add_names (p : Expr) (g : ExpressionGraph) :
  named_ (snd (add p g)) = named_ g /\ params_ (snd (add p g)) = params_ g.
Proof.
  destruct (hashMap_ g !! fst (hash p (store_ g))) as [e|] eqn:Hlook.
  - rewrite (add_hit p e g Hlook). split; reflexivity.
  - rewrite (add_miss p g Hlook). simpl snd.
    destruct (add_new_tables (fst (hash p (store_ g))) p
                (set_store (snd (hash p (store_ g))) g)) as (_ & _ & _ & _ & Hn & _ & Hp & _).
    rewrite Hn, Hp. split; reflexivity.
Qed.

Lemma Expression_names (c : Ctor) (g g' : ExpressionGraph) (e : Expr) :
  Expression c g = Ok (e, g') -> named_ g' = named_ g /\ params_ g' = params_ g.
Proof.
  intros Hex. rewrite Expression_eq in Hex.
  destruct (ctor_shape c g) as [s|]; [|discriminate].
  destruct (constructed_tables c s g) as (_ & _ & _ & _ & _ & Hp & Hn).
  destruct (add_names (mkExpr (next_ g) (ctor_type c) (ctor_children c)) (constructed c s g))
    as [Hn' Hp'].
  injection Hex as Hex. rewrite <- Hn, <- Hp, <- Hn', <- Hp', Hex. split; reflexivity.
Qed.

(** In a graph reached through the interface no name is both the name of a
    parameter and the name of a named node: [get] is unambiguous. *)
Theorem names_are_unique (g : ExpressionGraph) :
  Reachable g ->
  forall name, params_ g !! name = None \/ named_ g !! name = None.
Proof.
  induction 1 as [|c g e g' _ IH Hex|shape trainable init g e g' _ IH Hin
                  |name shape trainable init g p g' _ IH Hpar|e name g g' _ IH Hadd
                  |g _ IH|fake g _ IH|fake g g' _ IH Hb]; intros n.
  - left. apply lookup_empty.
  - destruct (Expression_names c g g' e Hex) as [-> ->]. apply IH.
  - unfold input in Hin.
    destruct (Expression (NewInput shape trainable init) g) as [[e0 g0]|] eqn:Hex;
      [|discriminate].
    destruct (Expression_names _ g g0 e0 Hex) as [Hn Hp].
    injection Hin as _ <-. simpl. rewrite Hn, Hp. apply IH.
  - unfold param, Parameters_get in Hpar.
    destruct (params_ g !! name) as [p0|] eqn:Hp0.
    + injection Hpar as _ <-. destruct (add_names p0 g) as [-> ->]. apply IH.
    + destruct (get name g) eqn:Hget; [discriminate|].
      destruct (Expression (NewParam shape trainable init) g) as [[e0 g0]|] eqn:Hex;
        [|discriminate].
      destruct (Expression_names _ g g0 e0 Hex) as [Hn Hp].
      injection Hpar as _ <-. simpl. rewrite Hn, Hp.
      destruct (decide (n = name)) as [->|Hne].
      * right. unfold get in Hget. rewrite Hp0 in Hget. exact Hget.
      * rewrite lookup_insert_ne by congruence. apply IH.
  - unfold add_named_node in Hadd.
    destruct (bool_decide (is_Some (params_ g !! name) \/ is_Some (get name g))) eqn:Hdec;
      [discriminate|].
    apply bool_decide_eq_false_1 in Hdec. injection Hadd as <-. simpl.
    destruct (decide (n = name)) as [->|Hne].
    + left. destruct (params_ g !! name) eqn:Hp; [|reflexivity].
      exfalso. apply Hdec. left. eexists. reflexivity.
    + rewrite lookup_insert_ne by congruence. apply IH.
  - right. apply lookup_empty.
  - destruct (same_tables_forward fake g) as (_ & _ & _ & _ & Hn & _ & _ & Hp & _).
    rewrite Hn, Hp. apply IH.
  - unfold backward in Hb.
    destruct (bool_decide (1 < size (topNodes_ g))%nat); [discriminate|].
    injection Hb as <-.
    assert (Hsame : same_tables g (backward_loop fake (nodes_ (backward_seed fake g))
                                     (backward_seed fake g))).
    { eapply same_tables_trans; [apply same_tables_backward_seed|].
      apply same_tables_backward_loop. }
    destruct Hsame as (_ & _ & _ & _ & Hn & _ & _ & Hp & _).
    rewrite Hn, Hp. apply IH.
Qed.


(** *** What is left after both passes *)

Lemma constructed_released (c : Ctor) (s : Shape) (g : ExpressionGraph) :
  released_ (constructed c s g) = released_ g.
Proof.
  unfold constructed. destruct (ctor_type c); [reflexivity|].
  unfold remove_children_from_top_nodes. rewrite released_fold by reflexivity. reflexivity.
Qed.

Lemma built_released (g : ExpressionGraph) : Built g -> released_ g = [].
Proof.
  revert g. apply built_step.
  - intros g p name HP. exact HP.
  - reflexivity.
  - intros c g e g' _ IH _ Hex.
    destruct (Expression_cases c g g' e Hex) as (s & h & st & _ & Hcase).
    destruct Hcase as [[_ ->]|(_ & _ & ->)].
    + simpl. rewrite constructed_released. exact IH.
    + destruct (add_new_tables h (mkExpr (next_ g) (ctor_type c) (ctor_children c))
                  (set_store st (constructed c s g))) as (_ & _ & _ & _ & _ & _ & _ & _ & Hr).
      rewrite Hr. simpl. rewrite constructed_released. exact IH.
Qed.

Lemma built_prefix_fresh (g : ExpressionGraph) (l1 l2 : list Expr) (v : Expr) :
  built_inv g -> nodes_ g = l1 ++ v :: l2 ->
  forall u, In u l1 -> ptr u <> ptr v /\ forall c, In c (children u) -> ptr c <> ptr v.
Proof.
  intros Hinv Hsplit.
  assert (Hl1 : forall u, In u l1 -> ptr u <> ptr v).
  { pose proof (inv_nodup g Hinv) as Hnd. rewrite Hsplit, map_app in Hnd. simpl in Hnd.
    apply NoDup_app in Hnd. destruct Hnd as (_ & Hnd & _).
    intros u Hu Heq. apply (Hnd (ptr u)).
    - apply list_elem_of_In. apply in_map. exact Hu.
    - rewrite Heq. apply list_elem_of_here. }
  intros u Hu. split; [apply Hl1, Hu|]. intros c Hc.
  destruct (lookup_of_In l1 u Hu) as (i & Hi & Hlook).
  assert (Hlook' : nodes_ g !! i = Some u).
  { rewrite Hsplit. rewrite lookup_app_l by exact Hi. exact Hlook. }
  destruct (inv_children g Hinv i u c Hlook' Hc) as (j & Hj & Hcj).
  rewrite Hsplit, lookup_app_l in Hcj by lia.
  apply Hl1. eapply In_of_lookup. exact Hcj.
Qed.

(** [backprop] on a built graph with at most one top node returns, and
    afterwards every node of the list that has no name of its own has been
    released and holds neither a value nor a gradient, while no node with a
    name has been released: the named nodes, the parameters among them, are
    what is left. *)
Theorem backprop_releases_unnamed (g : ExpressionGraph) :
  Built g ->
  (size (topNodes_ g) <= 1)%nat ->
  exists g',
    backprop g = Ok g' /\
    forall v, In v (nodes_ g) ->
      (name_ (node g v) = "none" ->
       In (ptr v) (released_ g') /\ val_ (node g' v) = None /\ adj_ (node g' v) = None) /\
      (name_ (node g v) <> "none" -> ~ In (ptr v) (released_ g')).
Proof.
  intros HB Hsize. pose proof (Built_inv g HB) as Hinv.
  set (gf := snd (forward false g)).
  set (gs := backward_seed false gf).
  destruct (same_tables_forward false g) as (_ & Hnf & _ & _ & _ & _ & Htf & _).
  fold gf in Hnf, Htf.
  destruct (same_tables_backward_seed false gf) as (_ & Hns & _).
  fold gs in Hns.
  exists (backward_loop false (nodes_ gs) gs). split.
  { unfold backprop, backward. fold gf. rewrite Htf.
    rewrite bool_decide_eq_false_2 by lia. reflexivity. }
  assert (Hframe : pass_frame g gs).
  { eapply pass_frame_trans; [apply pass_frame_forward|].
    apply value_frame_store_frame, value_frame_backward_seed. }
  assert (Hrel0 : released_ gs = []).
  { destruct (backward_seed_val false gf 0%nat) as [_ Hr]. fold gs in Hr. rewrite Hr.
    unfold gf. rewrite released_forward. apply built_released, HB. }
  intros v Hv. split.
  - intros Hname.
    destruct (in_split v (nodes_ g) Hv) as (l1 & l2 & Hsplit).
    set (q := ptr v).
    assert (Hrev : rev (nodes_ gs) = rev l2 ++ v :: rev l1).
    { rewrite Hns, Hnf, Hsplit, rev_app_distr. simpl. rewrite <- app_assoc. reflexivity. }
    set (gk := fold_left (backward_step false) (rev l2) gs).
    (* the edge count of [v] when it has been visited *)
    assert (Hedges : edges_ (store_ (backward_visit false gk v) q) = 0).
    { assert (Hd1 : degree l1 q = 0).
      { apply degree_fresh. apply (built_prefix_fresh g l1 l2 v Hinv Hsplit). }
      assert (HD : degree (nodes_ g) q = slots v q + degree l2 q).
      { rewrite Hsplit, degree_app, Hd1. reflexivity. }
      assert (E0 : edges_ (store_ g q) = wrap (2 * degree (nodes_ g) q))
        by apply (inv_edges g Hinv).
      assert (E1 : edges_ (store_ gf q) = wrap (degree (nodes_ g) q)).
      { unfold gf. rewrite forward_edges by (rewrite E0, wrap_wrap; reflexivity).
        rewrite E0, wrap_sub_l. f_equal. lia. }
      assert (E2 : edges_ (store_ gs q) = wrap (degree (nodes_ g) q)).
      { unfold gs. rewrite (value_frame_edges _ _ q (value_frame_backward_seed false gf)).
        exact E1. }
      assert (E3 : edges_ (store_ gk q) = wrap (degree (nodes_ g) q - degree l2 q)).
      { unfold gk. rewrite (steps_edges (backward_step false) (rev l2) gs q).
        - rewrite E2, wrap_sub_l, degree_rev. reflexivity.
        - intros g0 v0. apply backward_step_edges.
        - rewrite E2, wrap_wrap. reflexivity. }
      rewrite backward_visit_edges by (rewrite E3, wrap_wrap; reflexivity).
      rewrite E3, wrap_sub_l, HD. replace (slots v q + degree l2 q - degree l2 q - slots v q)
        with 0 by lia. reflexivity. }
    assert (Hnm : name_ (store_ (backward_visit false gk v) q) = "none").
    { rewrite (pass_frame_name _ _ q (pass_frame_backward_visit false gk v)).
      unfold gk. rewrite (pass_frame_name _ _ q (pass_frame_steps false (rev l2) gs)).
      rewrite (pass_frame_name _ _ q Hframe). exact Hname. }
    assert (Hr : releasable (backward_visit false gk v) v = true).
    { apply releasable_spec. split; [exact Hedges | exact Hnm]. }
    set (g1 := backward_step false gk v).
    assert (Hloop : backward_loop false (nodes_ gs) gs
                    = fold_left (backward_step false) (rev l1) g1).
    { unfold backward_loop. rewrite Hrev, fold_left_app. reflexivity. }
    assert (Hst1 : val_ (store_ g1 q) = None /\ adj_ (store_ g1 q) = None).
    { unfold g1. rewrite backward_step_store, Hr.
      rewrite bool_decide_eq_true_2 by reflexivity. simpl. split; reflexivity. }
    assert (Hfresh := built_prefix_fresh g l1 l2 v Hinv Hsplit).
    split; [|split].
    + unfold backward_loop. rewrite Hrev. apply released_steps. right.
      exists (rev l2), v, (rev l1). split; [reflexivity|]. split; [reflexivity | exact Hr].
    + unfold node. fold q. rewrite Hloop.
      destruct (backward_steps_val false (rev l1) g1 q) as (r & _ & Hin & Hout).
      destruct (in_dec Nat.eq_dec q r) as [Hq|Hq]; [exact (Hin Hq)|].
      rewrite (Hout Hq). exact (proj1 Hst1).
    + unfold node. fold q. rewrite Hloop.
      rewrite backward_steps_other; [exact (proj2 Hst1)| |].
      * intros u Hu Hin. apply in_rev in Hu. apply in_map_iff in Hin.
        destruct Hin as (c & Hc & Hcu). destruct (Hfresh u Hu) as [_ Hch].
        exact (Hch c Hcu Hc).
      * intros (u & Hu & Heq). apply in_rev in Hu. destruct (Hfresh u Hu) as [Hne _].
        contradiction.
  - intros Hname Hin. unfold backward_loop in Hin.
    apply released_steps in Hin. destruct Hin as [Hin|(l1 & u & l2 & Hl & Hp & Hr)].
    + rewrite Hrel0 in Hin. destruct Hin.
    + apply Hname. apply releasable_spec in Hr. destruct Hr as [_ Hn].
      unfold node in Hn. rewrite Hp in Hn.
      rewrite (pass_frame_name _ _ (ptr v) (pass_frame_backward_visit false _ u)) in Hn.
      rewrite (pass_frame_name _ _ (ptr v) (pass_frame_steps false l1 gs)) in Hn.
      rewrite (pass_frame_name _ _ (ptr v) Hframe) in Hn. exact Hn.
Qed.


(** *** The tapes *)

Lemma add_children_levels (n : Expr) (ch : list Expr) (grp : Z) (g : ExpressionGraph) :
  (forall c, In c ch -> exists lc, tapeMap_ g !! ptr c = Some lc /\ 0 <= lc /\ lc + 1 < 2 ^ 64) ->
  tapeMap_ (snd (fold_left (add_child n) ch (grp, g))) = tapeMap_ g /\
  tapes_ (snd (fold_left (add_child n) ch (grp, g))) = tapes_ g /\
  grp <= fst (fold_left (add_child n) ch (grp, g)) /\
  (forall c lc, In c ch -> tapeMap_ g !! ptr c = Some lc ->
                lc < fst (fold_left (add_child n) ch (grp, g))) /\
  (fst (fold_left (add_child n) ch (grp, g)) = grp \/
   exists c lc, In c ch /\ tapeMap_ g !! ptr c = Some lc /\
                fst (fold_left (add_child n) ch (grp, g)) = lc + 1).
Proof.
  revert grp g. induction ch as [|c ch IH]; intros grp g Hch.
  - simpl. split; [reflexivity|]. split; [reflexivity|]. split; [lia|].
    split; [intros c lc []|left; reflexivity].
  - change (fold_left (add_child n) (c :: ch) (grp, g))
      with (fold_left (add_child n) ch (add_child n (grp, g) c)).
    rewrite add_child_eq.
    destruct (Hch c (or_introl eq_refl)) as (lc & Hlc & Hlc0 & Hlc1).
    assert (Hat : tapeMap_at c g = (lc, g)) by (unfold tapeMap_at; rewrite Hlc; reflexivity).
    rewrite Hat. simpl fst. simpl snd. rewrite wrap_small by lia.
    set (g1 := increaseEdges n 2 (increaseEdges c 2 g)).
    assert (Hmap1 : tapeMap_ g1 = tapeMap_ g) by reflexivity.
    assert (Htapes1 : tapes_ g1 = tapes_ g) by reflexivity.
    assert (Hch1 : forall c0, In c0 ch ->
              exists l0, tapeMap_ g1 !! ptr c0 = Some l0 /\ 0 <= l0 /\ l0 + 1 < 2 ^ 64).
    { intros c0 Hc0. rewrite Hmap1. apply Hch. right. exact Hc0. }
    destruct (IH (Z.max grp (lc + 1)) g1 Hch1) as (Hm & Ht & Hle & Hlt & Hex).
    clearbody g1. rewrite Hm, Ht, Hmap1, Htapes1.
    split; [reflexivity|]. split; [reflexivity|]. split; [lia|]. split.
    + intros c0 l0 [<-|Hc0] Hl0.
      * assert (l0 = lc) by congruence. lia.
      * apply (Hlt c0 l0 Hc0). rewrite Hmap1. exact Hl0.
    + destruct Hex as [Heq|(c0 & l0 & Hc0 & Hl0 & Heq)].
      * rewrite Heq. destruct (Z.max_spec grp (lc + 1)) as [[_ ->]|[_ ->]].
        -- right. exists c, lc. split; [left; reflexivity|]. split; [exact Hlc | reflexivity].
        -- left. reflexivity.
      * right. exists c0, l0. split; [right; exact Hc0|]. rewrite Hmap1 in Hl0.
        split; [exact Hl0 | exact Heq].
Qed.

Lemma add_new_tapes (h : Z) (n : Expr) (g : ExpressionGraph) :
  (forall c, In c (children n) ->
             exists lc, tapeMap_ g !! ptr c = Some lc /\ 0 <= lc /\ lc + 1 < 2 ^ 64) ->
  exists group,
    0 <= group /\
    tapeMap_ (add_new h n g) = <[ptr n := group]> (tapeMap_ g) /\
    tapes_ (add_new h n g)
    = alter (fun t => t ++ [n]) (Z.to_nat group)
        (if Z.leb (Z.of_nat (length (tapes_ g))) group
         then tapes_resize (Z.to_nat (wrap (group + 1))) (tapes_ g)
         else tapes_ g) /\
    (forall c lc, In c (children n) -> tapeMap_ g !! ptr c = Some lc -> lc < group) /\
    (group = 0 \/
     exists c lc, In c (children n) /\ tapeMap_ g !! ptr c = Some lc /\ group = lc + 1).
Proof.
  intros Hch. unfold add_new.
  set (g2 := set_count _ (setId n _ (set_hashMap _ g))).
  assert (Hmap2 : tapeMap_ g2 = tapeMap_ g) by reflexivity.
  assert (Htapes2 : tapes_ g2 = tapes_ g) by reflexivity.
  assert (Hch2 : forall c, In c (children n) ->
            exists lc, tapeMap_ g2 !! ptr c = Some lc /\ 0 <= lc /\ lc + 1 < 2 ^ 64).
  { intros c Hc. rewrite Hmap2. apply Hch, Hc. }
  destruct (add_children_levels n (children n) 0 g2 Hch2) as (Hm & Ht & Hle & Hlt & Hex).
  clearbody g2.
  destruct (fold_left (add_child n) (children n) (0, g2)) as [group g3].
  simpl fst in *. simpl snd in *.
  exists group. split; [exact Hle|].
  assert (Hlt' : forall c lc, In c (children n) -> tapeMap_ g !! ptr c = Some lc -> lc < group).
  { intros c lc Hc Hlc. apply (Hlt c lc Hc). rewrite Hmap2. exact Hlc. }
  assert (Hex' : group = 0 \/
                 exists c lc, In c (children n) /\ tapeMap_ g !! ptr c = Some lc /\
                              group = lc + 1).
  { destruct Hex as [->|(c & lc & Hc & Hlc & ->)]; [left; reflexivity|].
    right. exists c, lc. rewrite Hmap2 in Hlc. split; [exact Hc|]. split; [exact Hlc|reflexivity]. }
  rewrite Hmap2 in Hm. rewrite Htapes2 in Ht.
  change (tapes_ (set_tapeMap (<[ptr n := group]> (tapeMap_ g3)) g3)) with (tapes_ g3).
  rewrite Ht.
  destruct (Z.leb (Z.of_nat (length (tapes_ g))) group) eqn:Hleb; simpl; rewrite ?Hm, ?Ht;
    (split; [reflexivity|]; split; [reflexivity|]; split; [exact Hlt' | exact Hex']).
Qed.


Lemma constructed_tapes (c : Ctor) (s : Shape) (g : ExpressionGraph) :
  tapes_ (constructed c s g) = tapes_ g /\ tapeMap_ (constructed c s g) = tapeMap_ g.
Proof.
  unfold constructed. destruct (ctor_type c); [split; reflexivity|].
  set (g0 := set_next (S (next_ g)) _).
  assert (Hg0 : tapes_ g0 = tapes_ g /\ tapeMap_ g0 = tapeMap_ g) by (split; reflexivity).
  clearbody g0. destruct Hg0 as [<- <-].
  unfold remove_children_from_top_nodes. revert g0.
  induction (ctor_children c) as [|c0 ch IH]; intros g0; simpl; [split; reflexivity|].
  destruct (IH (remove_top_node c0 g0)) as [-> ->]. split; reflexivity.
Qed.

Lemma levelled_step (c : Ctor) (g g' : ExpressionGraph) (e : Expr) :
  built_inv g ->
  (Z.of_nat (length (nodes_ g)) < 2 ^ 64 -> levelled g) ->
  Forall (fun a => In a (nodes_ g)) (ctor_children c) ->
  Expression c g = Ok (e, g') ->
  Z.of_nat (length (nodes_ g')) < 2 ^ 64 -> levelled g'.
Proof.
  intros Hinv IH Hch Hex Hlen.
  destruct (Expression_cases c g g' e Hex) as (s & h & st & _ & Hcase).
  destruct (constructed_tables c s g) as (_ & Hn & _ & _ & _).
  destruct (constructed_tapes c s g) as [Htp Htm].
  destruct Hcase as [[_ ->]|(_ & _ & ->)].
  { simpl in Hlen. rewrite Hn in Hlen. specialize (IH Hlen).
    unfold levelled in *. simpl. rewrite Hn, Htp, Htm. exact IH. }
  set (e0 := mkExpr (next_ g) (ctor_type c) (ctor_children c)) in *.
  set (g2 := set_store st (constructed c s g)) in *.
  destruct (add_new_tables h e0 g2) as (_ & Hn' & _).
  assert (Hn2 : nodes_ g2 = nodes_ g) by exact Hn.
  assert (Htp2 : tapes_ g2 = tapes_ g) by exact Htp.
  assert (Htm2 : tapeMap_ g2 = tapeMap_ g) by exact Htm.
  rewrite Hn', Hn2, length_app in Hlen. simpl in Hlen.
  assert (Hlen0 : Z.of_nat (length (nodes_ g)) < 2 ^ 64) by lia.
  destruct (IH Hlen0) as [T1 T2]. clear IH.
  assert (Hfresh : forall v, In v (nodes_ g) -> ptr v <> next_ g).
  { intros v Hv. pose proof (inv_fresh g Hinv v Hv). lia. }
  assert (Hops : forall c0, In c0 (children e0) -> In c0 (nodes_ g)).
  { intros c0 Hc0. rewrite Forall_forall in Hch. apply Hch. apply list_elem_of_In. exact Hc0. }
  assert (Hlev : forall c0, In c0 (children e0) ->
            exists lc, tapeMap_ g2 !! ptr c0 = Some lc /\ 0 <= lc /\ lc + 1 < 2 ^ 64).
  { intros c0 Hc0. destruct (T1 c0 (Hops c0 Hc0)) as (lc & _ & Hlc & Hb & _).
    exists lc. rewrite Htm2. split; [exact Hlc | lia]. }
  destruct (add_new_tapes h e0 g2 Hlev) as (group & Hg0 & Hmap & Htapes & Hlt & Hdisj).
  rewrite Htm2 in Hmap, Hlt, Hdisj. rewrite Htp2 in Htapes.
  assert (Hgb : group <= Z.of_nat (length (nodes_ g))).
  { destruct Hdisj as [->|(c0 & lc & Hc0 & Hlc & ->)]; [lia|].
    destruct (T1 c0 (Hops c0 Hc0)) as (lc' & _ & Hlc' & Hb & _).
    assert (lc' = lc) by congruence. lia. }
  set (T := tapes_ g) in *.
  set (T' := if Z.leb (Z.of_nat (length T)) group
             then tapes_resize (Z.to_nat (wrap (group + 1))) T else T) in *.
  set (k := Z.to_nat group) in *.
  assert (HT' : (k < length T')%nat /\
                (forall i, (i < length T)%nat -> T' !! i = T !! i) /\
                (forall i t, T' !! i = Some t -> (length T <= i)%nat -> t = [])).
  { unfold T'. destruct (Z.leb_spec (Z.of_nat (length T)) group) as [Hle|Hgt].
    - unfold tapes_resize. rewrite wrap_small by lia.
      split; [|split].
      + rewrite length_app, length_replicate. unfold k. lia.
      + intros i Hi. apply lookup_app_l. exact Hi.
      + intros i t Hl Hi. rewrite lookup_app_r in Hl by exact Hi.
        apply lookup_replicate in Hl. tauto.
    - split; [unfold k; lia|]. split; [reflexivity|].
      intros i t Hl Hi. apply lookup_lt_Some in Hl. lia. }
  destruct HT' as (Hk & Hold & Hnew).
  assert (Hmapold : forall u, In u (nodes_ g) ->
            tapeMap_ (add_new h e0 g2) !! ptr u = tapeMap_ g !! ptr u).
  { intros u Hu. rewrite Hmap. apply lookup_insert_ne. simpl.
    intros Heq. apply (Hfresh u Hu). symmetry. exact Heq. }
  assert (Hchild_in : forall v c0, In v (nodes_ g) -> In c0 (children v) -> In c0 (nodes_ g)).
  { intros v c0 Hv Hc0. destruct (lookup_of_In _ _ Hv) as (i & _ & Hi).
    destruct (inv_children g Hinv i v c0 Hi Hc0) as (j & _ & Hj).
    eapply In_of_lookup. exact Hj. }
  split.
  - intros v Hv. rewrite Hn', Hn2 in Hv. rewrite Hn', Hn2, length_app. simpl length.
    apply in_app_or in Hv. destruct Hv as [Hv|[<-|[]]].
    + destruct (T1 v Hv) as (l & t & Hl & Hb & Ht & Hvt & Hch' & Hd).
      exists l, (if decide (k = Z.to_nat l) then t ++ [e0] else t).
      split; [rewrite (Hmapold v Hv); exact Hl|]. split; [lia|]. split; [|split; [|split]].
      * rewrite Htapes, list_lookup_alter.
        pose proof (lookup_lt_Some _ _ _ Ht) as Hlt'.
        destruct (decide (k = Z.to_nat l)) as [Heq|Hne].
        -- rewrite Heq, (Hold _ Hlt'). fold T in Ht. rewrite Ht. reflexivity.
        -- rewrite (Hold _ Hlt'). exact Ht.
      * destruct (decide (k = Z.to_nat l)); [apply in_or_app; left|]; exact Hvt.
      * intros c0 Hc0. destruct (Hch' c0 Hc0) as (lc & Hlc & Hlt0).
        exists lc. split; [|exact Hlt0].
        rewrite (Hmapold c0 (Hchild_in v c0 Hv Hc0)). exact Hlc.
      * destruct Hd as [->|(c0 & lc & Hc0 & Hlc & ->)]; [left; reflexivity|].
        right. exists c0, lc. split; [exact Hc0|]. split; [|reflexivity].
        rewrite (Hmapold c0 (Hchild_in v c0 Hv Hc0)). exact Hlc.
    + destruct (lookup_lt_is_Some_2 T' k Hk) as [t0 Ht0].
      exists group, (t0 ++ [e0]).
      split; [rewrite Hmap; apply lookup_insert_eq|]. split; [lia|]. split; [|split; [|split]].
      * rewrite Htapes, list_lookup_alter. rewrite decide_True by reflexivity.
        fold k. rewrite Ht0. reflexivity.
      * apply in_or_app. right. left. reflexivity.
      * intros c0 Hc0. destruct (T1 c0 (Hops c0 Hc0)) as (lc & _ & Hlc & _).
        exists lc. split; [rewrite (Hmapold c0 (Hops c0 Hc0)); exact Hlc|].
        exact (Hlt c0 lc Hc0 Hlc).
      * destruct Hdisj as [->|(c0 & lc & Hc0 & Hlc & ->)]; [left; reflexivity|].
        right. exists c0, lc. split; [exact Hc0|]. split; [|reflexivity].
        rewrite (Hmapold c0 (Hops c0 Hc0)). exact Hlc.
  - intros i t u Hit Hu. rewrite Htapes, list_lookup_alter in Hit. rewrite Hn', Hn2.
    destruct (decide (k = i)) as [<-|Hne].
    + destruct (T' !! k) as [t0|] eqn:Ht0; [|discriminate].
      simpl in Hit. injection Hit as <-.
      apply in_app_or in Hu. destruct Hu as [Hu|[<-|[]]].
      * destruct (Nat.lt_ge_cases k (length T)) as [Hlt'|Hge].
        -- rewrite (Hold _ Hlt') in Ht0. destruct (T2 k t0 u Ht0 Hu) as [Hin Hlev'].
           split; [apply in_or_app; left; exact Hin|]. rewrite (Hmapold u Hin). exact Hlev'.
        -- rewrite (Hnew k t0 Ht0 Hge) in Hu. destruct Hu.
      * split; [apply in_or_app; right; left; reflexivity|].
        rewrite Hmap, lookup_insert_eq. unfold k. rewrite Z2Nat.id by lia. reflexivity.
    + destruct (Nat.lt_ge_cases i (length T)) as [Hlt'|Hge].
      * rewrite (Hold _ Hlt') in Hit. destruct (T2 i t u Hit Hu) as [Hin Hlev'].
        split; [apply in_or_app; left; exact Hin|]. rewrite (Hmapold u Hin). exact Hlev'.
      * rewrite (Hnew i t Hit Hge) in Hu. destruct Hu.
Qed.

(** In a built graph of fewer than [2^64] nodes the tapes sort the nodes by
    level: every node of the list has a level in [tapeMap_] and stands in the
    tape of that level; a node without children has level zero, and any other
    node has a level one above the highest level of its children; and every
    member of the tape at position [i] is a node of the list of level [i]. *)
Theorem tape_levels (g : ExpressionGraph) :
  Built g ->
  Z.of_nat (length (nodes_ g)) < 2 ^ 64 ->
  (forall v, In v (nodes_ g) ->
     exists l t,
       tapeMap_ g !! ptr v = Some l /\ 0 <= l < Z.of_nat (length (nodes_ g)) /\
       tapes_ g !! Z.to_nat l = Some t /\ In v t /\
       (forall c, In c (children v) -> exists lc, tapeMap_ g !! ptr c = Some lc /\ lc < l) /\
       (l = 0 \/
        exists c lc, In c (children v) /\ tapeMap_ g !! ptr c = Some lc /\ l = lc + 1)) /\
  (forall i t u, tapes_ g !! i = Some t -> In u t ->
     In u (nodes_ g) /\ tapeMap_ g !! ptr u = Some (Z.of_nat i)).
Proof.
  intros HB.
  assert (Hall : built_inv g /\ (Z.of_nat (length (nodes_ g)) < 2 ^ 64 -> levelled g));
    [|exact (proj2 Hall)].
  revert g HB. apply built_step.
  - intros g p name (Hinv & HP). split; [apply built_inv_named, Hinv | exact HP].
  - split; [apply built_inv_new|]. intros _. split.
    + intros v [].
    + intros i t u Hl. simpl in Hl. rewrite lookup_nil in Hl. discriminate.
  - intros c g e g' _ (Hinv & IH) Hch Hex.
    split; [eapply built_inv_Expression; eassumption|].
    eapply levelled_step; eassumption.
Qed.


(** *** The size of the workspace *)

(** [reserveWorkspaceMB] turns megabytes into four-byte elements, less one:
    for [0] megabytes the subtraction wraps around and it asks for
    [2^64 - 1] elements; for [1 <= num < 2^44] it asks for
    [num * 262144 - 1], of which [reservedWorkspaceMB] makes [num - 1]
    megabytes. *)
Theorem workspace_megabytes (num : Z) :
  0 <= num < 2 ^ 44 ->
  (num = 0 -> reserveWorkspaceMB num = 2 ^ 64 - 1) /\
  (1 <= num ->
   reserveWorkspaceMB num = num * 262144 - 1 /\
   reservedWorkspaceMB (reserveWorkspaceMB num) = num - 1).
Proof.
  intros Hnum. unfold reserveWorkspaceMB, reservedWorkspaceMB.
  rewrite (wrap_small (num * 1024)) by lia.
  rewrite (wrap_small (num * 1024 * 1024)) by lia.
  replace (num * 1024 * 1024) with (num * 262144 * 4) by lia.
  rewrite Z.div_mul by lia.
  split.
  - intros ->. reflexivity.
  - intros Hpos. rewrite (wrap_small (num * 262144 - 1)) by lia.
    split; [reflexivity|].
    rewrite wrap_small by lia.
    symmetry. apply (Z.div_unique _ _ _ (1048576 - 4)); lia.
Qed.

(** *** What a node takes from its children *)

Lemma hash_frame_fields (st st' : Store) (q : nat) :
  hash_frame st st' ->
  trainable_ (st' q) = trainable_ (st q) /\ shape_ (st' q) = shape_ (st q).
Proof.
  intros Hf. specialize (Hf q). destruct (st' q), (st q). simpl in Hf.
  inversion Hf. split; reflexivity.
Qed.

Lemma iblank_fields (n n' : Node) :
  iblank n' = iblank n -> trainable_ n' = trainable_ n /\ shape_ n' = shape_ n.
Proof.
  destruct n, n'. unfold iblank. simpl. intros Heq. inversion Heq. split; reflexivity.
Qed.

Lemma add_fields (n : Expr) (g : ExpressionGraph) (q : nat) :
  trainable_ (store_ (snd (add n g)) q) = trainable_ (store_ g q) /\
  shape_ (store_ (snd (add n g)) q) = shape_ (store_ g q).
Proof.
  pose proof (hash_frame_fields _ _ q (hash_writes_memo_only n (store_ g))) as [Ht Hs].
  destruct (hashMap_ g !! fst (hash n (store_ g))) as [e|] eqn:Hlook.
  - rewrite (add_hit n e g Hlook). simpl. split; assumption.
  - rewrite (add_miss n g Hlook). simpl snd.
    destruct (iblank_fields _ _
                (add_new_frame (fst (hash n (store_ g))) n
                   (set_store (snd (hash n (store_ g))) g) q)) as [Ht' Hs'].
    rewrite Ht', Hs'. simpl. split; assumption.
Qed.

Lemma Expression_fields (c : Ctor) (g g' : ExpressionGraph) (e : Expr) :
  Expression c g = Ok (e, g') ->
  exists s, ctor_shape c g = Some s /\
    trainable_ (store_ g' (next_ g)) = ctor_trainable c g /\
    shape_ (store_ g' (next_ g)) = s /\
    forall q, q <> next_ g ->
              trainable_ (store_ g' q) = trainable_ (store_ g q) /\
              shape_ (store_ g' q) = shape_ (store_ g q).
Proof.
  intros Hex. rewrite Expression_eq in Hex.
  destruct (ctor_shape c g) as [s|]; [|discriminate].
  exists s. split; [reflexivity|].
  destruct (constructed_tables c s g) as (Hst & _).
  assert (Hg' : g' = snd (add (mkExpr (next_ g) (ctor_type c) (ctor_children c))
                              (constructed c s g))).
  { injection Hex as Hex. rewrite Hex. reflexivity. }
  subst g'. clear Hex.
  assert (Hq : forall q,
            trainable_ (store_ (snd (add (mkExpr (next_ g) (ctor_type c) (ctor_children c))
                                         (constructed c s g))) q)
            = trainable_ (upd (next_ g)
                            (fun _ => Node_new s (ctor_trainable c g) (ctor_init c))
                            (store_ g) q) /\
            shape_ (store_ (snd (add (mkExpr (next_ g) (ctor_type c) (ctor_children c))
                                     (constructed c s g))) q)
            = shape_ (upd (next_ g)
                        (fun _ => Node_new s (ctor_trainable c g) (ctor_init c))
                        (store_ g) q)).
  { intros q. rewrite <- Hst. apply add_fields. }
  split; [|split].
  - rewrite (proj1 (Hq (next_ g))), upd_same. reflexivity.
  - rewrite (proj2 (Hq (next_ g))), upd_same. reflexivity.
  - intros q Hne. destruct (Hq q) as [-> ->]. rewrite upd_other by exact Hne.
    split; reflexivity.
Qed.

Lemma existsb_ext_in {A : Type} (f f' : A -> bool) (l : list A) :
  (forall a, In a l -> f' a = f a) -> existsb f' l = existsb f l.
Proof.
  induction l as [|a l IH]; intros Hf; [reflexivity|]. simpl.
  rewrite (Hf a (or_introl eq_refl)), IH; [reflexivity|].
  intros b Hb. apply Hf. right. exact Hb.
Qed.

Lemma inherits_transfer (g g' : ExpressionGraph) (v : Expr) :
  (forall q, q = ptr v \/ In q (map ptr (children v)) ->
             trainable_ (store_ g' q) = trainable_ (store_ g q) /\
             shape_ (store_ g' q) = shape_ (store_ g q)) ->
  inherits g v -> inherits g' v.
Proof.
  intros Hsame (a & rest & Hch & Htr & Hsh).
  assert (Hc : forall c, In c (children v) ->
            trainable_ (node g' c) = trainable_ (node g c) /\
            shape_ (node g' c) = shape_ (node g c)).
  { intros c Hin. apply Hsame. right. apply in_map. exact Hin. }
  destruct (Hsame (ptr v) (or_introl eq_refl)) as [Htv Hsv].
  exists a, rest. split; [exact Hch|]. split.
  - unfold node at 1. rewrite Htv. fold (node g v). rewrite Htr.
    symmetry. apply existsb_ext_in. intros c Hin. apply Hc, Hin.
  - assert (Ha : shape_ (node g' a) = shape_ (node g a)).
    { apply Hc. rewrite Hch. left. reflexivity. }
    assert (Hv : shape_ (node g' v) = shape_ (node g v)) by exact Hsv.
    assert (Htanh : Tanh_newShape g a rest = Some (shape_ (node g v)) ->
                    Tanh_newShape g' a rest = Some (shape_ (node g' v))).
    { intros Hn. rewrite Hv, <- Hn.
      apply (ctor_shape_ext (NewTanh a rest) g g'). intros b Hb. apply Hc.
      rewrite Hch. exact Hb. }
    destruct (node_type v) as [l|o]; [rewrite Hv, Ha; exact Hsh|].
    destruct o; try (rewrite Hv, Ha; exact Hsh). apply Htanh, Hsh.
Qed.

(** In a built graph every node of the list of one of the operator classes
    modelled here, constructed from its operands alone, has at least one
    child and is trainable exactly when one of its children is; a node of
    [LogitNodeOp], [ReLUNodeOp], [SoftmaxNodeOp], [LogSoftmaxNodeOp],
    [LogNodeOp], [ExpNodeOp], [SquareNodeOp] or [NegNodeOp] has the shape of
    its first child, and a node of [TanhNodeOp] the shape that [newShape]
    makes of the shapes of its children.  (The classes of
    [node_operators_unary.h] that hand a shape of their own to the
    constructor of [NaryNodeOp], such as [SumNodeOp] or [TransposeNodeOp], are
    not among them.) *)
Theorem operation_nodes_inherit (g : ExpressionGraph) :
  Built g ->
  forall v o, In v (nodes_ g) -> node_type v = Op o ->
    exists a rest,
      children v = a :: rest /\
      trainable_ (node g v) = existsb (fun c => trainable_ (node g c)) (children v) /\
      match o with
      | TanhNodeOp => Tanh_newShape g a rest = Some (shape_ (node g v))
      | LogitNodeOp | ReLUNodeOp | SoftmaxNodeOp | LogSoftmaxNodeOp
      | LogNodeOp | ExpNodeOp | SquareNodeOp | NegNodeOp =>
        shape_ (node g v) = shape_ (node g a)
      end.
Proof.
  intros HB.
  assert (Hall : built_inv g /\
                 forall v o, In v (nodes_ g) -> node_type v = Op o -> inherits g v).
  2:{ intros v o Hv Hty.
      destruct (proj2 Hall v o Hv Hty) as (a & rest & Hch & Htr & Hsh).
      exists a, rest. split; [exact Hch|]. split; [exact Htr|].
      rewrite Hty in Hsh. destruct o; exact Hsh. }
  revert g HB. apply built_step.
  - intros g p name (Hinv & HP). split; [apply built_inv_named, Hinv|].
    intros v o Hv Hty. apply (inherits_transfer g); [|exact (HP v o Hv Hty)].
    intros q _. simpl. unfold upd. destruct (decide (q = ptr p)); split; reflexivity.
  - split; [apply built_inv_new|]. intros v o [].
  - intros c g e g' _ (Hinv & IH) Hch Hex.
    split; [eapply built_inv_Expression; eassumption|].
    destruct (Expression_fields c g g' e Hex) as (s & Hshape & Htr & Hsh & Hother).
    assert (Hfresh : forall v, In v (nodes_ g) -> ptr v <> next_ g).
    { intros v Hv. pose proof (inv_fresh g Hinv v Hv). lia. }
    assert (Hchild_in : forall v c0, In v (nodes_ g) -> In c0 (children v) -> In c0 (nodes_ g)).
    { intros v c0 Hv Hc0. destruct (lookup_of_In _ _ Hv) as (i & _ & Hi).
      destruct (inv_children g Hinv i v c0 Hi Hc0) as (j & _ & Hj).
      eapply In_of_lookup. exact Hj. }
    assert (Hold : forall v o, In v (nodes_ g) -> node_type v = Op o -> inherits g' v).
    { intros v o Hv Hty. apply (inherits_transfer g); [|exact (IH v o Hv Hty)].
      intros q [->|Hq]; apply Hother.
      - apply Hfresh, Hv.
      - apply in_map_iff in Hq. destruct Hq as (c0 & <- & Hc0).
        apply Hfresh. exact (Hchild_in v c0 Hv Hc0). }
    destruct (Expression_cases c g g' e Hex) as (s' & h & st & _ & Hcase).
    destruct (constructed_tables c s' g) as (_ & Hn & _).
    destruct Hcase as [[_ ->]|(_ & _ & ->)].
    { simpl. rewrite Hn. exact Hold. }
    destruct (add_new_tables h (mkExpr (next_ g) (ctor_type c) (ctor_children c))
                (set_store st (constructed c s' g))) as (_ & Hn' & _).
    rewrite Hn'. simpl nodes_. rewrite Hn.
    set (g' := add_new h (mkExpr (next_ g) (ctor_type c) (ctor_children c))
                 (set_store st (constructed c s' g))) in *.
    intros v o Hv Hty. apply in_app_or in Hv. destruct Hv as [Hv|[<-|[]]];
      [exact (Hold v o Hv Hty)|].
    simpl in Hty.
    assert (Hops : forall a, In a (ctor_children c) -> ptr a <> next_ g).
    { intros a Ha. apply Hfresh. rewrite Forall_forall in Hch. apply Hch.
      apply list_elem_of_In. exact Ha. }
    assert (Hsame : forall a, In a (ctor_children c) ->
              trainable_ (node g' a) = trainable_ (node g a) /\
              shape_ (node g' a) = shape_ (node g a)).
    { intros a Ha. apply Hother. apply Hops, Ha. }
    assert (Htr' : trainable_ (store_ g' (next_ g))
                   = existsb (fun a => trainable_ (node g' a)) (ctor_children c)).
    { rewrite Htr. transitivity (existsb (fun a => trainable_ (node g a)) (ctor_children c)).
      - destruct c; try discriminate; reflexivity.
      - symmetry. apply existsb_ext_in. intros a Ha. apply Hsame, Ha. }
    assert (Hshape' : ctor_shape c g' = Some (shape_ (store_ g' (next_ g)))).
    { rewrite Hsh, <- Hshape. apply ctor_shape_ext. intros a Ha. apply Hsame, Ha. }
    clearbody g'. clear Hold Hother Hex Hn' IH Hsame.
    unfold inherits, node.
    change (ptr (mkExpr (next_ g) (ctor_type c) (ctor_children c))) with (next_ g).
    change (children (mkExpr (next_ g) (ctor_type c) (ctor_children c)))
      with (ctor_children c).
    change (node_type (mkExpr (next_ g) (ctor_type c) (ctor_children c)))
      with (ctor_type c).
    change (fun a => trainable_ (node g' a)) with (fun a => trainable_ (store_ g' (ptr a)))
      in Htr'.
    revert Htr' Hshape'. generalize (store_ g' (next_ g)). intros n' Htr' Hshape'.
    destruct c as [| | |a|a rest|a|a mask|a|a|a|a|a]; try discriminate Hty;
      cbn [ctor_type ctor_children ctor_shape] in *;
      try (exists a, []; split; [reflexivity|]; split; [exact Htr'|];
           injection Hshape' as Hs; symmetry; exact Hs).
    + exists a, rest. split; [reflexivity|]. split; [exact Htr' | exact Hshape'].
    + destruct mask as [m|].
      * exists a, [m]. split; [reflexivity|]. split; [exact Htr'|].
        injection Hshape' as Hs. symmetry. exact Hs.
      * exists a, []. split; [reflexivity|]. split; [exact Htr'|].
        injection Hshape' as Hs. symmetry. exact Hs.
Qed.

(** *** Insertion order over the generations of a graph *)

Lemma grown_inv_new : grown_inv ExpressionGraph_new.
Proof.
  constructor; simpl.
  - reflexivity.
  - intros i v Hl. rewrite lookup_nil in Hl. discriminate.
  - intros i v c Hl. rewrite lookup_nil in Hl. discriminate.
  - intros e [[]|[[n Hn]|[h Hh]]]; simpl in *; rewrite lookup_empty in *; discriminate.
  - intros t1 t2 [[]|[[n Hn]|[h Hh]]]; simpl in *; rewrite lookup_empty in *; discriminate.
  - intros v l [].
Qed.

(** The invariant looks at the tables, at the next free address and at the
    ids only. *)
Lemma grown_inv_frame (g g' : ExpressionGraph) :
  grown_inv g ->
  count_ g' = count_ g -> nodes_ g' = nodes_ g -> params_ g' = params_ g ->
  hashMap_ g' = hashMap_ g -> (next_ g <= next_ g')%nat ->
  (forall v, In v (nodes_ g) -> id_ (store_ g' (ptr v)) = id_ (store_ g (ptr v))) ->
  grown_inv g'.
Proof.
  intros Hinv Hc Hn Hp Hh Hnx Hid.
  assert (Hk : forall e, known g' e <-> known g e).
  { intros e. unfold known. rewrite Hn, Hp, Hh. reflexivity. }
  constructor; rewrite ?Hc, ?Hn, ?Hh.
  - apply (g_count g Hinv).
  - intros i v Hl. unfold node. rewrite (Hid v (In_of_lookup _ _ _ Hl)).
    apply (g_ids g Hinv i v Hl).
  - apply (g_children g Hinv).
  - intros e He. apply Hk in He. pose proof (g_known g Hinv e He). lia.
  - intros t1 t2 H1 H2. apply Hk in H1. apply Hk in H2. apply (g_coherent g Hinv); assumption.
  - apply (g_leaves g Hinv).
Qed.

Lemma grown_inv_same (g g' : ExpressionGraph) :
  grown_inv g -> same_tables g g' ->
  (forall q, id_ (store_ g' q) = id_ (store_ g q)) ->
  grown_inv g'.
Proof.
  intros Hinv (Hc & Hn & _ & _ & _ & _ & _ & Hp & Hh & Hnx) Hid.
  apply (grown_inv_frame g g' Hinv Hc Hn Hp Hh); [lia|]. intros v _. apply Hid.
Qed.

Lemma grown_inv_constructed (c : Ctor) (shape : Shape) (g : ExpressionGraph) :
  grown_inv g -> grown_inv (constructed c shape g).
Proof.
  intros Hinv.
  destruct (constructed_tables c shape g) as (Hst & Hn & Hc & Hnx & Hh & Hp & _).
  apply (grown_inv_frame g _ Hinv Hc Hn Hp Hh); [lia|].
  intros v Hv. rewrite Hst. apply f_equal. apply upd_other.
  pose proof (g_known g Hinv v (or_introl Hv)). lia.
Qed.

Lemma hash_source (n : Expr) (st : Store) :
  is_source n -> hash n st = (leaf_hash (ptr n), st).
Proof. intros (l & Hty & _). destruct n as [p ty ch]. simpl in Hty. subst ty. reflexivity. Qed.

(** [add] of a node whose children are in the node list and which is not in
    the node list itself unless its hash is in the hash table. *)
Lemma grown_inv_add (n : Expr) (g : ExpressionGraph) :
  grown_inv g ->
  Forall (fun a => In a (nodes_ g)) (children n) ->
  (ptr n < next_ g)%nat ->
  (forall e, known g e -> ptr e = ptr n -> e = n) ->
  (hashMap_ g !! fst (hash n (store_ g)) = None -> ~ In (ptr n) (map ptr (nodes_ g))) ->
  (forall l, node_type n = Leaf l -> fst (hash n (store_ g)) = leaf_hash (ptr n)) ->
  grown_inv (snd (add n g)) /\ known (snd (add n g)) (fst (add n g)).
Proof.
  intros Hinv Hch Hptr Hco Hnew Hleaf.
  pose proof (hash_writes_memo_only n (store_ g)) as Hframe.
  destruct (hashMap_ g !! fst (hash n (store_ g))) as [e1|] eqn:Hlook.
  - rewrite (add_hit n e1 g Hlook). simpl. split.
    + apply (grown_inv_same g _ Hinv); [apply same_tables_set_store|].
      intros q. simpl. apply (hash_frame_id _ _ _ Hframe).
    + right. right. exists (fst (hash n (store_ g))). exact Hlook.
  - rewrite (add_miss n g Hlook). simpl.
    specialize (Hnew eq_refl).
    set (h := fst (hash n (store_ g))) in *.
    set (g3 := set_store (snd (hash n (store_ g))) g).
    destruct (add_new_tables h n g3) as (Hc' & Hn' & _ & Hh' & _ & _ & Hp' & Hnx' & _).
    assert (Hold : forall v, In v (nodes_ g) -> ptr v <> ptr n).
    { intros v Hv Heq. apply Hnew. rewrite <- Heq. apply in_map. exact Hv. }
    assert (Hk : forall e, known (add_new h n g3) e -> e = n \/ known g e).
    { intros e [He|[[m Hm]|[h0 Hh0]]].
      - rewrite Hn' in He. apply in_app_iff in He. destruct He as [He|[<-|[]]].
        + right. left. exact He.
        + left. reflexivity.
      - right. right. left. exists m. rewrite Hp' in Hm. exact Hm.
      - rewrite Hh' in Hh0. destruct (decide (h = h0)) as [<-|Hne].
        + rewrite lookup_insert_eq in Hh0. left. congruence.
        + rewrite lookup_insert_ne in Hh0 by exact Hne. right. right. right.
          exists h0. exact Hh0. }
    split.
    + constructor; rewrite ?Hc', ?Hn', ?Hnx', ?Hh'; simpl count_; simpl nodes_; simpl next_.
      * rewrite (g_count g Hinv), wrap_add_l, length_app. simpl. f_equal; lia.
      * intros i v Hl. unfold node.
        destruct (add_new_store h n g3 (ptr v)) as [Hid _]. rewrite Hid. simpl count_.
        apply lookup_app_Some in Hl. destruct Hl as [Hl|[Hlen Hl]].
        -- rewrite decide_False by (apply Hold; eapply In_of_lookup; exact Hl).
           simpl store_. rewrite (hash_frame_id _ _ _ Hframe).
           apply (g_ids g Hinv i v Hl).
        -- apply list_lookup_singleton_Some in Hl. destruct Hl as [Hi <-].
           rewrite decide_True by reflexivity.
           rewrite (g_count g Hinv). f_equal. lia.
      * intros i v c0 Hl Hc0. apply lookup_app_Some in Hl. destruct Hl as [Hl|[Hlen Hl]].
        -- destruct (g_children g Hinv i v c0 Hl Hc0) as (j & Hj & Hjl).
           exists j. split; [exact Hj|]. apply lookup_app_l_Some. exact Hjl.
        -- apply list_lookup_singleton_Some in Hl. destruct Hl as [Hi <-].
           rewrite Forall_forall in Hch.
           destruct (lookup_of_In _ _ (Hch c0 (proj2 (list_elem_of_In _ _) Hc0)))
             as (j & Hj & Hjl).
           exists j. split; [lia|]. apply lookup_app_l_Some. exact Hjl.
      * intros e He. destruct (Hk e He) as [->|He']; [exact Hptr|].
        apply (g_known g Hinv e He').
      * intros t1 t2 H1 H2 Heq.
        destruct (Hk t1 H1) as [->|H1'], (Hk t2 H2) as [->|H2'].
        -- reflexivity.
        -- symmetry. apply Hco; [exact H2' | symmetry; exact Heq].
        -- apply Hco; assumption.
        -- apply (g_coherent g Hinv); assumption.
      * intros v l Hv Hty. apply in_app_iff in Hv. destruct Hv as [Hv|[<-|[]]].
        -- destruct (g_leaves g Hinv v l Hv Hty) as [e0 He0].
           destruct (decide (h = leaf_hash (ptr v))) as [->|Hne].
           ++ rewrite lookup_insert_eq. eexists. reflexivity.
           ++ rewrite lookup_insert_ne by exact Hne. exists e0. exact He0.
        -- rewrite <- (Hleaf l Hty). fold h. rewrite lookup_insert_eq. eexists. reflexivity.
    + left. rewrite Hn'. apply in_app_iff. right. left. reflexivity.
Qed.

Lemma grown_inv_Expression (c : Ctor) (g g' : ExpressionGraph) (e : Expr) :
  grown_inv g ->
  Forall (fun a => In a (nodes_ g)) (ctor_children c) ->
  Expression c g = Ok (e, g') ->
  grown_inv g' /\ known g' e.
Proof.
  intros Hinv Hch Hex. rewrite Expression_eq in Hex.
  destruct (ctor_shape c g) as [shape|]; [|discriminate].
  set (e0 := mkExpr (next_ g) (ctor_type c) (ctor_children c)) in *.
  set (g2 := constructed c shape g) in *.
  pose proof (grown_inv_constructed c shape g Hinv) as Hinv2. fold g2 in Hinv2.
  destruct (constructed_tables c shape g) as (_ & Hn & _ & Hnx & Hh & Hp & _).
  fold g2 in Hn, Hnx, Hh, Hp.
  assert (Hk : forall t, known g2 t -> (ptr t < next_ g)%nat).
  { intros t Ht. apply (g_known g Hinv). unfold known in *. rewrite Hn, Hp, Hh in Ht. exact Ht. }
  destruct (grown_inv_add e0 g2 Hinv2) as [Hinv' Hknown].
  - rewrite Hn. exact Hch.
  - rewrite Hnx. simpl. lia.
  - intros t Ht Heq. apply Hk in Ht. simpl in Heq. lia.
  - intros _ Hin. apply in_map_iff in Hin. destruct Hin as (v & Heq & Hv).
    pose proof (Hk v (or_introl Hv)). simpl in Heq. lia.
  - intros l Hty. subst e0. simpl in Hty. rewrite Hty. reflexivity.
  - assert (Heq : (e, g') = add e0 g2) by congruence.
    rewrite <- Heq in Hinv', Hknown. simpl in Hinv', Hknown. split; assumption.
Qed.

Lemma grown_inv_param_add (p : Expr) (name : string) (g : ExpressionGraph) :
  grown_inv g -> known g p -> grown_inv (Parameters_add p name g).
Proof.
  intros Hinv Hp.
  assert (Hk : forall e, known (Parameters_add p name g) e -> known g e).
  { intros e [He|[[m Hm]|[h Hh]]].
    - left. exact He.
    - simpl in Hm. destruct (decide (name = m)) as [<-|Hne].
      + rewrite lookup_insert_eq in Hm. congruence.
      + rewrite lookup_insert_ne in Hm by exact Hne. right. left. exists m. exact Hm.
    - right. right. exists h. exact Hh. }
  constructor; simpl.
  - apply (g_count g Hinv).
  - apply (g_ids g Hinv).
  - apply (g_children g Hinv).
  - intros e He. apply (g_known g Hinv e (Hk e He)).
  - intros t1 t2 H1 H2. apply (g_coherent g Hinv); apply Hk; assumption.
  - apply (g_leaves g Hinv).
Qed.

Lemma known_frame (g g' : ExpressionGraph) (e : Expr) :
  nodes_ g' = nodes_ g -> params_ g' = params_ g -> hashMap_ g' = hashMap_ g ->
  known g e -> known g' e.
Proof. intros Hn Hp Hh. unfold known. rewrite Hn, Hp, Hh. tauto. Qed.

Lemma Grown_inv (g : ExpressionGraph) : Grown g -> grown_inv g.
Proof.
  induction 1 as [|c g e g' _ IH Hch Hex
                  |shape trainable init g e g' _ IH Hin
                  |name shape trainable init g p g' _ IH Hsrc Hpar
                  |e name g g' _ IH Hnamed
                  |e g _ IH
                  |g _ IH
                  |fake g _ IH
                  |fake g g' _ IH Hback].
  - apply grown_inv_new.
  - exact (proj1 (grown_inv_Expression c g g' e IH Hch Hex)).
  - unfold input in Hin.
    destruct (Expression (NewInput shape trainable init) g) as [[e0 g0]|] eqn:Hex;
      [|discriminate].
    injection Hin as <- <-.
    destruct (grown_inv_Expression (NewInput shape trainable init) g g0 e0 IH
                (Forall_nil_2 _) Hex) as [Hinv0 _].
    apply (grown_inv_frame g0 _ Hinv0); reflexivity.
  - unfold param in Hpar.
    destruct (Parameters_get name g) as [p0|] eqn:Hget.
    + injection Hpar as <- <-.
      destruct (Hsrc p0 eq_refl) as (l & Hty & Hnil).
      assert (Hk0 : known g p0) by (right; left; exists name; exact Hget).
      apply (grown_inv_add p0 g IH).
      * rewrite Hnil. constructor.
      * apply (g_known g IH p0 Hk0).
      * intros e He Heq. apply (g_coherent g IH); assumption.
      * rewrite (hash_source p0 (store_ g)) by (exists l; split; assumption). simpl.
        intros Hnone Hin. apply in_map_iff in Hin. destruct Hin as (v & Heq & Hv).
        assert (v = p0) by (apply (g_coherent g IH); [left; exact Hv | exact Hk0 | exact Heq]).
        subst v. destruct (g_leaves g IH p0 l Hv Hty) as [e0 He0]. congruence.
      * intros l' _. rewrite (hash_source p0 (store_ g)) by (exists l; split; assumption).
        reflexivity.
    + destruct (get name g); [discriminate|].
      destruct (Expression (NewParam shape trainable init) g) as [[p0 g0]|] eqn:Hex;
        [|discriminate].
      injection Hpar as <- <-.
      destruct (grown_inv_Expression (NewParam shape trainable init) g g0 p0 IH
                  (Forall_nil_2 _) Hex) as [Hinv0 Hk0].
      apply grown_inv_param_add.
      * apply (grown_inv_same g0 _ Hinv0); [apply same_tables_on_node|].
        intros q. unfold set_name. rewrite store_on_node.
        destruct (decide (q = ptr p0)); reflexivity.
      * apply (known_frame g0); try reflexivity. exact Hk0.
  - unfold add_named_node in Hnamed.
    destruct (bool_decide _); [discriminate|]. injection Hnamed as <-.
    apply (grown_inv_frame g _ IH); reflexivity.
  - apply (grown_inv_frame g _ IH); reflexivity.
  - constructor; simpl.
    + reflexivity.
    + intros i v Hl. rewrite lookup_nil in Hl. discriminate.
    + intros i v c Hl. rewrite lookup_nil in Hl. discriminate.
    + intros e [[]|[[n Hn]|[h Hh]]]; simpl in *.
      * apply (g_known g IH). right. left. exists n. exact Hn.
      * rewrite lookup_empty in Hh. discriminate.
    + intros t1 t2 H1 H2. apply (g_coherent g IH).
      * destruct H1 as [[]|[[n Hn]|[h Hh]]]; simpl in *;
          [right; left; exists n; exact Hn | rewrite lookup_empty in Hh; discriminate].
      * destruct H2 as [[]|[[n Hn]|[h Hh]]]; simpl in *;
          [right; left; exists n; exact Hn | rewrite lookup_empty in Hh; discriminate].
    + intros v l [].
  - apply (grown_inv_same g _ IH); [apply same_tables_forward|].
    intros q. pose proof (pass_frame_forward fake g q) as Hq.
    apply blank_fields in Hq. apply Hq.
  - unfold backward in Hback. destruct (bool_decide _); [discriminate|].
    injection Hback as <-.
    set (g0 := backward_seed fake g).
    apply (grown_inv_same g0).
    + apply (grown_inv_same g _ IH); [apply same_tables_backward_seed|].
      intros q. apply value_frame_id. apply value_frame_backward_seed.
    + apply same_tables_backward_loop.
    + intros q. pose proof (pass_frame_steps fake (rev (nodes_ g0)) g0 q) as Hq.
      apply blank_fields in Hq. apply Hq.
Qed.

Lemma Built_Grown (g : ExpressionGraph) : Built g -> Grown g.
Proof.
  induction 1 as [|c g e g' _ IH Hch Hex|name shape trainable init g p g' _ IH Hget Hpar].
  - apply Grown_new.
  - exact (Grown_Expression c g e g' IH Hch Hex).
  - apply (Grown_param name shape trainable init g p g' IH); [|exact Hpar].
    intros p0 Hp0. congruence.
Qed.

(** C3 (as amended): in a graph grown over any number of generations, every
    node over operands that were in the node list when it was constructed
    (with at most [2^64] nodes, so that [count_] has not wrapped), the node at
    position [i] of the node list has id [i], ids increase strictly along the
    node list, every child of a node stands before it in the node list
    (insertion order is a topological order), and the id of every child of a
    node is strictly below the id of the node. *)
Theorem insertion_order_topological (g : ExpressionGraph) :
  Grown g ->
  Z.of_nat (length (nodes_ g)) <= 2 ^ 64 ->
  (forall i v, nodes_ g !! i = Some v -> id_ (node g v) = Z.of_nat i) /\
  (forall i j v w, nodes_ g !! i = Some v -> nodes_ g !! j = Some w -> (i < j)%nat ->
                   id_ (node g v) < id_ (node g w)) /\
  (forall i v c, nodes_ g !! i = Some v -> In c (children v) ->
                 exists j, (j < i)%nat /\ nodes_ g !! j = Some c) /\
  (forall v c, In v (nodes_ g) -> In c (children v) -> id_ (node g c) < id_ (node g v)).
Proof.
  intros HB Hlen. pose proof (Grown_inv g HB) as Hinv.
  assert (Hid : forall i v, nodes_ g !! i = Some v -> id_ (node g v) = Z.of_nat i).
  { intros i v Hl. rewrite (g_ids g Hinv i v Hl). apply wrap_small.
    pose proof (lookup_lt_Some _ _ _ Hl). lia. }
  split; [exact Hid|]. split; [|split].
  - intros i j v w Hi Hj Hlt. rewrite (Hid i v Hi), (Hid j w Hj). lia.
  - apply (g_children g Hinv).
  - intros v c Hv Hc. destruct (lookup_of_In _ _ Hv) as (i & _ & Hi).
    destruct (g_children g Hinv i v c Hi Hc) as (j & Hlt & Hj).
    rewrite (Hid i v Hi), (Hid j c Hj). lia.
Qed.

(** *** Releasing storage over the whole pass *)

(** C6 (as amended): in a step of the backward loop the storage of the
    visited node is released exactly when, after its edges have been counted
    down, its edge count is zero and its name member is ["none"], and nothing
    else in the step releases; over the loop, and over the whole of a
    [backward] that returns, the released nodes are those visited in that
    state, so a node whose name member is not ["none"] is never released.
    [param] sets the name member of the parameter it creates to the name
    given, and [add_named_node] writes to no node. *)
Theorem storage_release (fake : bool) :
  (forall g v,
     (releasable g v = true <-> edges_ (node g v) = 0 /\ name_ (node g v) = "none") /\
     released_ (backward_visit fake g v) = released_ g /\
     released_ (backward_step fake g v)
     = released_ g ++ (if releasable (backward_visit fake g v) v then [ptr v] else []) /\
     (releasable (backward_visit fake g v) v = true ->
      val_ (node (backward_step fake g v) v) = None /\
      adj_ (node (backward_step fake g v) v) = None)) /\
  (forall l g q,
     In q (released_ (backward_loop fake l g)) <->
     In q (released_ g) \/
     exists l1 v l2, rev l = l1 ++ v :: l2 /\ ptr v = q /\
       releasable (backward_visit fake (fold_left (backward_step fake) l1 g) v) v = true) /\
  (forall l g q,
     name_ (store_ g q) <> "none" ->
     In q (released_ (backward_loop fake l g)) -> In q (released_ g)) /\
  (forall g g' q,
     backward fake g = Ok g' ->
     (In q (released_ g') <->
      In q (released_ g) \/
      exists l1 v l2, rev (nodes_ g) = l1 ++ v :: l2 /\ ptr v = q /\
        releasable (backward_visit fake
                      (fold_left (backward_step fake) l1 (backward_seed fake g)) v) v = true) /\
     (name_ (store_ g q) <> "none" -> In q (released_ g') -> In q (released_ g))) /\
  (forall name shape trainable init g p g',
     Parameters_get name g = None ->
     param name shape trainable init g = Ok (p, g') ->
     name_ (node g' p) = name) /\
  (forall e name g g', add_named_node e name g = Ok g' -> store_ g' = store_ g).
Proof.
  assert (Hnamed : forall l g q,
            name_ (store_ g q) <> "none" ->
            In q (released_ (backward_loop fake l g)) -> In q (released_ g)).
  { intros l g q Hname Hin. unfold backward_loop in Hin.
    apply released_steps in Hin. destruct Hin as [Hin|(l1 & v & l2 & Hl & Hp & Hr)];
      [exact Hin|].
    exfalso. apply Hname. apply releasable_spec in Hr. destruct Hr as [_ Hn].
    unfold node in Hn. rewrite Hp in Hn.
    rewrite (pass_frame_name _ _ q (pass_frame_backward_visit fake _ v)) in Hn.
    rewrite (pass_frame_name _ _ q (pass_frame_steps fake l1 g)) in Hn.
    exact Hn. }
  split; [|split; [|split; [|split; [|split]]]].
  - intros g v. split; [apply releasable_spec|].
    split; [apply released_backward_visit|].
    split; [apply released_backward_step|].
    intros Hr. unfold backward_step. rewrite Hr. unfold free, node. simpl.
    rewrite upd_same. split; reflexivity.
  - intros l g q. unfold backward_loop. apply released_steps.
  - exact Hnamed.
  - intros g g' q Hback. unfold backward in Hback.
    destruct (bool_decide _); [discriminate|]. injection Hback as <-.
    destruct (same_tables_backward_seed fake g) as (_ & Hn & _).
    destruct (backward_seed_val fake g q) as [_ Hrel].
    rewrite Hn. split.
    + unfold backward_loop. rewrite released_steps, Hrel. reflexivity.
    + intros Hname Hin. rewrite <- Hrel. apply (Hnamed (nodes_ g) _ q); [|exact Hin].
      rewrite (value_frame_name _ _ q (value_frame_backward_seed fake g)). exact Hname.
  - intros name shape trainable init g p g'. apply param_sets_name.
  - intros e name g g' Hnamed'. unfold add_named_node in Hnamed'.
    destruct (bool_decide _); [discriminate|]. injection Hnamed' as <-. reflexivity.
Qed.

(** *** The backward pass of a graph without a top node *)

(** Every backward operation of a node reads the gradient of the node
    itself. *)
Lemma backwardOps_read_adjoint (v : Expr) (op : NodeOp) (c : Call) :
  In op (backwardOps v) -> In c op -> In (Grad (ptr v)) (call_ins c).
Proof.
  destruct v as [p [l|o] ch]; simpl; [intros []|].
  assert (Hun : forall k ins, In (Grad p) ins ->
            In op (unary_backward k ch ins) -> In c op -> In (Grad p) (call_ins c)).
  { intros k ins Hins Hop Hc. destruct ch as [|c0 ch']; simpl in Hop; [destruct Hop|].
    destruct Hop as [<-|[]]. destruct Hc as [<-|[]]. exact Hins. }
  destruct o; try (apply Hun; simpl; tauto).
  intros Hop Hc. apply in_map_iff in Hop. destruct Hop as (child & <- & _).
  destruct Hc as [<-|[]]. simpl. tauto.
Qed.

(** C9 (as amended): with no top node [backward] does not throw: it
    returns the graph that the loop over the node list makes of the graph left
    by the parameters' allocation and zeroing; nothing is seeded, so that
    every node that is no parameter is as before when the loop starts; and on
    an empty node list the pass returns at once.  On a list that is not empty
    the last node is visited first; if it is no parameter and holds no
    gradient, its gradient is still the null handle when its backward
    operations are run, each of which reads it. *)
Theorem backward_no_top_node (fake : bool) (g : ExpressionGraph) :
  topNodes_ g = ∅ ->
  backward fake g = Ok (backward_loop fake (nodes_ g) (backward_seed fake g)) /\
  backward_seed fake g
    = Parameters_set_zero_adjoint fake (Parameters_allocateBackward fake g) /\
  (forall q, ~ In q (map ptr (Parameters_list g)) ->
             store_ (backward_seed fake g) q = store_ g q) /\
  (nodes_ g = [] -> backward fake g = Ok (backward_seed fake g)) /\
  (forall l v,
     nodes_ g = l ++ [v] ->
     backward fake g = Ok (backward_loop fake l (backward_step fake (backward_seed fake g) v)) /\
     (~ In (ptr v) (map ptr (Parameters_list g)) ->
      ~ In (ptr v) (map ptr (children v)) ->
      adj_ (node g v) = None ->
      read (store_ (zero_children fake (children v) (backward_seed fake g))) (Grad (ptr v))
      = None /\
      forall op c, In op (backwardOps v) -> In c op -> In (Grad (ptr v)) (call_ins c))).
Proof.
  intros Htop.
  assert (Hseed : backward_seed fake g
                  = Parameters_set_zero_adjoint fake (Parameters_allocateBackward fake g)).
  { unfold backward_seed.
    destruct (same_tables_params_zero fake (Parameters_allocateBackward fake g))
      as (_ & _ & _ & _ & _ & _ & Ht1 & _).
    destruct (same_tables_allocateBackward fake g) as (_ & _ & _ & _ & _ & _ & Ht2 & _).
    rewrite Ht1, Ht2, Htop, elements_empty. reflexivity. }
  assert (Hback : backward fake g = Ok (backward_loop fake (nodes_ g) (backward_seed fake g))).
  { unfold backward. rewrite Htop, size_empty.
    rewrite bool_decide_eq_false_2 by lia.
    destruct (same_tables_backward_seed fake g) as (_ & Hn & _).
    rewrite Hn. reflexivity. }
  assert (Hother : forall q, ~ In q (map ptr (Parameters_list g)) ->
                             store_ (backward_seed fake g) q = store_ g q).
  { intros q Hq. apply backward_seed_other; [|exact Hq]. rewrite Htop. set_solver. }
  split; [exact Hback|]. split; [exact Hseed|]. split; [exact Hother|]. split.
  - intros Hnil. rewrite Hback, Hnil. reflexivity.
  - intros l v Hnodes. split.
    + rewrite Hback, Hnodes. unfold backward_loop. rewrite rev_app_distr. reflexivity.
    + intros Hpar Hself Hadj. split; [|apply backwardOps_read_adjoint].
      simpl. rewrite zero_children_other by (right; exact Hself).
      rewrite (Hother (ptr v) Hpar). exact Hadj.
Qed.

(** *** Edge counts over the generations of a graph *)








End proofs.

(** ** The properties on the example graphs *)

Lemma returned_Ok `{!Backend} {A B : Type} (r : Result (A * B)) (d : A * B) (a : A) :
  is_Ok r = true -> fst (returned r d) = a -> r = Ok (a, snd (returned r d)).
Proof. destruct r as [[a' g']|]; [|discriminate]. simpl. intros _ <-. reflexivity. Qed.

(** [r = Ok (a, g)] for a graph [g] defined as [snd (returned r d)]. *)
Ltac returns :=
  lazymatch goal with
  | |- _ = Ok (_, ?g) => unfold g; apply returned_Ok; vm_compute; reflexivity
  end.

Ltac in_nodes := vm_compute; repeat first [left; reflexivity | right].

Lemma ex_graph1_returned :
  param (H := demo) "w" ex_shape true (Some [3; 4]) ex_graph0 = Ok (ex_w, ex_graph1).
Proof. returns. Qed.

Lemma ex_graph2_returned :
  Expression (H := demo) (NewTanh ex_w []) ex_graph1 = Ok (ex_f, ex_graph2).
Proof. returns. Qed.

Lemma ex_graph3_returned :
  Expression (H := demo) (NewExp ex_w) ex_graph2 = Ok (ex_g, ex_graph3).
Proof. returns. Qed.

Lemma ex_graph_returned :
  Expression (H := demo) (NewTanh ex_f [ex_g]) ex_graph3 = Ok (ex_y, ex_graph).
Proof. returns. Qed.

Lemma ex_graph_Built : Built (H := demo) ex_graph.
Proof.
  assert (H1 : Built (H := demo) ex_graph1).
  { eapply Built_param; [apply Built_new | reflexivity | exact ex_graph1_returned]. }
  assert (H2 : Built (H := demo) ex_graph2).
  { eapply Built_Expression; [exact H1 | | exact ex_graph2_returned].
    repeat (constructor; [in_nodes|]). constructor. }
  assert (H3 : Built (H := demo) ex_graph3).
  { eapply Built_Expression; [exact H2 | | exact ex_graph3_returned].
    repeat (constructor; [in_nodes|]). constructor. }
  eapply Built_Expression; [exact H3 | | exact ex_graph_returned].
  repeat (constructor; [in_nodes|]). constructor.
Qed.

Lemma returned_is_Ok `{!Backend} {A : Type} (r : Result A) (d : A) :
  is_Ok r = true -> r = Ok (returned r d).
Proof. destruct r; [reflexivity | discriminate]. Qed.

Lemma ex_second1_returned :
  param (H := demo) "w" ex_shape true None ex_cleared = Ok (ex_w, ex_second1).
Proof. returns. Qed.

Lemma ex_second_returned :
  Expression (H := demo) (NewNeg ex_w) ex_second1 = Ok (ex_v, ex_second).
Proof. returns. Qed.

Lemma ex_second_Grown : Grown (H := demo) ex_second.
Proof.
  assert (H1 : Grown (H := demo) ex_cleared).
  { apply Grown_clear, Grown_forward, Built_Grown, ex_graph_Built. }
  assert (H2 : Grown (H := demo) ex_second1).
  { eapply Grown_param; [exact H1 | | exact ex_second1_returned].
    intros p0 Hp0. vm_compute in Hp0. injection Hp0 as <-.
    exists ParamNode. split; reflexivity. }
  eapply Grown_Expression; [exact H2 | | exact ex_second_returned].
  repeat (constructor; [in_nodes|]). constructor.
Qed.


(** C9 on the example graph without its top node: the pass returns; [ex_y]
    is visited first and its gradient is the null handle when its backward
    operations are run. *)
Lemma backward_no_top_node_witness :
  topNodes_ ex_no_top = ∅ /\
  nodes_ ex_no_top = [ex_w; ex_f; ex_g] ++ [ex_y] /\
  backward (H := demo) false ex_no_top
  = Ok (backward_loop false [ex_w; ex_f; ex_g]
          (backward_step false (backward_seed false ex_no_top) ex_y)) /\
  read (store_ (zero_children false (children ex_y) (backward_seed (H := demo) false ex_no_top)))
       (Grad (ptr ex_y)) = None.
Proof.
  assert (H0 : topNodes_ ex_no_top = ∅).
  { apply (bool_decide_unpack _). vm_compute. exact I. }
  assert (Hn : nodes_ ex_no_top = [ex_w; ex_f; ex_g] ++ [ex_y]) by (vm_compute; reflexivity).
  destruct (@backward_no_top_node demo false ex_no_top H0) as (_ & _ & _ & _ & Hlast).
  destruct (Hlast [ex_w; ex_f; ex_g] ex_y Hn) as [Hret Hnull].
  split; [exact H0 | split; [exact Hn | split; [exact Hret|]]].
  apply Hnull.
  - vm_compute. intros [Hq|[]]. discriminate Hq.
  - vm_compute. intros [Hq|[Hq|[]]]; discriminate Hq.
  - vm_compute. reflexivity.
Defined.

(** C9, the case that is not covered: the example graph without its top
    node has a node list that is not empty; nothing seeds the gradient of
    [ex_y], which is trainable, and its two backward operations, which read
    it, are run on the null handle: the gradients they write for [ex_f] and
    [ex_g] have no element, for a shape of two elements. *)
Lemma backward_without_top_node_reads_null_adjoint :
  elements (topNodes_ ex_no_top) = [] /\
  nodes_ ex_no_top = [ex_w; ex_f; ex_g; ex_y] /\
  trainable_ (node ex_no_top ex_y) = true /\
  adj_ (node (backward_seed (H := demo) false ex_no_top) ex_y) = None /\
  backwardOps ex_y
  = [[mkCall (Add (Mult (Arg 1) (Minus (Lit 1) (Mult (Arg 2) (Arg 2)))))
             (Grad (ptr ex_f)) [Grad (ptr ex_y); Val (ptr ex_y)]];
     [mkCall (Add (Mult (Arg 1) (Minus (Lit 1) (Mult (Arg 2) (Arg 2)))))
             (Grad (ptr ex_g)) [Grad (ptr ex_y); Val (ptr ex_y)]]] /\
  is_Ok (backward (H := demo) false ex_no_top) = true /\
  adj_ (node (backward_step false (backward_seed (H := demo) false ex_no_top) ex_y) ex_f)
  = Some (mkTensor [] ex_shape) /\
  adj_ (node (backward_step false (backward_seed (H := demo) false ex_no_top) ex_y) ex_g)
  = Some (mkTensor [] ex_shape) /\
  elements_of ex_shape = 2.
Proof. vm_compute. repeat split. Qed.

(** C8 on the example graphs: ["f"] names a node that is no parameter, ["w"]
    names the parameter. *)
Lemma param_collision_and_reuse_witness :
  (Parameters_get "f" ex_named = None /\ named_ ex_named !! "f" = Some ex_f /\
   param (H := demo) "f" ex_shape true None ex_named = Throw (NonParameterExists "f") ex_named) /\
  (Parameters_get "w" ex_named = Some ex_w /\
   param (H := demo) "w" ex_shape true None ex_named = Ok (ex_w, snd (add ex_w ex_named)) /\
   nodes_ (snd (add ex_w ex_named)) = nodes_ ex_named).
Proof.
  assert (Hf : Parameters_get "f" ex_named = None) by (vm_compute; reflexivity).
  assert (Hn : named_ ex_named !! "f" = Some ex_f) by (vm_compute; reflexivity).
  assert (Hw : Parameters_get "w" ex_named = Some ex_w) by (vm_compute; reflexivity).
  destruct (@param_collision_and_reuse demo "f" ex_shape true None ex_named) as [Hthrow _].
  destruct (@param_collision_and_reuse demo "w" ex_shape true None ex_named) as [_ Hreuse].
  destruct (Hreuse ex_w Hw) as (Hret & _ & _ & _ & Hold).
  split; [split; [exact Hf | split; [exact Hn | exact (Hthrow ex_f Hf Hn)]]|].
  split; [exact Hw | split; [exact Hret|]].
  apply Hold. vm_compute. eexists. reflexivity.
Defined.

(** C3 on the second generation of the example graph: the parameter
    attached again has id 0, the node constructed over it has id 1. *)
Lemma insertion_order_topological_witness :
  Grown (H := demo) ex_second /\
  Z.of_nat (length (nodes_ ex_second)) <= 2 ^ 64 /\
  nodes_ ex_second = [ex_w; ex_v] /\
  (forall i v, nodes_ ex_second !! i = Some v -> id_ (node ex_second v) = Z.of_nat i) /\
  (forall v c, In v (nodes_ ex_second) -> In c (children v) ->
               id_ (node ex_second c) < id_ (node ex_second v)).
Proof.
  assert (Hlen : Z.of_nat (length (nodes_ ex_second)) <= 2 ^ 64)
    by (vm_compute; discriminate).
  destruct (@insertion_order_topological demo ex_second ex_second_Grown Hlen)
    as (Hid & _ & _ & Hlt).
  split; [exact ex_second_Grown | split; [exact Hlen|]].
  split; [vm_compute; reflexivity | split; [exact Hid | exact Hlt]].
Defined.

(** C3, the case that is not covered: after [clear] the node [-f] is
    constructed over the handle [ex_f] of the generation before; it is the
    first node of the new node list and gets id 0, while its child keeps the
    id 1 it had. *)
Lemma kept_operand_keeps_its_id :
  Expression (H := demo) (NewNeg ex_f) (clear ex_forwarded) = Ok (ex_u, ex_kept) /\
  nodes_ ex_kept = [ex_u] /\
  children ex_u = [ex_f] /\
  id_ (node ex_kept ex_u) = 0 /\
  id_ (node ex_kept ex_f) = 1.
Proof.
  split; [change (clear ex_forwarded) with ex_cleared; returns|].
  vm_compute. repeat split.
Qed.

(** C4 on the example graph: [tanh(w)] constructed once more is the node
    [ex_f] again. *)
Lemma common_subexpression_elimination_witness :
  Expression (H := demo) (NewTanh ex_w []) ex_graph1 = Ok (ex_f, ex_graph2) /\
  exists g2, Expression (H := demo) (NewTanh ex_w []) ex_graph2 = Ok (ex_f, g2).
Proof.
  split; [exact ex_graph2_returned|].
  assert (Hops : forall u, operands (H := demo) (NewTanh ex_w []) u -> u = ex_w).
  { intros u (a & Ha & Hu). simpl in Ha. destruct Ha as [<-|[]].
    simpl in Hu. destruct Hu as [<-|[]]. reflexivity. }
  apply (proj2 (@common_subexpression_elimination demo)
           (NewTanh ex_w []) TanhNodeOp ex_graph1 ex_graph2 ex_f).
  - reflexivity.
  - intros t1 t2 H1 H2 _. rewrite (Hops t1 H1), (Hops t2 H2). reflexivity.
  - intros u Hu. rewrite (Hops u Hu). vm_compute. lia.
  - exact ex_graph2_returned.
Defined.






(** C6 on the example graph: the top node [ex_y], visited first, has no name
    and no edge left, and is released; the parameter is never released. *)
Lemma storage_release_witness :
  (releasable (backward_visit false (backward_seed (H := demo) false ex_forwarded) ex_y) ex_y
   = true /\
   released_ (backward_step false (backward_seed (H := demo) false ex_forwarded) ex_y)
   = [ptr ex_y] /\
   adj_ (node (backward_step false (backward_seed (H := demo) false ex_forwarded) ex_y) ex_y)
   = None) /\
  (name_ (store_ ex_forwarded (ptr ex_w)) <> "none" /\
   exists g', backward (H := demo) false ex_forwarded = Ok g' /\
              ~ In (ptr ex_w) (released_ g')).
Proof.
  set (g := backward_seed (H := demo) false ex_forwarded).
  assert (Hr : releasable (backward_visit false g ex_y) ex_y = true)
    by (vm_compute; reflexivity).
  assert (Hname : name_ (store_ ex_forwarded (ptr ex_w)) <> "none")
    by (vm_compute; discriminate).
  destruct (@storage_release demo false) as (Hstep & _ & _ & Hpass & _).
  destruct (Hstep g ex_y) as (_ & _ & Hrel & Hfree).
  split; [split; [exact Hr | split]|split; [exact Hname|]].
  - rewrite Hrel, Hr. reflexivity.
  - exact (proj2 (Hfree Hr)).
  - assert (Hok : is_Ok (backward (H := demo) false ex_forwarded) = true)
      by (vm_compute; reflexivity).
    destruct (backward (H := demo) false ex_forwarded) as [g'|] eqn:Hg'; [|discriminate].
    exists g'. split; [reflexivity|].
    intros Hin. apply (proj2 (Hpass ex_forwarded g' (ptr ex_w) Hg') Hname) in Hin.
    vm_compute in Hin. exact Hin.
Defined.

(** C6, the case that is not covered: a parameter created under the name
    ["none"] and a node registered under the name ["out"] by
    [add_named_node], whose name member stays ["none"], are both released by
    the backward pass. *)
Lemma parameter_and_named_node_released :
  params_ ex_sentinel !! "none" = Some ex_w /\
  named_ ex_sentinel !! "out" = Some ex_f /\
  nodes_ ex_sentinel = [ex_w; ex_f] /\
  name_ (node ex_sentinel ex_w) = "none" /\
  name_ (node ex_sentinel ex_f) = "none" /\
  is_Ok (backprop (H := demo) ex_sentinel) = true /\
  released_ (returned (backprop (H := demo) ex_sentinel) ex_sentinel) = [ptr ex_f; ptr ex_w].
Proof. vm_compute. repeat split. Qed.

(** C7 on the example graph: the parameter ["w"] of shape [(1, 2, 1, 1)] is
    stored as an array of length 2 and comes back with its shape and values. *)
Lemma save_load_roundtrip_witness :
  (params_ ex_forwarded !! "w" = Some ex_w /\
   matrix_shape (shape_ (node ex_forwarded ex_w)) /\
   save ex_forwarded !! "w" = Some (save_param ex_forwarded ex_w) /\
   npy_shape (save_param ex_forwarded ex_w) = [2] /\
   load_shape (npy_shape (save_param ex_forwarded ex_w)) = shape_ (node ex_forwarded ex_w) /\
   npy_data (save_param ex_forwarded ex_w) = [3; 4]) /\
  exists g',
    load (H := demo) (save ex_forwarded) ExpressionGraph_new = Ok g' /\
    exists p', params_ g' !! "w" = Some p' /\
               shape_ (node g' p') = ex_shape /\
               init_ (node g' p') = Some [3; 4].
Proof.
  assert (Hpar : params_ ex_forwarded !! "w" = Some ex_w) by (vm_compute; reflexivity).
  assert (Hshape : shape_ (node ex_forwarded ex_w) = ex_shape) by (vm_compute; reflexivity).
  assert (Hmat : matrix_shape (shape_ (node ex_forwarded ex_w))).
  { rewrite Hshape. unfold matrix_shape, ex_shape. simpl. lia. }
  assert (Hval : val_ (node ex_forwarded ex_w) = Some (mkTensor [3; 4] ex_shape))
    by (vm_compute; reflexivity).
  assert (Hlen : length (data_ (mkTensor [3; 4] ex_shape))
                 = Z.to_nat (elements_of (shape_ (node ex_forwarded ex_w))))
    by (vm_compute; reflexivity).
  assert (Hinj : forall a b : nat, @leaf_hash demo a = @leaf_hash demo b -> a = b).
  { intros a b. simpl. lia. }
  destruct (@save_load_roundtrip demo ex_forwarded) as [Hone Hall].
  destruct (Hone "w" ex_w _ Hpar Hmat Hval Hlen) as (Hsave & Hdims & Hback & Hdata).
  split.
  - split; [exact Hpar | split; [exact Hmat | split; [exact Hsave|]]].
    split; [rewrite Hdims; vm_compute; reflexivity | split; [exact Hback | exact Hdata]].
  - destruct (Hall Hinj) as (g' & Hload & Hparams).
    exists g'. split; [exact Hload|].
    destruct (Hparams "w" ex_w Hpar) as (p' & Hp' & Hs' & Hi').
    exists p'. split; [exact Hp'|]. split.
    + rewrite Hs', Hback. exact Hshape.
    + rewrite Hi', Hdata. reflexivity.
Defined.

(** C7, the case that is not covered: the parameter of shape [(2, 3, 4, 1)]
    is stored as a [(2, 3)] array of its first six values and comes back with
    shape [(2, 3, 1, 1)]. *)
Lemma save_load_drops_dimensions :
  params_ ex_cube !! "t" = Some ex_w /\
  shape_ (node ex_cube ex_w) = mkShape 2 3 4 1 /\
  val_ (node ex_cube ex_w) = Some (mkTensor ex_cube_values ex_cube_shape) /\
  option_map (@npy_shape demo) (save ex_cube !! "t") = Some [2; 3] /\
  option_map (@npy_data demo) (save ex_cube !! "t") = Some [1; 2; 3; 4; 5; 6] /\
  load_shape (npy_shape (save_param ex_cube ex_w)) = mkShape 2 3 1 1 /\
  load_shape (npy_shape (save_param ex_cube ex_w)) <> shape_ (node ex_cube ex_w) /\
  is_Ok (load (H := demo) (save ex_cube) ExpressionGraph_new) = true /\
  (let g' := returned (load (H := demo) (save ex_cube) ExpressionGraph_new) ExpressionGraph_new in
   params_ g' !! "t" = Some ex_w /\
   shape_ (node g' ex_w) = mkShape 2 3 1 1 /\
   init_ (node g' ex_w) = Some [1; 2; 3; 4; 5; 6]).
Proof.
  split; [vm_compute; reflexivity|].
  split; [vm_compute; reflexivity|].
  split; [vm_compute; reflexivity|].
  split; [vm_compute; reflexivity|].
  split; [vm_compute; reflexivity|].
  split; [vm_compute; reflexivity|].
  split; [vm_compute; discriminate|].
  split; [vm_compute; reflexivity|].
  vm_compute. repeat split.
Qed.

(** C10 on the example graph [tanh(w + c)]: the constant [c] is not
    trainable, no top node and no parameter; [backward] returns and leaves no
    gradient at [c]. *)
Lemma nontrainable_gradient_untouched_witness :
  trainable_ (store_ ex_mixed (ptr ex_c)) = false /\
  runBackward (H := demo) ex_s (backwardOps ex_s) (store_ ex_mixed)
  = runForward (paired_ops ex_s (store_ ex_mixed) (backwardOps ex_s)) (store_ ex_mixed) /\
  length (paired_ops (H := demo) ex_s (store_ ex_mixed) (backwardOps ex_s)) = 1%nat /\
  exists g', backward (H := demo) false ex_mixed = Ok g' /\
             adj_ (store_ g' (ptr ex_c)) = None.
Proof.
  assert (Hc : trainable_ (store_ ex_mixed (ptr ex_c)) = false) by (vm_compute; reflexivity).
  assert (Hsize : (size (topNodes_ ex_mixed) <= 1)%nat) by (vm_compute; lia).
  assert (Htop : ptr ex_c ∉ topNodes_ ex_mixed).
  { apply (bool_decide_unpack _). vm_compute. exact I. }
  assert (Hpar : ~ In (ptr ex_c) (map ptr (Parameters_list ex_mixed))).
  { vm_compute. intros [H|[]]. discriminate H. }
  assert (Hadj : adj_ (store_ ex_mixed (ptr ex_c)) = None) by (vm_compute; reflexivity).
  destruct (@nontrainable_gradient_untouched demo false) as (Hpair & _ & _ & _ & Hback).
  destruct (Hback ex_mixed (ptr ex_c) Hc Hsize Htop Hpar) as (g' & r & Hret & _ & Hin & Hout).
  split; [exact Hc | split; [apply Hpair | split; [vm_compute; reflexivity|]]].
  exists g'. split; [exact Hret|].
  destruct (in_dec Nat.eq_dec (ptr ex_c) r) as [Hr|Hr].
  - exact (Hin Hr).
  - rewrite (Hout Hr). exact Hadj.
Defined.

(** C10, the case that is not covered: the parameter ["c"] is not trainable
    and is the top node of its graph; it has no gradient before [backward],
    and the seeding writes one. *)
Lemma backward_writes_nontrainable_top_node :
  nodes_ ex_frozen = [ex_w] /\
  elements (topNodes_ ex_frozen) = [ptr ex_w] /\
  trainable_ (node ex_frozen ex_w) = false /\
  adj_ (node ex_frozen ex_w) = None /\
  is_Ok (backward (H := demo) false ex_frozen) = true /\
  adj_ (node (returned (backward (H := demo) false ex_frozen) ex_frozen) ex_w)
  = Some (mkTensor [1; 1] ex_shape).
Proof. vm_compute. repeat split. Qed.

(** C1 on the example graphs.  In [y = tanh(tanh(w) + exp(w))] the parameter
    [w] is a child of [ex_f] and of [ex_g]; each hands it the gradient
    [(1, 1)] it holds itself, and [w] ends with [(2, 2)].  In
    [y = tanh(tanh(x + x) + (-x))] the input [x], which has no name, stands
    twice among the children of [ex_t] and once among those of [ex_q]; when
    both have been visited, and [x] not yet, it holds [(3, 3)]. *)
Lemma gradient_accumulation_witness :
  (nodes_ ex_forwarded = [ex_w; ex_f; ex_g; ex_y] /\
   children ex_f = [ex_w] /\ children ex_g = [ex_w] /\
   name_ (node ex_forwarded ex_w) = "w" /\
   exists g', backward (H := demo) false ex_forwarded = Ok g' /\
              adj_ (node g' ex_w) = Some (mkTensor [2; 2] ex_shape)) /\
  (nodes_ ex_twice = [ex_x; ex_t; ex_q; ex_r] /\
   children ex_t = [ex_x; ex_x] /\ children ex_q = [ex_x] /\
   name_ (node ex_twice ex_x) = "none" /\
   adj_ (node (backward_loop false [ex_t; ex_q; ex_r]
                 (backward_seed (H := demo) false ex_twice)) ex_x)
   = Some (mkTensor [3; 3] ex_shape)).
Proof.
  split.
  - split; [vm_compute; reflexivity|].
    split; [reflexivity|]. split; [reflexivity|].
    split; [vm_compute; reflexivity|].
    destruct (@gradient_accumulation demo demo_accumulate demo_term
                (fun f t ins => eq_refl)
                ex_forwarded ex_w ex_g ex_f [ex_w] [] [ex_y]
                (Mult (Arg 1) (Exp (Arg 2)))
                (Mult (Arg 1) (Minus (Lit 1) (Mult (Arg 2) (Arg 2))))
                [Grad 2; Val 0] [Grad 1; Val 1])
      as (g' & total & Hret & Htotal & _ & Hend).
    + vm_compute. reflexivity.
    + vm_compute. lia.
    + apply (bool_decide_unpack _). vm_compute. exact I.
    + simpl. tauto.
    + simpl. tauto.
    + intros v [<-|[<-|[]]]; simpl; intuition discriminate.
    + simpl. intuition discriminate.
    + simpl. intuition discriminate.
    + intros [|i] c Hc _; [reflexivity|]. destruct i; discriminate Hc.
    + intros [|i] c Hc _; [reflexivity|]. destruct i; discriminate Hc.
    + vm_compute. reflexivity.
    + vm_compute. reflexivity.
    + vm_compute. reflexivity.
    + right. split; [vm_compute; left; reflexivity|].
      intros t Ht. vm_compute in Ht. discriminate Ht.
    + exists g'. split; [exact Hret|].
      rewrite (Hend ltac:(vm_compute; discriminate)), Htotal. vm_compute. reflexivity.
  - split; [vm_compute; reflexivity|].
    split; [reflexivity|]. split; [reflexivity|].
    split; [vm_compute; reflexivity|].
    destruct (@gradient_accumulation demo demo_accumulate demo_term
                (fun f t ins => eq_refl)
                ex_twice ex_x ex_q ex_t [ex_x] [] [ex_r]
                (Negate (Arg 1))
                (Mult (Arg 1) (Minus (Lit 1) (Mult (Arg 2) (Arg 2))))
                [Grad 2] [Grad 1; Val 1])
      as (g' & total & _ & Htotal & Hmid & _).
    + vm_compute. reflexivity.
    + vm_compute. lia.
    + apply (bool_decide_unpack _). vm_compute. exact I.
    + simpl. tauto.
    + simpl. tauto.
    + intros v [<-|[<-|[]]]; simpl; intuition discriminate.
    + simpl. intuition discriminate.
    + simpl. intuition discriminate.
    + intros [|i] c Hc _; [reflexivity|]. destruct i; discriminate Hc.
    + intros [|[|i]] c Hc _; [reflexivity | reflexivity | discriminate Hc].
    + vm_compute. reflexivity.
    + vm_compute. reflexivity.
    + vm_compute. reflexivity.
    + left. split; [vm_compute; reflexivity|]. vm_compute. tauto.
    + destruct (Hmid [ex_x] [] eq_refl) as [_ Hadj].
      * right. simpl. intuition discriminate.
      * simpl app in Hadj. rewrite Hadj, Htotal. vm_compute. reflexivity.
Defined.

(** C1, the case that is not covered: the input [x] has no name of its own
    and is trainable; it is a child of the two parents [ex_p] and [ex_q], each
    with an [Add] operation into its gradient; when [x] is visited, last, its
    storage is released, and after [backward] it has no gradient. *)
Lemma transient_node_keeps_no_gradient :
  nodes_ ex_unnamed = [ex_x; ex_p; ex_q; ex_z] /\
  children ex_p = [ex_x] /\ children ex_q = [ex_x] /\ ptr ex_p <> ptr ex_q /\
  trainable_ (node ex_unnamed ex_x) = true /\
  name_ (node ex_unnamed ex_x) = "none" /\
  backwardOps ex_p = [[mkCall (Add (Mult (Arg 1) (Exp (Arg 2)))) (Grad (ptr ex_x))
                         [Grad (ptr ex_p); Val (ptr ex_x)]]] /\
  backwardOps ex_q = [[mkCall (Add (Negate (Arg 1))) (Grad (ptr ex_x)) [Grad (ptr ex_q)]]] /\
  is_Ok (backprop (H := demo) ex_unnamed) = true /\
  adj_ (node (returned (backprop (H := demo) ex_unnamed) ex_unnamed) ex_x) = None /\
  In (ptr ex_x) (released_ (returned (backprop (H := demo) ex_unnamed) ex_unnamed)).
Proof.
  split; [vm_compute; reflexivity|].
  split; [reflexivity|]. split; [reflexivity|].
  split; [vm_compute; discriminate|].
  split; [vm_compute; reflexivity|].
  split; [vm_compute; reflexivity|].
  split; [vm_compute; reflexivity|].
  split; [vm_compute; reflexivity|].
  split; [vm_compute; reflexivity|].
  split; [vm_compute; reflexivity|].
  vm_compute. tauto.
Qed.

(** The further properties on the example graphs. *)

Lemma Built_Reachable `{!Backend} (g : ExpressionGraph) : Built g -> Reachable g.
Proof.
  induction 1 as [|c g e g' _ IH _ Hex|name shape trainable init g p g' _ IH _ Hpar].
  - apply Reachable_new.
  - exact (Reachable_Expression c g e g' IH Hex).
  - exact (Reachable_param name shape trainable init g p g' IH Hpar).
Qed.

Lemma ex_shapes :
  shape_ (node ex_graph ex_f) = ex_shape /\ shape_ (node ex_graph ex_g) = ex_shape.
Proof. split; vm_compute; reflexivity. Qed.

Lemma backward_keeps_values_witness :
  is_Ok (backward (H := demo) false ex_forwarded) = true /\
  same_tables ex_forwarded (returned (backward (H := demo) false ex_forwarded) ex_forwarded).
Proof.
  assert (Hok : is_Ok (backward (H := demo) false ex_forwarded) = true)
    by (vm_compute; reflexivity).
  split; [exact Hok|].
  exact (proj1 (@backward_keeps_values demo false ex_forwarded _
                  (returned_is_Ok _ ex_forwarded Hok))).
Defined.

Lemma newShape_broadcasts_witness :
  (forall n, In n [ex_f; ex_g] -> positive_shape (shape_ (node (H := demo) ex_graph n))) /\
  exists s, Tanh_newShape (H := demo) ex_graph ex_f [ex_g] = Some s /\ broadcasts_to s ex_shape.
Proof.
  destruct ex_shapes as [Hf Hg].
  assert (Hpos : forall n, In n [ex_f; ex_g] -> positive_shape (shape_ (node ex_graph n))).
  { intros n [<-|[<-|[]]]; [rewrite Hf | rewrite Hg]; unfold positive_shape, ex_shape; simpl; lia. }
  split; [exact Hpos|].
  apply (proj2 (@newShape_broadcasts demo ex_graph ex_f [ex_g] Hpos) ex_shape).
  intros n [<-|[<-|[]]]; [rewrite Hf | rewrite Hg]; unfold broadcasts_to; tauto.
Defined.

Lemma hash_memoised_witness :
  fst (hash (H := demo) ex_f (store_ ex_graph1)) <> 0 /\
  hash (H := demo) ex_f (snd (hash ex_f (store_ ex_graph1)))
  = (fst (hash ex_f (store_ ex_graph1)), snd (hash ex_f (store_ ex_graph1))).
Proof.
  assert (Hnz : fst (hash (H := demo) ex_f (store_ ex_graph1)) <> 0)
    by (vm_compute; discriminate).
  split; [exact Hnz|]. exact (@hash_memoised demo ex_f (store_ ex_graph1) Hnz).
Defined.

Lemma param_creates_parameter_witness :
  get (H := demo) "v" ex_graph = None /\
  exists g', param (H := demo) "v" ex_shape true None ex_graph
             = Ok (mkExpr (next_ ex_graph) (Leaf ParamNode) [], g') /\
             get "v" g' = Some (mkExpr (next_ ex_graph) (Leaf ParamNode) []).
Proof.
  assert (Hget : get (H := demo) "v" ex_graph = None) by (vm_compute; reflexivity).
  assert (Hhash : hashMap_ ex_graph !! @leaf_hash demo (next_ ex_graph) = None)
    by (vm_compute; reflexivity).
  split; [exact Hget|].
  destruct (@param_creates_parameter demo "v" ex_shape true None ex_graph Hget Hhash)
    as (g' & Hpar & Hget' & _).
  exists g'. split; [exact Hpar | exact Hget'].
Defined.

Lemma clear_keeps_parameters_witness :
  params_ ex_forwarded !! "w" = Some ex_w /\
  exists g', param (H := demo) "w" ex_shape true None (clear ex_forwarded) = Ok (ex_w, g') /\
             nodes_ g' = [ex_w] /\ val_ (node g' ex_w) = val_ (node ex_forwarded ex_w).
Proof.
  assert (Hpar : params_ ex_forwarded !! "w" = Some ex_w) by (vm_compute; reflexivity).
  split; [exact Hpar|].
  destruct (@clear_keeps_parameters demo "w" ex_shape true None ex_forwarded ex_w Hpar)
    as (_ & _ & _ & _ & _ & _ & _ & g' & Hret & Hn & _ & _ & _ & _ & _ & Hv & _).
  exists g'. split; [exact Hret | split; [exact Hn | exact Hv]].
Defined.

Lemma hash_table_matches_nodes_witness :
  Built (H := demo) ex_graph /\ size (hashMap_ ex_graph) = length (nodes_ ex_graph).
Proof.
  split; [exact ex_graph_Built|].
  exact (proj1 (@hash_table_matches_nodes demo ex_graph ex_graph_Built)).
Defined.

Lemma top_nodes_have_no_parent_witness :
  Built (H := demo) ex_graph /\
  forall v c, In v (nodes_ ex_graph) -> In c (children v) -> ptr c ∉ topNodes_ ex_graph.
Proof.
  split; [exact ex_graph_Built|].
  exact (proj2 (@top_nodes_have_no_parent demo ex_graph ex_graph_Built)).
Defined.

Lemma ex_named_Reachable : Reachable (H := demo) ex_named.
Proof.
  apply (Reachable_named ex_f "f" ex_graph ex_named).
  - apply Built_Reachable, ex_graph_Built.
  - unfold ex_named. apply returned_is_Ok. vm_compute. reflexivity.
Qed.

Lemma names_are_unique_witness :
  Reachable (H := demo) ex_named /\
  (params_ ex_named !! "f" = None \/ named_ ex_named !! "f" = None) /\
  (params_ ex_named !! "w" = None \/ named_ ex_named !! "w" = None).
Proof.
  split; [exact ex_named_Reachable|].
  split; apply (@names_are_unique demo ex_named ex_named_Reachable).
Defined.

Lemma backprop_releases_unnamed_witness :
  Built (H := demo) ex_graph /\ (size (topNodes_ ex_graph) <= 1)%nat /\
  exists g', backprop (H := demo) ex_graph = Ok g' /\
             In (ptr ex_f) (released_ g') /\ ~ In (ptr ex_w) (released_ g').
Proof.
  assert (Hsize : (size (topNodes_ ex_graph) <= 1)%nat) by (vm_compute; lia).
  split; [exact ex_graph_Built | split; [exact Hsize|]].
  destruct (@backprop_releases_unnamed demo ex_graph ex_graph_Built Hsize) as (g' & Hret & Hall).
  exists g'. split; [exact Hret|]. split.
  - apply (Hall ex_f); [vm_compute; tauto | vm_compute; reflexivity].
  - apply (Hall ex_w); [vm_compute; tauto | vm_compute; discriminate].
Defined.

Lemma tape_levels_witness :
  Built (H := demo) ex_graph /\ Z.of_nat (length (nodes_ ex_graph)) < 2 ^ 64 /\
  forall i t u, tapes_ ex_graph !! i = Some t -> In u t ->
                In u (nodes_ ex_graph) /\ tapeMap_ ex_graph !! ptr u = Some (Z.of_nat i).
Proof.
  assert (Hlen : Z.of_nat (length (nodes_ ex_graph)) < 2 ^ 64) by (vm_compute; reflexivity).
  split; [exact ex_graph_Built | split; [exact Hlen|]].
  exact (proj2 (@tape_levels demo ex_graph ex_graph_Built Hlen)).
Defined.

Lemma workspace_megabytes_witness :
  0 <= 8 < 2 ^ 44 /\ reserveWorkspaceMB 8 = 2097151 /\
  reservedWorkspaceMB (reserveWorkspaceMB 8) = 7.
Proof.
  assert (Hnum : 0 <= 8 < 2 ^ 44) by lia.
  split; [exact Hnum|].
  exact (proj2 (workspace_megabytes 8 Hnum) ltac:(lia)).
Defined.

Lemma operation_nodes_inherit_witness :
  Built (H := demo) ex_graph /\ In ex_y (nodes_ ex_graph) /\
  exists a rest, children ex_y = a :: rest /\
                 Tanh_newShape ex_graph a rest = Some (shape_ (node ex_graph ex_y)).
Proof.
  assert (Hin : In ex_y (nodes_ ex_graph)) by (vm_compute; tauto).
  split; [exact ex_graph_Built | split; [exact Hin|]].
  destruct (@operation_nodes_inherit demo ex_graph ex_graph_Built ex_y TanhNodeOp Hin eq_refl)
    as (a & rest & Hch & _ & Hsh).
  exists a, rest. split; [exact Hch | exact Hsh].
Defined.
